(** * Courier address scanner: the address-extraction heuristic of App.jsx

    A shallow embedding of [extractAddress] (src/src/App.jsx, lines 17-132),
    of the two line classifiers it defines, of the earlier version of the
    function kept in src/unnamed/part_000, and of the fragment of ECMAScript
    strings and regular expressions these functions rely on; then the
    properties of the specification, proved or refuted on the embedding. *)

From Stdlib Require Import Ascii String QArith.
From Stdlib Require Import List NArith Arith Bool Lia.
Import ListNotations.
Local Open Scope nat_scope.

(** ** JavaScript strings

    A JavaScript string is a sequence of UTF-16 code units; [length],
    indexing, [trim], [split] and the regular expressions without the [u]
    flag all work on code units. *)

Definition jsstring := list N.

Definition js (s : string) : jsstring :=
  map N_of_ascii (list_ascii_of_string s).

Definition ch (a : ascii) : N := N_of_ascii a.

Fixpoint jsstring_eqb (a b : jsstring) : bool :=
  match a, b with
  | [], [] => true
  | x :: a', y :: b' => N.eqb x y && jsstring_eqb a' b'
  | _, _ => false
  end.

(** Sets of code units, as the ranges a character class lists. *)
Definition charset := list (N * N).

Definition in_ranges (cs : charset) (c : N) : bool :=
  existsb (fun r => N.leb (fst r) c && N.leb c (snd r)) cs.

(** WhiteSpace and LineTerminator code units: what [trim] strips and what
    [\s] matches.  TAB..CR, SP, NBSP, U+1680, U+2000..U+200A, U+2028,
    U+2029, U+202F, U+205F, U+3000, U+FEFF. *)
Definition white_space : charset :=
  [ (9, 13); (32, 32); (160, 160); (5760, 5760); (8192, 8202);
    (8232, 8233); (8239, 8239); (8287, 8287); (12288, 12288);
    (65279, 65279) ]%N.

(** LineTerminator code units, which [.] does not match: LF, CR, U+2028,
    U+2029. *)
Definition line_terminator : charset :=
  [ (10, 10); (13, 13); (8232, 8233) ]%N.

Definition is_space (c : N) : bool := in_ranges white_space c.

Fixpoint drop_space (s : jsstring) : jsstring :=
  match s with
  | c :: s' => if is_space c then drop_space s' else s
  | [] => []
  end.

(** String.prototype.trim *)
Definition trim (s : jsstring) : jsstring :=
  rev (drop_space (rev (drop_space s))).

(** String.prototype.split with a one-code-unit separator *)
Fixpoint split (sep : N) (s : jsstring) : list jsstring :=
  match s with
  | [] => [[]]
  | c :: s' =>
      if N.eqb c sep then [] :: split sep s'
      else match split sep s' with
           | piece :: pieces => (c :: piece) :: pieces
           | [] => [[c]]
           end
  end.

(** Array.prototype.join *)
Fixpoint join (sep : jsstring) (l : list jsstring) : jsstring :=
  match l with
  | [] => []
  | [x] => x
  | x :: l' => x ++ sep ++ join sep l'
  end.

(** String.prototype.substring, for [start <= stop] *)
Definition substring (start stop : nat) (s : jsstring) : jsstring :=
  firstn (stop - start) (skipn start s).

(** ** Regular expressions

    The patterns of App.jsx use character classes, greedy quantifiers on a
    single class, sequences, one alternation of literals, [\b], [^] and
    [$].  None has the [u], [m], [s] or [y] flag. *)

Record cclass := Class { negated : bool; ranges : charset }.

Inductive regex :=
| Chr (c : cclass)
| Rep (c : cclass) (min : nat) (max : option nat)
| Seq (r1 r2 : regex)
| Alt (r1 r2 : regex)
| Eps
| WordB
| Bol
| Eol.

Record RegExp := mkRegExp { pattern : regex; ignoreCase : bool }.

(** The other case of an ASCII letter; any other code unit is left alone.
    Without the [u] flag, Canonicalize never maps a code unit of 128 or more
    to one below 128, so for the classes of this program, whose cased members
    are the ASCII letters, two code units have the same canonical form
    exactly when they are equal or the two cases of one ASCII letter. *)
Definition swap_case (c : N) : N :=
  if (N.leb 65 c && N.leb c 90)%bool then (c + 32)%N
  else if (N.leb 97 c && N.leb c 122)%bool then (c - 32)%N
  else c.

Definition in_class (icase : bool) (cl : cclass) (c : N) : bool :=
  xorb (negated cl)
       (in_ranges (ranges cl) c
        || (icase && in_ranges (ranges cl) (swap_case c))).

(** [\w] *)
Definition word_chars : charset :=
  [ (97, 122); (65, 90); (48, 57); (95, 95) ]%N.

Definition is_word_char (c : option N) : bool :=
  match c with
  | Some c => in_ranges word_chars c
  | None => false
  end.

(** The matcher works on the code unit before the current position (if any)
    and the rest of the input from the current position; a continuation
    receives both after each step and returns the rest that remains after
    the whole match, which is how the backtracking of ECMAScript's
    matchers is written. *)
Definition cont := option N -> jsstring -> option jsstring.

Fixpoint rep (icase : bool) (cl : cclass) (min : nat) (max : option nat)
    (prev : option N) (rest : jsstring) (k : cont) {struct rest}
  : option jsstring :=
  match max with
  | Some O => k prev rest
  | _ =>
      let attempt :=
        match rest with
        | c :: rest' =>
            if in_class icase cl c
            then rep icase cl (pred min) (option_map pred max) (Some c) rest' k
            else None
        | [] => None
        end in
      match min with
      | S _ => attempt
      | O => match attempt with
             | Some z => Some z
             | None => k prev rest
             end
      end
  end.

Fixpoint mtch (icase : bool) (r : regex) (prev : option N) (rest : jsstring)
    (k : cont) : option jsstring :=
  match r with
  | Chr cl =>
      match rest with
      | c :: rest' => if in_class icase cl c then k (Some c) rest' else None
      | [] => None
      end
  | Rep cl min max => rep icase cl min max prev rest k
  | Seq r1 r2 => mtch icase r1 prev rest (fun p w => mtch icase r2 p w k)
  | Alt r1 r2 =>
      match mtch icase r1 prev rest k with
      | Some z => Some z
      | None => mtch icase r2 prev rest k
      end
  | Eps => k prev rest
  | WordB =>
      if xorb (is_word_char prev) (is_word_char (hd_error rest))
      then k prev rest else None
  | Bol => match prev with None => k prev rest | Some _ => None end
  | Eol => match rest with [] => k prev rest | _ :: _ => None end
  end.

Definition accept : cont := fun _ w => Some w.

(** The search of RegExpBuiltinExec: try each start index in turn, from
    index [idx] where the input is [rest]; the result is the pair of the
    start and end index of the first match. *)
Fixpoint exec_from (re : RegExp) (prev : option N) (rest : jsstring)
    (idx : nat) : option (nat * nat) :=
  match mtch (ignoreCase re) (pattern re) prev rest accept with
  | Some w => Some (idx, idx + (length rest - length w))
  | None =>
      match rest with
      | c :: rest' => exec_from re (Some c) rest' (S idx)
      | [] => None
      end
  end.

Definition prev_unit (s : jsstring) (i : nat) : option N :=
  match i with
  | O => None
  | S j => nth_error s j
  end.

(** RegExpBuiltinExec with [lastIndex = i] *)
Definition exec_at (re : RegExp) (s : jsstring) (i : nat)
  : option (nat * nat) :=
  if length s <? i then None
  else exec_from re (prev_unit s i) (skipn i s) i.

(** [re.exec(s)] for a regular expression without the [g] and [y] flags:
    [lastIndex] is not read, the search starts at 0. *)
Definition regex_exec (re : RegExp) (s : jsstring) : option (nat * nat) :=
  exec_at re s 0.

(** RegExp.prototype.test *)
Definition regex_test (re : RegExp) (s : jsstring) : bool :=
  match regex_exec re s with
  | Some _ => true
  | None => false
  end.

(** String.prototype.match without the [g] flag: [null] or the match,
    of which only element 0 is used. *)
Definition string_match (s : jsstring) (re : RegExp) : option jsstring :=
  match regex_exec re s with
  | Some (b, e) => Some (substring b e s)
  | None => None
  end.

(** The loop of a [g] regular expression over one string: each search
    starts where the last match ended, one further after an empty match. *)
Fixpoint match_loop (re : RegExp) (s : jsstring) (fuel lastIndex : nat)
  : list (nat * nat) :=
  match fuel with
  | O => []
  | S fuel' =>
      match exec_at re s lastIndex with
      | None => []
      | Some (b, e) =>
          (b, e) :: match_loop re s fuel' (if e =? b then S e else e)
      end
  end.

Definition match_positions (re : RegExp) (s : jsstring) : list (nat * nat) :=
  match_loop re s (S (length s)) 0.

(** String.prototype.match with the [g] flag: [null] when nothing matches,
    else the array of the matched substrings. *)
Definition string_match_g (s : jsstring) (re : RegExp)
  : option (list jsstring) :=
  match match_positions re s with
  | [] => None
  | ms => Some (map (fun be => substring (fst be) (snd be) s) ms)
  end.

(** [x || []] *)
Definition or_empty (x : option (list jsstring)) : list jsstring :=
  match x with
  | Some l => l
  | None => []
  end.

(** String.prototype.replace with a [g] regular expression and a
    replacement string without [$]. *)
Fixpoint replace_loop (s : jsstring) (repl : jsstring)
    (ms : list (nat * nat)) (pos : nat) : jsstring :=
  match ms with
  | [] => skipn pos s
  | (b, e) :: ms' => substring pos b s ++ repl ++ replace_loop s repl ms' e
  end.

Definition string_replace_g (s : jsstring) (re : RegExp) (repl : jsstring)
  : jsstring :=
  replace_loop s repl (match_positions re s) 0.

(** ** Numbers

    The two ratios of the classifiers are quotients of two lengths.  A
    JavaScript division does not throw: 0/0 is NaN and every comparison with
    NaN is false.  The quotient of two integers below 2^53 and the literals
    0.8 and 0.4 are each rounded to the nearest double, rounding is monotone,
    and a quotient [a/b] with [b <= 50] that differs from 4/5 (or 2/5)
    differs by at least 1/250, so comparing the doubles is comparing the
    exact rationals. *)

Inductive jsnum :=
| NaN
| Infinity
| Finite (q : Q).

Definition js_div (a b : nat) : jsnum :=
  match b, a with
  | O, O => NaN
  | O, S _ => Infinity
  | S _, _ => Finite (Z.of_nat a # Pos.of_nat b)
  end.

(** [x > q] *)
Definition js_gt (x : jsnum) (q : Q) : bool :=
  match x with
  | NaN => false
  | Infinity => true
  | Finite p => negb (Qle_bool p q)
  end.

(** [x < q] *)
Definition js_lt (x : jsnum) (q : Q) : bool :=
  match x with
  | NaN => false
  | Infinity => false
  | Finite p => negb (Qle_bool q p)
  end.

(** ** The patterns of App.jsx *)

Definition one (a : ascii) : N * N := (ch a, ch a).
Definition span (a b : ascii) : N * N := (ch a, ch b).
Definition unit (c : N) : N * N := (c, c).

Definition pound : N := 163.  (* U+00A3 *)
Definition euro : N := 8364.  (* U+20AC *)
Definition yen : N := 165.    (* U+00A5 *)

Definition upper : N * N := span "A" "Z".
Definition lower : N * N := span "a" "z".
Definition digit : N * N := span "0" "9".

(** [\d], [\s] and [.] *)
Definition esc_d : cclass := Class false [digit].
Definition esc_s : cclass := Class false white_space.
Definition dot : cclass := Class true line_terminator.

Definition star (c : cclass) : regex := Rep c 0 None.
Definition plus (c : cclass) : regex := Rep c 1 None.
Definition opt (c : cclass) : regex := Rep c 0 (Some 1).

Declare Scope regex_scope.
Delimit Scope regex_scope with re.
Notation "a >> b" := (Seq a b) (at level 61, right associativity) : regex_scope.
Notation "a <|> b" := (Alt a b)
  (at level 62, right associativity) : regex_scope.

(** A literal such as [SHIP] *)
Fixpoint lit_units (s : jsstring) : regex :=
  match s with
  | [] => Eps
  | [c] => Chr (Class false [unit c])
  | c :: s' => Seq (Chr (Class false [unit c])) (lit_units s')
  end.

Definition lit (s : string) : regex := lit_units (js s).

(** Line 18: [/\b[A-Z]{1,2}\d[A-Z\d]?\s*\d[A-Z]{2}\b/i] *)
Definition POSTCODE_REGEX : RegExp :=
  mkRegExp
    (WordB >> Rep (Class false [upper]) 1 (Some 2) >> Chr esc_d
       >> opt (Class false [upper; digit]) >> star esc_s >> Chr esc_d
       >> Rep (Class false [upper]) 2 (Some 2) >> WordB)%re
    true.

(** Line 51: [/[£$€¥#@%&*+=<>]/] *)
Definition SHORT_SYMBOL : RegExp :=
  mkRegExp
    (Chr (Class false
       [ unit pound; one "$"; unit euro; unit yen; one "#"; one "@"; one "%";
         one "&"; one "*"; one "+"; one "="; one "<"; one ">" ]))
    false.

(** Line 54: [/[£$€¥#@%&*+=<>\[\]{}|\\\/~`^]/g] *)
Definition SPECIAL_CHAR : RegExp :=
  mkRegExp
    (Chr (Class false
       [ unit pound; one "$"; unit euro; unit yen; one "#"; one "@"; one "%";
         one "&"; one "*"; one "+"; one "="; one "<"; one ">"; one "[";
         one "]"; one "{"; one "}"; one "|"; one "\"; one "/"; one "~";
         one "`"; one "^" ]))
    false.

(** Lines 58 and 64: [/\s/] and [/\s/g] *)
Definition SPACE : RegExp := mkRegExp (Chr esc_s) false.

(** Line 58: [/[A-Za-z].*\d.*[£$€¥#@%&*]/] *)
Definition GARBLED : RegExp :=
  mkRegExp
    (Chr (Class false [upper; lower]) >> star dot >> Chr esc_d >> star dot
       >> Chr (Class false
            [ unit pound; one "$"; unit euro; unit yen; one "#"; one "@";
              one "%"; one "&"; one "*" ]))%re
    false.

(** Line 64: [/^[A-Z0-9\-_]{15,}$/i] *)
Definition TRACKING : RegExp :=
  mkRegExp
    (Bol >> Rep (Class false [upper; digit; one "-"; one "_"]) 15 None
       >> Eol)%re
    true.

(** Line 67:
    [/^(SHIP|DELIVERY|ADDRESS|TO|FROM|ORDER|TRACKING|PARCEL|REF)/i] *)
Definition HEADER : RegExp :=
  mkRegExp
    (Bol >> (lit "SHIP" <|> lit "DELIVERY" <|> lit "ADDRESS" <|> lit "TO"
             <|> lit "FROM" <|> lit "ORDER" <|> lit "TRACKING"
             <|> lit "PARCEL" <|> lit "REF"))%re
    true.

(** Line 70: [/\d/g] *)
Definition DIGIT : RegExp := mkRegExp (Chr esc_d) false.

(** Lines 74 and 85: [/[A-Za-z]/g] and [/[A-Za-z]/] *)
Definition LETTER : RegExp := mkRegExp (Chr (Class false [upper; lower])) false.

(** Line 91: [/[A-Za-z\s]/g] *)
Definition LETTER_OR_SPACE : RegExp :=
  mkRegExp (Chr (Class false ([upper; lower] ++ white_space))) false.

Definition comma_space : jsstring := js ", ".

Definition newline : N := 10.

(** Line 26: [text.split('\n').map(line => line.trim())
    .filter(line => line.length > 0)] *)
Definition lines_of (text : jsstring) : list jsstring :=
  filter (fun line => 0 <? length line) (map trim (split newline text)).

(** Lines 29-35: the first index whose line passes the test, [None] for
    the -1 that [postcodeIndex] keeps when no line does. *)
Fixpoint find_postcode (lines : list jsstring) (i : nat) : option nat :=
  match lines with
  | [] => None
  | line :: lines' =>
      if regex_test POSTCODE_REGEX line then Some i
      else find_postcode lines' (S i)
  end.

(** Lines 43-44: [postcodeMatch ? postcodeMatch[0] : lines[postcodeIndex]] *)
Definition postcode_of (line : jsstring) : jsstring :=
  match string_match line POSTCODE_REGEX with
  | Some m => m
  | None => line
  end.

(** The state of the loop of lines 100-126: the two variables it updates,
    and (for the statements about what it reads) the indices [i] at which
    [lines[i]] has been read so far, latest first. *)
Record scan := mkScan {
  addressLines : list jsstring;
  linesToCheck : nat;
  inspected : list nat
}.

(** The [k] lines just before index [n], in the order of the array. *)
Definition window (lines : list jsstring) (n k : nat) : list jsstring :=
  map (fun j => nth j lines []) (seq (n - k) k).

Section App.

(** String.prototype.toUpperCase, the Unicode default case conversion. *)
Variable toUpperCase : jsstring -> jsstring.

(** Lines 47-78 *)
Definition isPackageMetadata (line : jsstring) : bool :=
  let trimmed := trim line in
  if (length trimmed <? 4) && regex_test SHORT_SYMBOL trimmed then true else
  let specialChars := or_empty (string_match_g trimmed SPECIAL_CHAR) in
  if (2 <? length specialChars)
     || ((0 <? length specialChars) && (length trimmed <? 8)) then true else
  if (3 <? length trimmed) && negb (regex_test SPACE trimmed)
     && regex_test GARBLED trimmed then true else
  if 40 <? length trimmed then true else
  if regex_test TRACKING (string_replace_g trimmed SPACE []) then true else
  if jsstring_eqb trimmed (toUpperCase trimmed)
     && regex_test HEADER trimmed then true else
  let numRatio :=
    js_div (length (or_empty (string_match_g trimmed DIGIT)))
           (length trimmed) in
  if js_gt numRatio (4 # 5) && (10 <? length trimmed) then true else
  let letterCount := length (or_empty (string_match_g trimmed LETTER)) in
  if (letterCount <? 2) && (5 <? length trimmed) then true else
  false.

(** Lines 81-96 *)
Definition isValidAddressLine (line : jsstring) : bool :=
  let trimmed := trim line in
  if negb (regex_test LETTER trimmed) then false else
  if (length trimmed <? 2) || (50 <? length trimmed) then false else
  let letterCount :=
    length (or_empty (string_match_g trimmed LETTER_OR_SPACE)) in
  let letterRatio := js_div letterCount (length trimmed) in
  if js_lt letterRatio (2 # 5) && (5 <? length trimmed) then false else
  true.

Definition decrement (st : scan) : scan :=
  mkScan (addressLines st) (pred (linesToCheck st)) (inspected st).

(** Lines 103-126, from [i = n - 1] down: [walk lines n st] is the state
    when the loop is left, having started its test with [i = n - 1] in
    state [st].  [lines[i]] is read with [0 <= i < n], inside the array
    whenever [n <= lines.length]. *)
Fixpoint walk (lines : list jsstring) (n : nat) (st : scan) : scan :=
  match n with
  | O => st
  | S i =>
      if (length (addressLines st) <? 4) && (0 <? linesToCheck st) then
        let line := nth i lines [] in
        let st := mkScan (addressLines st) (linesToCheck st)
                         (i :: inspected st) in
        if isPackageMetadata line then walk lines i (decrement st)
        else if negb (isValidAddressLine line) then
          walk lines i (decrement st)
        else if 4 <=? length (addressLines st) then st
        else
          walk lines i
            (decrement (mkScan (line :: addressLines st) (linesToCheck st)
                               (inspected st)))
      else st
  end.

(** Lines 100-101 *)
Definition scan_start (postcodeIndex : nat) : scan :=
  mkScan [] (Nat.min 8 postcodeIndex) [].

(** Lines 25-132 *)
Definition extractAddress (text : jsstring) : jsstring :=
  let lines := lines_of text in
  match find_postcode lines 0 with
  | None => text
  | Some postcodeIndex =>
      let postcode := postcode_of (nth postcodeIndex lines []) in
      let st := walk lines postcodeIndex (scan_start postcodeIndex) in
      join comma_space (addressLines st ++ [postcode])
  end.

(** Lines 107-116, as one test: a line is kept when it is not package
    metadata and looks like an address line. *)
Definition accepted (line : jsstring) : bool :=
  negb (isPackageMetadata line) && isValidAddressLine line.

(** The accepted lines among the [k] lines just before index [n]. *)
Definition kept (lines : list jsstring) (n k : nat) : list jsstring :=
  filter accepted (window lines n k).

End App.

(** ** The earlier version of the function (src/unnamed/part_000)

    Lines 17-44 are those of App.jsx; lines 46-64 keep the last four lines
    before the postcode with three tests only. *)

Module Part000.

(** Line 56: [/^[A-Z0-9\-_]+$/i] *)
Definition ALNUM : RegExp :=
  mkRegExp
    (Bol >> plus (Class false [upper; digit; one "-"; one "_"]) >> Eol)%re
    true.

(** Line 57: [/^\d+$/] *)
Definition DIGITS : RegExp := mkRegExp (Bol >> plus esc_d >> Eol)%re false.

(** Lines 50-60, the body of the loop for one [lines[i]]: the line to push,
    or [None] at a [continue]. *)
Definition keep_line (entry : jsstring) : option jsstring :=
  let line := trim entry in
  if length line =? 0 then None else
  let noSpaces := string_replace_g line SPACE [] in
  if 50 <? length line then None else
  if (15 <? length noSpaces) && regex_test ALNUM noSpaces then None else
  if regex_test DIGITS noSpaces && (12 <? length noSpaces) then None else
  Some line.

(** Lines 50-61: [count] rounds of the loop from index [i]. *)
Fixpoint collect (lines : list jsstring) (i count : nat)
    (addressLines : list jsstring) : list jsstring :=
  match count with
  | O => addressLines
  | S count' =>
      collect lines (S i) count'
        match keep_line (nth i lines []) with
        | Some line => addressLines ++ [line]
        | None => addressLines
        end
  end.

(** Line 48: [Math.max(0, postcodeIndex - 4)] *)
Definition startIndex (postcodeIndex : nat) : nat :=
  Z.to_nat (Z.max 0 (Z.of_nat postcodeIndex - 4)).

(** Lines 25-65 *)
Definition extractAddress (text : jsstring) : jsstring :=
  let lines := lines_of text in
  match find_postcode lines 0 with
  | None => text
  | Some postcodeIndex =>
      let postcode := postcode_of (nth postcodeIndex lines []) in
      let addressLines :=
        collect lines (startIndex postcodeIndex)
                (postcodeIndex - startIndex postcodeIndex) [] in
      join comma_space (addressLines ++ [postcode])
  end.

End Part000.

(** ** The classifiers with their failures

    The same two functions where reading [length] of [null] throws, as it
    does in JavaScript: [match] with the [g] flag returns [null] when
    nothing matches. *)

Module Checked.

Inductive outcome (A : Type) :=
| Returns (a : A)
| Throws.

Arguments Returns {A} a.
Arguments Throws {A}.

Definition bind {A B : Type} (x : outcome A) (f : A -> outcome B)
  : outcome B :=
  match x with
  | Returns a => f a
  | Throws => Throws
  end.

Notation "x <- e ;; k" := (bind e (fun x => k))
  (at level 90, e at next level, right associativity).

(** [x.length] for an array or [null] *)
Definition length_of (x : option (list jsstring)) : outcome nat :=
  match x with
  | Some l => Returns (length l)
  | None => Throws
  end.

(** [x || []] *)
Definition or_array (x : option (list jsstring)) : option (list jsstring) :=
  match x with
  | Some l => Some l
  | None => Some []
  end.

Section Classifiers.

Variable toUpperCase : jsstring -> jsstring.

Definition isPackageMetadata (line : jsstring) : outcome bool :=
  let trimmed := trim line in
  if (length trimmed <? 4) && regex_test SHORT_SYMBOL trimmed
  then Returns true else
  let specialChars := or_array (string_match_g trimmed SPECIAL_CHAR) in
  n <- length_of specialChars ;;
  if (2 <? n) || ((0 <? n) && (length trimmed <? 8)) then Returns true else
  if (3 <? length trimmed) && negb (regex_test SPACE trimmed)
     && regex_test GARBLED trimmed then Returns true else
  if 40 <? length trimmed then Returns true else
  if regex_test TRACKING (string_replace_g trimmed SPACE [])
  then Returns true else
  if jsstring_eqb trimmed (toUpperCase trimmed)
     && regex_test HEADER trimmed then Returns true else
  digits <- length_of (or_array (string_match_g trimmed DIGIT)) ;;
  let numRatio := js_div digits (length trimmed) in
  if js_gt numRatio (4 # 5) && (10 <? length trimmed) then Returns true else
  letterCount <- length_of (or_array (string_match_g trimmed LETTER)) ;;
  if (letterCount <? 2) && (5 <? length trimmed) then Returns true else
  Returns false.

Definition isValidAddressLine (line : jsstring) : outcome bool :=
  let trimmed := trim line in
  if negb (regex_test LETTER trimmed) then Returns false else
  if (length trimmed <? 2) || (50 <? length trimmed) then Returns false else
  letterCount <-
    length_of (or_array (string_match_g trimmed LETTER_OR_SPACE)) ;;
  let letterRatio := js_div letterCount (length trimmed) in
  if js_lt letterRatio (2 # 5) && (5 <? length trimmed) then Returns false
  else Returns true.

End Classifiers.

End Checked.

(** ** Notions of the specification *)

Definition is_letter (c : N) : bool := in_ranges [upper; lower] c.

Definition is_digit (c : N) : bool := in_ranges [digit] c.

(** The postcode format of the glossary:
    [[A-Z]{1,2}\d[A-Z0-9]?\s*\d[A-Z]{2}], read without regard to case. *)
Definition POSTCODE_FORMAT : regex :=
  (Rep (Class false [upper]) 1 (Some 2) >> Chr esc_d
     >> opt (Class false [upper; digit]) >> star esc_s >> Chr esc_d
     >> Rep (Class false [upper]) 2 (Some 2))%re.

(** A string as a whole has the postcode format. *)
Definition has_postcode_format (w : jsstring) : bool :=
  regex_test (mkRegExp (Bol >> POSTCODE_FORMAT >> Eol)%re true) w.

(** The substrings of a string, one for each pair of a start and an end. *)
Definition substrings (s : jsstring) : list jsstring :=
  flat_map
    (fun b => map (fun e => substring b e s) (seq b (S (length s) - b)))
    (seq 0 (S (length s))).

(** The substrings that have the postcode format. *)
Definition postcode_substrings (s : jsstring) : list jsstring :=
  filter has_postcode_format (substrings s).

(** The code units before and after the substring [b..e) of [s] do not
    continue a word: a word boundary at both ends for a substring that
    starts and ends with a word character. *)
Definition word_bounded (s : jsstring) (b e : nat) : bool :=
  negb (is_word_char (prev_unit s b)) && negb (is_word_char (nth_error s e)).

(** The substrings of one line that have the postcode format between two
    word boundaries. *)
Definition bounded_postcodes (line : jsstring) : list jsstring :=
  flat_map
    (fun b =>
       flat_map
         (fun e =>
            if has_postcode_format (substring b e line)
               && word_bounded line b e
            then [substring b e line] else [])
         (seq b (S (length line) - b)))
    (seq 0 (S (length line))).

(** The part of a string after its last [", "]; the whole string when it
    has none. *)
Fixpoint until_space_comma (s : jsstring) : jsstring :=
  match s with
  | a :: s' =>
      match s' with
      | b :: _ =>
          if N.eqb a (ch " ") && N.eqb b (ch ",") then []
          else a :: until_space_comma s'
      | [] => [a]
      end
  | [] => []
  end.

Definition last_component (s : jsstring) : jsstring :=
  rev (until_space_comma (rev s)).

(** [toUpperCase] on strings of ASCII code units. *)
Definition ascii_upper (s : jsstring) : jsstring :=
  map (fun c => if N.leb 97 c && N.leb c 122 then (c - 32)%N else c) s.

Definition is_ascii (s : jsstring) : bool :=
  forallb (fun c => N.ltb c 128) s.

(** The symbols of the class that ends the pattern of line 58. *)
Definition garbled_symbols : charset :=
  [ unit pound; one "$"; unit euro; unit yen; one "#"; one "@"; one "%";
    one "&"; one "*" ].

(** The special characters of line 54. *)
Definition is_special (c : N) : bool :=
  in_class false
    (Class false
       [ unit pound; one "$"; unit euro; unit yen; one "#"; one "@"; one "%";
         one "&"; one "*"; one "+"; one "="; one "<"; one ">"; one "[";
         one "]"; one "{"; one "}"; one "|"; one "\"; one "/"; one "~";
         one "`"; one "^" ]) c.

(** [l1] is [l2] with some elements left out, the others in their order. *)
Inductive subsequence {A : Type} : list A -> list A -> Prop :=
| subsequence_nil l : subsequence [] l
| subsequence_skip x l1 l2 : subsequence l1 l2 -> subsequence l1 (x :: l2)
| subsequence_take x l1 l2 :
    subsequence l1 l2 -> subsequence (x :: l1) (x :: l2).

(** *** Sample inputs *)

Definition text_lines (l : list jsstring) : jsstring := join [newline] l.

(** Scenario B of the specification *)
Definition scenario_B : jsstring :=
  text_lines [ js "SHIP TO"; js "3" ++ [pound]; js "JOHN SMITH";
               js "42 HIGH STREET"; js "BELFAST"; js "BT1 1AA" ].

Definition scenario_B_address : jsstring :=
  js "JOHN SMITH, 42 HIGH STREET, BELFAST, BT1 1AA".

(** ** What a pattern matches

    [Matches icase r p m post]: the pattern [r] matches the code units [m]
    when the code unit before them is [p] (if any) and the input goes on
    with [post]. *)

(** The code unit before the position reached after [m]. *)
Definition prev_after (p : option N) (m : jsstring) : option N :=
  fold_left (fun _ c => Some c) m p.

Definition under_max (max : option nat) (n : nat) : Prop :=
  match max with
  | Some b => n <= b
  | None => True
  end.

Inductive Matches (icase : bool)
  : regex -> option N -> jsstring -> jsstring -> Prop :=
| M_chr cl p c post :
    in_class icase cl c = true -> Matches icase (Chr cl) p [c] post
| M_rep cl min max p l post :
    Forall (fun c => in_class icase cl c = true) l ->
    min <= length l -> under_max max (length l) ->
    Matches icase (Rep cl min max) p l post
| M_seq r1 r2 p m1 m2 post :
    Matches icase r1 p m1 (m2 ++ post) ->
    Matches icase r2 (prev_after p m1) m2 post ->
    Matches icase (Seq r1 r2) p (m1 ++ m2) post
| M_alt_l r1 r2 p m post :
    Matches icase r1 p m post -> Matches icase (Alt r1 r2) p m post
| M_alt_r r1 r2 p m post :
    Matches icase r2 p m post -> Matches icase (Alt r1 r2) p m post
| M_eps p post : Matches icase Eps p [] post
| M_wordb p post :
    xorb (is_word_char p) (is_word_char (hd_error post)) = true ->
    Matches icase WordB p [] post
| M_bol post : Matches icase Bol None [] post
| M_eol p : Matches icase Eol p [] [].

(** A quantifier [{min,max}] with [max < min] is a syntax error. *)
Definition min_le_max (min : nat) (max : option nat) : Prop :=
  under_max max min.

Fixpoint well_formed (r : regex) : Prop :=
  match r with
  | Rep _ min max => min_le_max min max
  | Seq r1 r2 | Alt r1 r2 => well_formed r1 /\ well_formed r2
  | _ => True
  end.

(** A match of [re] in [pre ++ m ++ post]: the units before, the matched
    units and the units after. *)
Definition match_in (re : RegExp) (pre m post : jsstring) : Prop :=
  Matches (ignoreCase re) (pattern re) (prev_after None pre) m post.

(** *** The shape of a postcode

    One or two letters, a digit, at most one letter or digit, any white
    space, a digit, two letters. *)

Definition all (f : N -> bool) (l : jsstring) : Prop :=
  Forall (fun c => f c = true) l.

Definition is_letter_or_digit (c : N) : bool := is_letter c || is_digit c.

Definition postcode_shape (m : jsstring) : Prop :=
  exists l1 d1 x sp d2 l2,
    m = l1 ++ d1 :: x ++ sp ++ d2 :: l2 /\
    all is_letter l1 /\ 1 <= length l1 <= 2 /\ is_digit d1 = true /\
    all is_letter_or_digit x /\ length x <= 1 /\ all is_space sp /\
    is_digit d2 = true /\ all is_letter l2 /\ length l2 = 2.

(** A line in which the pattern of line 18 finds nothing. *)
Definition no_postcode (line : jsstring) : Prop :=
  regex_test POSTCODE_REGEX line = false.

(** *** Lines and joined lines *)

Definition no_space_first (s : jsstring) : Prop :=
  forall c r, s = c :: r -> is_space c = false.

Definition no_space_last (s : jsstring) : Prop :=
  forall r c, s = r ++ [c] -> is_space c = false.

(** What [join] puts before the last element. *)
Definition join_prefix (sep : jsstring) (l : list jsstring) : jsstring :=
  concat (map (fun x => x ++ sep) l).

Definition comma : N := ch ",".

(** ** Further notions for the properties of the code *)

(** A string that [trim] empties: it has white space only. *)
Definition blank (s : jsstring) : Prop := trim s = [].

(** The lines the loop of part_000 pushes for a list of entries. *)
Definition kept000 (entries : list jsstring) : list jsstring :=
  flat_map
    (fun entry =>
       match Part000.keep_line entry with
       | Some line => [line]
       | None => []
       end)
    entries.

(** The matches of a pattern that is one character class, from index [idx]
    where the input is [w]. *)
Fixpoint class_positions (f : N -> bool) (w : jsstring) (idx : nat)
  : list (nat * nat) :=
  match w with
  | [] => []
  | c :: w' =>
      if f c then (idx, S idx) :: class_positions f w' (S idx)
      else class_positions f w' (S idx)
  end.

Fixpoint first_class (f : N -> bool) (w : jsstring) (idx : nat)
  : option (nat * nat) :=
  match w with
  | [] => None
  | c :: w' => if f c then Some (idx, S idx) else first_class f w' (S idx)
  end.

(** The units of the class of line 64: [[A-Z0-9\-_]] without regard to
    case. *)
Definition is_tracking_unit (c : N) : bool :=
  is_letter c || is_digit c || N.eqb c (ch "-") || N.eqb c (ch "_").

(** The keywords of line 67. *)
Definition header_keywords : list jsstring :=
  map js [ "SHIP"; "DELIVERY"; "ADDRESS"; "TO"; "FROM"; "ORDER"; "TRACKING";
           "PARCEL"; "REF" ]%string.

(** ** The handlers of App.jsx around [extractAddress] (lines 134-250) *)

(** *** encodeURIComponent

    The units it leaves as they are: letters, digits and [-_.!~*'()]. *)
Definition uri_unreserved : charset :=
  [ upper; lower; digit; one "-"; one "_"; one "."; one "!"; one "~";
    one "*"; one "'"; one "("; one ")" ].

Definition is_leading_surrogate (c : N) : bool :=
  N.leb 55296 c && N.leb c 56319.

Definition is_trailing_surrogate (c : N) : bool :=
  N.leb 56320 c && N.leb c 57343.

(** The code point of a surrogate pair. *)
Definition pair_code_point (lead trail : N) : N :=
  ((lead - 55296) * 1024 + (trail - 56320) + 65536)%N.

(** The octets of the UTF-8 encoding of a code point. *)
Definition utf8 (cp : N) : list N :=
  if N.ltb cp 128 then [cp]
  else if N.ltb cp 2048 then
    [192 + (cp / 64) mod 32; 128 + cp mod 64]%N
  else if N.ltb cp 65536 then
    [224 + (cp / 4096) mod 16; 128 + (cp / 64) mod 64; 128 + cp mod 64]%N
  else
    [240 + (cp / 262144) mod 8; 128 + (cp / 4096) mod 64;
     128 + (cp / 64) mod 64; 128 + cp mod 64]%N.

Definition hex_digit (n : N) : N :=
  if N.ltb n 10 then (ch "0" + n)%N else (ch "A" + (n - 10))%N.

(** ["%"] and the two upper-case hexadecimal digits of an octet. *)
Definition percent_octet (octet : N) : jsstring :=
  [ch "%"; hex_digit (octet / 16); hex_digit (octet mod 16)]%N.

Definition percent_encode (cp : N) : jsstring :=
  flat_map percent_octet (utf8 cp).

(** A string result, or the URIError that [encodeURIComponent] throws. *)
Inductive completion (A : Type) :=
| Normal (a : A)
| URIError.

Arguments Normal {A} a.
Arguments URIError {A}.

Definition prepend (r : jsstring) (x : completion jsstring)
  : completion jsstring :=
  match x with
  | Normal s => Normal (r ++ s)
  | URIError => URIError
  end.

(** Encode with the unreserved set of [encodeURIComponent]: an unreserved
    unit is copied; any other is read as a code point (a surrogate pair
    counts as one, an unpaired surrogate throws) and written as the percent
    escapes of its UTF-8 octets. *)
Fixpoint encodeURIComponent (s : jsstring) : completion jsstring :=
  match s with
  | [] => Normal []
  | c :: s' =>
      if in_ranges uri_unreserved c then prepend [c] (encodeURIComponent s')
      else if is_trailing_surrogate c then URIError
      else if is_leading_surrogate c then
        match s' with
        | d :: s'' =>
            if is_trailing_surrogate d
            then prepend (percent_encode (pair_code_point c d))
                         (encodeURIComponent s'')
            else URIError
        | [] => URIError
        end
      else prepend (percent_encode c) (encodeURIComponent s')
  end.

(** String.prototype.isWellFormed: no unpaired surrogate. *)
Fixpoint isWellFormed (s : jsstring) : bool :=
  match s with
  | [] => true
  | c :: s' =>
      if is_trailing_surrogate c then false
      else if is_leading_surrogate c then
        match s' with
        | d :: s'' => is_trailing_surrogate d && isWellFormed s''
        | [] => false
        end
      else isWellFormed s'
  end.

(** The units an encoded component is made of. *)
Definition is_uri_safe (c : N) : bool :=
  in_ranges uri_unreserved c || N.eqb c (ch "%").

(** *** The state the handlers read and write, and what they do *)

Record app_state := mkState {
  isScanning : bool;
  detectedText : jsstring;
  parsedAddress : jsstring
}.

(** The initial state of lines 9-11 *)
Definition initial_state : app_state := mkState false [] [].

Inductive effect :=
| ShowToastMessage (message : jsstring)
| WindowOpen (url target : jsstring)
| AssignLocationHref (url : jsstring)
| ClipboardWriteText (text : jsstring)
| ConsoleError.

(** [a || b] on strings: the empty string is the falsy one. *)
Definition or_string (a b : jsstring) : jsstring :=
  match a with
  | [] => b
  | _ :: _ => a
  end.

(** Lines 190, 228 and 379: [parsedAddress || detectedText] *)
Definition shown_address (st : app_state) : jsstring :=
  or_string (parsedAddress st) (detectedText st).

(** Line 380: [onChange={(e) => setParsedAddress(e.target.value)}] *)
Definition edit_address (value : jsstring) (st : app_state) : app_state :=
  mkState (isScanning st) (detectedText st) value.

Definition google_prefix : jsstring :=
  js "https://www.google.com/maps/search/?api=1&query=".
Definition waze_prefix : jsstring := js "https://waze.com/ul?q=".
Definition here_prefix : jsstring := js "heremaps://directions?daddr=".
Definition apple_prefix : jsstring := js "https://maps.apple.com/?q=".

Definition is_empty (s : jsstring) : bool :=
  match s with
  | [] => true
  | _ :: _ => false
  end.

(** Lines 189-225.  [encodeURIComponent] runs before the [switch], so its
    URIError is thrown for every [service]. *)
Definition openInMaps (st : app_state) (service : jsstring)
  : completion (list effect) :=
  let address := shown_address st in
  if is_empty (trim address) then
    Normal [ShowToastMessage
              (js "No address detected. Please edit the address field.")]
  else
    match encodeURIComponent address with
    | URIError => URIError
    | Normal encodedAddress =>
        if jsstring_eqb service (js "google") then
          Normal [WindowOpen (google_prefix ++ encodedAddress) (js "_blank")]
        else if jsstring_eqb service (js "waze") then
          Normal [WindowOpen (waze_prefix ++ encodedAddress) (js "_blank")]
        else if jsstring_eqb service (js "here") then
          Normal [AssignLocationHref (here_prefix ++ encodedAddress)]
        else if jsstring_eqb service (js "apple") then
          Normal [WindowOpen (apple_prefix ++ encodedAddress) (js "_blank")]
        else Normal []
    end.

(** Lines 227-237; [written] tells whether the promise of
    [navigator.clipboard.writeText] is fulfilled. *)
Definition copyAddress (st : app_state) (written : bool) : list effect :=
  let address := shown_address st in
  if is_empty (trim address) then
    [ShowToastMessage (js "No address to copy.")]
  else
    [ ClipboardWriteText address;
      ShowToastMessage
        (if written then js "Address copied to clipboard!"
         else js "Failed to copy address.") ].

(** The calls of the state setters, in the order of the code. *)
Inductive setter :=
| SetIsScanning (b : bool)
| SetDetectedText (s : jsstring)
| SetParsedAddress (s : jsstring).

Definition set_state (st : app_state) (u : setter) : app_state :=
  match u with
  | SetIsScanning b => mkState b (detectedText st) (parsedAddress st)
  | SetDetectedText s => mkState (isScanning st) s (parsedAddress st)
  | SetParsedAddress s => mkState (isScanning st) (detectedText st) s
  end.

(** Line 250: [/iPad|iPhone|iPod/] *)
Definition IOS_DEVICE : RegExp :=
  mkRegExp (lit "iPad" <|> lit "iPhone" <|> lit "iPod")%re false.

Definition isIOS (userAgent : jsstring) : bool :=
  regex_test IOS_DEVICE userAgent.

(** [s] occurs in [t]. *)
Definition occurs_in (s t : jsstring) : Prop :=
  exists a b, t = a ++ s ++ b.

Section Scanning.

Variable toUpperCase : jsstring -> jsstring.

(** Lines 134-159: the setter calls of one run of [processImageWithOCR]
    and its other effects; [recognized] is the text the OCR worker
    returns, [None] when creating the worker, recognizing or terminating
    throws. *)
Definition processImageWithOCR_setters (recognized : option jsstring)
  : list setter :=
  [SetIsScanning true; SetDetectedText []; SetParsedAddress []]
  ++ match recognized with
     | Some text =>
         [SetDetectedText text;
          SetParsedAddress (extractAddress toUpperCase text)]
     | None => []
     end
  ++ [SetIsScanning false].

Definition processImageWithOCR_effects (recognized : option jsstring)
  : list effect :=
  match recognized with
  | Some _ => []
  | None =>
      [ConsoleError;
       ShowToastMessage (js "Failed to scan image. Please try again.")]
  end.

(** The state once the run is over. *)
Definition processImageWithOCR (recognized : option jsstring)
    (st : app_state) : app_state :=
  fold_left set_state (processImageWithOCR_setters recognized) st.

End Scanning.

Definition no_address_toast : effect :=
  ShowToastMessage (js "No address detected. Please edit the address field.").

(** What [openInMaps] may do with a link: open it in a new tab, or (for
    HERE WeGo) navigate to it. *)
Definition link_of (eff : effect) : option jsstring :=
  match eff with
  | WindowOpen url _ => Some url
  | AssignLocationHref url => Some url
  | _ => None
  end.

Definition link_prefixes : list jsstring :=
  [google_prefix; waze_prefix; here_prefix; apple_prefix].

(** * Theorems *)

(** ** What the matcher computes

    The backtracking matcher returns a result exactly when some match lets
    its continuation succeed. *)

Lemma prev_after_app p m1 m2 :
  prev_after p (m1 ++ m2) = prev_after (prev_after p m1) m2.
Proof. apply fold_left_app. Qed.

Lemma prev_after_last p m c : prev_after p (m ++ [c]) = Some c.
Proof. now rewrite prev_after_app. Qed.

Lemma rep_cons icase cl min max p c w k :
  rep icase cl min max p (c :: w) k =
  let attempt :=
    if in_class icase cl c
    then rep icase cl (pred min) (option_map pred max) (Some c) w k
    else None in
  match max with
  | Some O => k p (c :: w)
  | _ => match min with
         | S _ => attempt
         | O => match attempt with
                | Some z => Some z
                | None => k p (c :: w)
                end
         end
  end.
Proof. destruct max as [[|b]|]; reflexivity. Qed.

Lemma rep_sound icase cl w : forall min max p k z,
  min_le_max min max ->
  rep icase cl min max p w k = Some z ->
  exists l post,
    w = l ++ post /\ Forall (fun c => in_class icase cl c = true) l /\
    min <= length l /\ under_max max (length l) /\
    k (prev_after p l) post = Some z.
Proof.
  induction w as [|c w IH]; intros min max p k z Hwf H.
  - exists [], []. simpl in H. unfold min_le_max in Hwf.
    destruct max as [[|b]|], min; simpl in *; try discriminate; try lia;
      repeat split; auto with arith.
  - assert (Hstop : min = 0 -> k p (c :: w) = Some z ->
              exists l post, c :: w = l ++ post /\
                Forall (fun c => in_class icase cl c = true) l /\
                min <= length l /\ under_max max (length l) /\
                k (prev_after p l) post = Some z).
    { intros -> Hk. exists [], (c :: w).
      destruct max; simpl; repeat split; auto with arith. }
    assert (Hgo : max <> Some 0 ->
              (if in_class icase cl c
               then rep icase cl (pred min) (option_map pred max) (Some c) w k
               else None) = Some z ->
              exists l post, c :: w = l ++ post /\
                Forall (fun c => in_class icase cl c = true) l /\
                min <= length l /\ under_max max (length l) /\
                k (prev_after p l) post = Some z).
    { intros Hmax Hr.
      destruct (in_class icase cl c) eqn:Hc; [|discriminate].
      apply IH in Hr.
      - destruct Hr as (l & post & -> & Hl & Hmin & Hmx & Hk).
        exists (c :: l), post. simpl. repeat split; auto.
        + lia.
        + destruct max as [[|b]|]; simpl in *; try congruence; lia.
      - unfold min_le_max in *.
        destruct max as [[|b]|]; simpl in *; try congruence; lia. }
    unfold min_le_max in Hwf. rewrite rep_cons in H.
    set (attempt := if in_class icase cl c then _ else None) in *.
    destruct max as [[|b]|]; cbv beta iota zeta in H.
    + apply Hstop; auto. simpl in Hwf. lia.
    + destruct min as [|min'].
      * destruct attempt eqn:Ha.
        -- apply Hgo; [discriminate|]. congruence.
        -- apply Hstop; auto.
      * apply Hgo; [discriminate|]. exact H.
    + destruct min as [|min'].
      * destruct attempt eqn:Ha.
        -- apply Hgo; [discriminate|]. congruence.
        -- apply Hstop; auto.
      * apply Hgo; [discriminate|]. exact H.
Qed.

Lemma rep_complete icase cl l : forall min max p post k z,
  Forall (fun c => in_class icase cl c = true) l ->
  min <= length l -> under_max max (length l) ->
  k (prev_after p l) post = Some z ->
  exists z', rep icase cl min max p (l ++ post) k = Some z'.
Proof.
  induction l as [|c l IH]; intros min max p post k z Hl Hmin Hmax Hk.
  - simpl in *. assert (min = 0) as -> by lia.
    destruct post as [|d post]; simpl.
    + destruct max as [[|b]|]; eauto.
    + destruct max as [[|b]|]; eauto;
        destruct (if in_class icase cl d then _ else None); eauto.
  - inversion Hl as [|? ? Hc Hl']; subst. simpl in *.
    destruct (IH (pred min) (option_map pred max) (Some c) post k z)
      as [z' Hz']; auto.
    + lia.
    + destruct max as [b|]; simpl in *; auto; lia.
    + rewrite Hc.
      destruct max as [[|b]|]; simpl in *; try lia;
        rewrite Hz'; destruct min; eauto.
Qed.

Theorem mtch_sound icase r : forall p w k z,
  well_formed r ->
  mtch icase r p w k = Some z ->
  exists m post,
    w = m ++ post /\ Matches icase r p m post /\
    k (prev_after p m) post = Some z.
Proof.
  induction r as [cl|cl min max|r1 IH1 r2 IH2|r1 IH1 r2 IH2| | | |];
    intros p w k z Hwf H; simpl in *.
  - destruct w as [|c w]; [discriminate|].
    destruct (in_class icase cl c) eqn:Hc; [|discriminate].
    exists [c], w. repeat split; auto. now constructor.
  - destruct (rep_sound _ _ _ _ _ _ _ _ Hwf H)
      as (l & post & -> & Hl & Hmin & Hmx & Hk).
    exists l, post. repeat split; auto. now constructor.
  - destruct Hwf as [Hwf1 Hwf2].
    destruct (IH1 _ _ _ _ Hwf1 H) as (m1 & w1 & -> & HM1 & H2).
    destruct (IH2 _ _ _ _ Hwf2 H2) as (m2 & post & -> & HM2 & Hk).
    exists (m1 ++ m2), post. rewrite prev_after_app, <- app_assoc.
    repeat split; auto. now constructor.
  - destruct Hwf as [Hwf1 Hwf2].
    destruct (mtch icase r1 p w k) eqn:H1.
    + destruct (IH1 _ _ _ _ Hwf1 H1) as (m & post & -> & HM & Hk).
      exists m, post. repeat split; [|congruence]. now apply M_alt_l.
    + destruct (IH2 _ _ _ _ Hwf2 H) as (m & post & -> & HM & Hk).
      exists m, post. repeat split; auto. now apply M_alt_r.
  - exists [], w. repeat split; auto. constructor.
  - destruct (xorb _ _) eqn:Hb; [|discriminate].
    exists [], w. repeat split; auto. now constructor.
  - destruct p; [discriminate|].
    exists [], w. repeat split; auto. constructor.
  - destruct w; [|discriminate].
    exists [], []. repeat split; auto. constructor.
Qed.

Theorem mtch_complete icase r p m post :
  Matches icase r p m post ->
  forall k z, k (prev_after p m) post = Some z ->
  exists z', mtch icase r p (m ++ post) k = Some z'.
Proof.
  induction 1 as [cl p c post Hc|cl min max p l post Hl Hmin Hmax
                 |r1 r2 p m1 m2 post _ IH1 _ IH2|r1 r2 p m post _ IH
                 |r1 r2 p m post _ IH|p post|p post Hb|post|p];
    intros k z Hk; simpl in *.
  - rewrite Hc. eauto.
  - eapply rep_complete; eauto.
  - rewrite prev_after_app in Hk.
    destruct (IH2 _ _ Hk) as [z2 H2].
    rewrite <- app_assoc. eapply IH1; eauto.
  - destruct (IH _ _ Hk) as [z1 H1]. rewrite H1. eauto.
  - destruct (mtch icase r1 p (m ++ post) k); eauto.
  - eauto.
  - rewrite Hb. eauto.
  - eauto.
  - eauto.
Qed.

(** ** What the search computes *)

Lemma mtch_accept_sound icase r p w z :
  well_formed r ->
  mtch icase r p w accept = Some z ->
  exists m, w = m ++ z /\ Matches icase r p m z.
Proof.
  intros Hwf H.
  destruct (mtch_sound _ _ _ _ _ _ Hwf H) as (m & post & -> & HM & Hk).
  injection Hk as <-. eauto.
Qed.

Lemma mtch_accept_none icase r p m post :
  mtch icase r p (m ++ post) accept = None ->
  ~ Matches icase r p m post.
Proof.
  intros H HM.
  destruct (mtch_complete _ _ _ _ _ HM accept post eq_refl) as [z Hz].
  congruence.
Qed.

Lemma exec_from_none re w : forall p idx,
  exec_from re p w idx = None ->
  forall pre m post, w = pre ++ m ++ post ->
    ~ Matches (ignoreCase re) (pattern re) (prev_after p pre) m post.
Proof.
  induction w as [|c w IH]; intros p idx H pre m post Hw; simpl in H.
  - destruct (mtch _ _ _ _ _) eqn:Hm; [discriminate|].
    symmetry in Hw. apply app_eq_nil in Hw as [-> Hw].
    apply mtch_accept_none. now rewrite Hw.
  - destruct (mtch _ _ _ _ _) eqn:Hm; [discriminate|].
    destruct pre as [|c' pre]; simpl in Hw.
    + apply mtch_accept_none. now rewrite <- Hw.
    + injection Hw as <- ->. simpl. now apply (IH _ _ H).
Qed.

Lemma exec_from_some re w : forall p idx b e,
  well_formed (pattern re) ->
  exec_from re p w idx = Some (b, e) ->
  exists pre m post,
    w = pre ++ m ++ post /\ b = idx + length pre /\ e = b + length m /\
    Matches (ignoreCase re) (pattern re) (prev_after p pre) m post /\
    forall pre' m' post', w = pre' ++ m' ++ post' ->
      length pre' < length pre ->
      ~ Matches (ignoreCase re) (pattern re) (prev_after p pre') m' post'.
Proof.
  intros p idx b e Hwf. revert p idx b e.
  induction w as [|c w IH]; intros p idx b e H; simpl in H.
  - destruct (mtch _ _ _ _ _) as [z|] eqn:Hm; [|discriminate].
    injection H as <- <-.
    destruct (mtch_accept_sound _ _ _ _ _ Hwf Hm) as (m & Hw & HM).
    pose proof Hw as Hw'. symmetry in Hw'.
    apply app_eq_nil in Hw' as [-> ->].
    exists [], [], []. simpl. repeat split; auto; try lia.
  - destruct (mtch _ _ _ _ _) as [z|] eqn:Hm.
    + injection H as <- <-.
      destruct (mtch_accept_sound _ _ _ _ _ Hwf Hm) as (m & Hw & HM).
      assert (Hlen : length (c :: w) = length m + length z)
        by (rewrite Hw; apply length_app).
      simpl in Hlen.
      exists [], m, z. simpl. repeat split; auto; try lia.
      destruct (length z); lia.
    + destruct (IH _ _ _ _ H)
        as (pre & m & post & -> & -> & -> & HM & Hfirst).
      exists (c :: pre), m, post. simpl. repeat split; auto; try lia.
      intros pre' m' post' Hw Hlen.
      destruct pre' as [|c' pre']; simpl in *.
      * apply mtch_accept_none. now rewrite <- Hw.
      * injection Hw as <- Hw. apply Hfirst; auto. lia.
Qed.

Lemma regex_exec_unfold re s : regex_exec re s = exec_from re None s 0.
Proof. reflexivity. Qed.

Lemma substring_app pre m post :
  substring (length pre) (length pre + length m) (pre ++ m ++ post) = m.
Proof.
  unfold substring. rewrite skipn_app, skipn_all, Nat.sub_diag. simpl.
  replace (length pre + length m - length pre) with (length m + 0) by lia.
  now rewrite firstn_app_2, firstn_O, app_nil_r.
Qed.

Lemma regex_exec_some re s b e :
  well_formed (pattern re) ->
  regex_exec re s = Some (b, e) ->
  exists pre m post,
    s = pre ++ m ++ post /\ b = length pre /\ e = b + length m /\
    substring b e s = m /\ match_in re pre m post /\
    forall pre' m' post', s = pre' ++ m' ++ post' ->
      length pre' < length pre -> ~ match_in re pre' m' post'.
Proof.
  intros Hwf H. rewrite regex_exec_unfold in H.
  destruct (exec_from_some _ _ _ _ _ _ Hwf H)
    as (pre & m & post & -> & -> & -> & HM & Hfirst).
  exists pre, m, post. repeat split; auto.
  apply substring_app.
Qed.

Lemma regex_test_true re s :
  well_formed (pattern re) ->
  regex_test re s = true <->
  exists pre m post, s = pre ++ m ++ post /\ match_in re pre m post.
Proof.
  intros Hwf. unfold regex_test. split.
  - destruct (regex_exec re s) as [[b e]|] eqn:H; [|discriminate].
    intros _.
    destruct (regex_exec_some _ _ _ _ Hwf H)
      as (pre & m & post & Hs & _ & _ & _ & HM & _).
    eauto.
  - intros (pre & m & post & Hs & HM).
    destruct (regex_exec re s) as [[b e]|] eqn:H; auto.
    exfalso. rewrite regex_exec_unfold in H.
    exact (exec_from_none _ _ _ _ H _ _ _ Hs HM).
Qed.

(** ** Character classes of the postcode pattern *)

Lemma upper_val : upper = (65, 90)%N.
Proof. reflexivity. Qed.

Lemma lower_val : lower = (97, 122)%N.
Proof. reflexivity. Qed.

Lemma digit_val : digit = (48, 57)%N.
Proof. reflexivity. Qed.

Ltac ranges_prop :=
  unfold is_letter, is_digit, is_space, is_word_char, in_ranges,
    white_space, word_chars in *;
  rewrite ?upper_val, ?lower_val, ?digit_val in *;
  cbn [existsb fst snd] in *;
  rewrite ?orb_false_r in *;
  rewrite ?orb_true_iff, ?andb_true_iff, ?N.leb_le in *.

Lemma letter_iff c :
  is_letter c = true <-> (65 <= c <= 90 \/ 97 <= c <= 122)%N.
Proof. ranges_prop. lia. Qed.

Lemma digit_iff c : is_digit c = true <-> (48 <= c <= 57)%N.
Proof. ranges_prop. lia. Qed.

Lemma word_iff c :
  is_word_char (Some c) = true <->
  (97 <= c <= 122 \/ 65 <= c <= 90 \/ 48 <= c <= 57 \/ c = 95)%N.
Proof. ranges_prop. lia. Qed.

Lemma space_bounds c : is_space c = true -> (c <= 32 \/ 160 <= c)%N.
Proof. ranges_prop. lia. Qed.

Lemma swap_case_cases c :
  ((65 <= c <= 90)%N /\ swap_case c = (c + 32)%N) \/
  ((97 <= c <= 122)%N /\ swap_case c = (c - 32)%N) \/
  (~ (65 <= c <= 90)%N /\ ~ (97 <= c <= 122)%N /\ swap_case c = c).
Proof.
  unfold swap_case.
  destruct (N.leb_spec 65 c), (N.leb_spec c 90), (N.leb_spec 97 c),
    (N.leb_spec c 122); cbn [andb]; lia.
Qed.

Lemma letter_not_digit c : is_letter c = true -> is_digit c = false.
Proof.
  intros H. apply letter_iff in H.
  destruct (is_digit c) eqn:E; auto. apply digit_iff in E. lia.
Qed.

Lemma letter_not_space c : is_letter c = true -> is_space c = false.
Proof.
  intros H. apply letter_iff in H.
  destruct (is_space c) eqn:E; auto. apply space_bounds in E. lia.
Qed.

Lemma digit_not_space c : is_digit c = true -> is_space c = false.
Proof.
  intros H. apply digit_iff in H.
  destruct (is_space c) eqn:E; auto. apply space_bounds in E. lia.
Qed.

Lemma letter_word c : is_letter c = true -> is_word_char (Some c) = true.
Proof. rewrite letter_iff, word_iff. lia. Qed.

Lemma digit_word c : is_digit c = true -> is_word_char (Some c) = true.
Proof. rewrite digit_iff, word_iff. lia. Qed.

Lemma swap_case_digit c : is_digit (swap_case c) = is_digit c.
Proof.
  apply eq_iff_eq_true. rewrite !digit_iff.
  destruct (swap_case_cases c) as [[H ->]|[[H ->]|(H1 & H2 & ->)]]; lia.
Qed.

Lemma swap_case_space c :
  is_space (swap_case c) = true -> is_space c = true.
Proof.
  destruct (swap_case_cases c) as [[H E]|[[H E]|(H1 & H2 & ->)]]; auto;
    intros Hs; apply space_bounds in Hs; lia.
Qed.

Lemma in_ranges_app cs1 cs2 c :
  in_ranges (cs1 ++ cs2) c = in_ranges cs1 c || in_ranges cs2 c.
Proof. apply existsb_app. Qed.

Lemma letter_split c :
  is_letter c = in_ranges [upper] c || in_ranges [lower] c.
Proof. unfold is_letter. now rewrite (in_ranges_app [upper] [lower]). Qed.

Lemma swap_upper_lower c :
  in_ranges [upper] (swap_case c) = in_ranges [lower] c.
Proof.
  apply eq_iff_eq_true. unfold in_ranges.
  rewrite upper_val, lower_val. cbn [existsb fst snd].
  rewrite !orb_false_r, !andb_true_iff, !N.leb_le.
  destruct (swap_case_cases c) as [[H ->]|[[H ->]|(H1 & H2 & ->)]]; lia.
Qed.

Lemma icase_upper c : in_class true (Class false [upper]) c = is_letter c.
Proof.
  unfold in_class. cbn [negated ranges xorb andb].
  now rewrite swap_upper_lower, letter_split.
Qed.

Lemma icase_upper_digit c :
  in_class true (Class false [upper; digit]) c = is_letter c || is_digit c.
Proof.
  unfold in_class. cbn [negated ranges xorb andb].
  rewrite !(in_ranges_app [upper] [digit]).
  fold (is_digit c). fold (is_digit (swap_case c)).
  rewrite swap_upper_lower, swap_case_digit, letter_split.
  destruct (in_ranges [upper] c), (in_ranges [lower] c), (is_digit c);
    reflexivity.
Qed.

Lemma icase_digit c : in_class true esc_d c = is_digit c.
Proof.
  unfold in_class, esc_d. cbn [negated ranges xorb andb].
  fold (is_digit c). fold (is_digit (swap_case c)).
  rewrite swap_case_digit. now destruct (is_digit c).
Qed.

Lemma icase_space c : in_class true esc_s c = is_space c.
Proof.
  unfold in_class, esc_s. cbn [negated ranges xorb andb].
  fold (is_space c). fold (is_space (swap_case c)).
  destruct (is_space c) eqn:E; auto. cbn [orb].
  destruct (is_space (swap_case c)) eqn:E'; auto.
  apply swap_case_space in E'. congruence.
Qed.

(** ** Reading a match off a pattern *)

Lemma Matches_chr_inv ic cl p m post :
  Matches ic (Chr cl) p m post ->
  exists c, m = [c] /\ in_class ic cl c = true.
Proof. inversion 1; subst; eauto. Qed.

Lemma Matches_rep_inv ic cl min max p m post :
  Matches ic (Rep cl min max) p m post ->
  Forall (fun c => in_class ic cl c = true) m /\
  min <= length m /\ under_max max (length m).
Proof. inversion 1; subst; auto. Qed.

Lemma Matches_seq_inv ic r1 r2 p m post :
  Matches ic (Seq r1 r2) p m post ->
  exists m1 m2,
    m = m1 ++ m2 /\ Matches ic r1 p m1 (m2 ++ post) /\
    Matches ic r2 (prev_after p m1) m2 post.
Proof. inversion 1; subst; eauto. Qed.

Lemma Matches_alt_inv ic r1 r2 p m post :
  Matches ic (Alt r1 r2) p m post ->
  Matches ic r1 p m post \/ Matches ic r2 p m post.
Proof. inversion 1; subst; auto. Qed.

Lemma Matches_wordb_inv ic p m post :
  Matches ic WordB p m post ->
  m = [] /\ xorb (is_word_char p) (is_word_char (hd_error post)) = true.
Proof. inversion 1; subst; auto. Qed.

Lemma Matches_bol_inv ic p m post :
  Matches ic Bol p m post -> m = [] /\ p = None.
Proof. inversion 1; subst; auto. Qed.

Lemma Matches_eol_inv ic p m post :
  Matches ic Eol p m post -> m = [] /\ post = [].
Proof. inversion 1; subst; auto. Qed.

(** ** The shape of a postcode *)

Lemma all_ext (f g : N -> bool) l :
  (forall c, f c = g c) -> Forall (fun c => f c = true) l -> all g l.
Proof.
  intros E H. unfold all. eapply Forall_impl; [|exact H].
  intros c Hc. simpl in Hc. now rewrite <- E.
Qed.

Lemma all_ext_rev (f g : N -> bool) l :
  (forall c, f c = g c) -> all g l -> Forall (fun c => f c = true) l.
Proof.
  intros E H. eapply Forall_impl; [|exact H].
  intros c Hc. simpl in Hc. now rewrite E.
Qed.

Lemma postcode_shape_first m :
  postcode_shape m -> exists c m', m = c :: m' /\ is_letter c = true.
Proof.
  intros (l1 & d1 & x & sp & d2 & l2 & -> & H1 & Hn & _).
  destruct l1 as [|c l1]; simpl in Hn; [lia|].
  inversion H1; subst. simpl. eauto.
Qed.

Lemma postcode_shape_last m :
  postcode_shape m -> exists m' c, m = m' ++ [c] /\ is_letter c = true.
Proof.
  intros (l1 & d1 & x & sp & d2 & l2 & -> & _ & _ & _ & _ & _ & _ & _ & H2
          & Hn).
  destruct l2 as [|a [|b [|? ?]]]; simpl in Hn; try lia.
  inversion H2 as [|? ? _ H2']; subst. inversion H2'; subst.
  exists (l1 ++ d1 :: x ++ sp ++ [d2; a]), b. split; auto.
  rewrite <- !app_assoc. simpl. rewrite <- !app_assoc. reflexivity.
Qed.

Lemma postcode_shape_units m :
  postcode_shape m ->
  all (fun c => is_letter c || is_digit c || is_space c) m.
Proof.
  intros (l1 & d1 & x & sp & d2 & l2 & -> & H1 & _ & Hd1 & Hx & _ & Hsp
          & Hd2 & H2 & _).
  unfold all, is_letter_or_digit in *.
  repeat (apply Forall_app; split) || apply Forall_cons;
    try (eapply Forall_impl; [|eassumption]; simpl; intros c Hc);
    try rewrite Hc; try rewrite Hd1; try rewrite Hd2;
    rewrite ?orb_true_r; auto.
Qed.

Lemma POSTCODE_well_formed : well_formed (pattern POSTCODE_REGEX).
Proof. simpl. unfold min_le_max. simpl. repeat split; auto with arith. Qed.

Lemma xorb_word_first p c w :
  xorb (is_word_char p) (is_word_char (hd_error (c :: w))) = true ->
  is_letter c = true -> is_word_char p = false.
Proof.
  intros H Hc. cbn [hd_error] in H. apply letter_word in Hc.
  rewrite Hc in H. now destruct (is_word_char p).
Qed.

Lemma xorb_word_last c q :
  xorb (is_word_char (Some c)) (is_word_char q) = true ->
  is_letter c = true -> is_word_char q = false.
Proof.
  intros H Hc. apply letter_word in Hc. rewrite Hc in H.
  now destruct (is_word_char q).
Qed.

Lemma POSTCODE_inv p m post :
  Matches true (pattern POSTCODE_REGEX) p m post ->
  postcode_shape m /\ is_word_char p = false /\
  is_word_char (hd_error post) = false.
Proof.
  unfold POSTCODE_REGEX, opt, star. cbn [pattern]. intros H.
  apply Matches_seq_inv in H as (m0 & r0 & -> & Hb & H).
  apply Matches_wordb_inv in Hb as (-> & Hb).
  apply Matches_seq_inv in H as (l1 & r1 & -> & H1 & H).
  apply Matches_rep_inv in H1 as (H1 & Hmin1 & Hmax1).
  apply Matches_seq_inv in H as (u1 & r2 & -> & Hd1 & H).
  apply Matches_chr_inv in Hd1 as (d1 & -> & Hd1).
  apply Matches_seq_inv in H as (x & r3 & -> & Hx & H).
  apply Matches_rep_inv in Hx as (Hx & _ & Hmaxx).
  apply Matches_seq_inv in H as (sp & r4 & -> & Hsp & H).
  apply Matches_rep_inv in Hsp as (Hsp & _ & _).
  apply Matches_seq_inv in H as (u2 & r5 & -> & Hd2 & H).
  apply Matches_chr_inv in Hd2 as (d2 & -> & Hd2).
  apply Matches_seq_inv in H as (l2 & r6 & -> & H2 & He).
  apply Matches_rep_inv in H2 as (H2 & Hmin2 & Hmax2).
  apply Matches_wordb_inv in He as (-> & He).
  apply (all_ext _ _ _ icase_upper) in H1, H2.
  apply (all_ext _ _ _ icase_upper_digit) in Hx.
  apply (all_ext _ _ _ icase_space) in Hsp.
  rewrite icase_digit in Hd1, Hd2.
  cbn [under_max] in *.
  split; [|split].
  - exists l1, d1, x, sp, d2, l2. cbn [app]. rewrite !app_nil_r.
    repeat split; auto; lia.
  - destruct l1 as [|c l1]; cbn [length] in Hmin1; [lia|].
    inversion H1; subst. cbn [app hd_error] in Hb.
    eapply xorb_word_first with (w := []); eauto.
  - destruct l2 as [|a [|b [|? ?]]]; cbn [length] in *; try lia.
    inversion H2 as [|? ? _ H2']; subst. inversion H2'; subst.
    unfold prev_after at 1 in He. cbn [fold_left] in He.
    eapply xorb_word_last; eauto.
Qed.

Lemma M_seq_eq ic r1 r2 p m m1 m2 post :
  m = m1 ++ m2 ->
  Matches ic r1 p m1 (m2 ++ post) ->
  Matches ic r2 (prev_after p m1) m2 post ->
  Matches ic (Seq r1 r2) p m post.
Proof. intros ->. apply M_seq. Qed.

Lemma M_rep_letters p l min max post :
  all is_letter l -> min <= length l -> under_max max (length l) ->
  Matches true (Rep (Class false [upper]) min max) p l post.
Proof.
  intros H ? ?. apply M_rep; auto.
  exact (all_ext_rev _ _ _ icase_upper H).
Qed.

Lemma M_chr_digit p d post :
  is_digit d = true -> Matches true (Chr esc_d) p [d] post.
Proof. intros H. apply M_chr. now rewrite icase_digit. Qed.

Lemma POSTCODE_intro p m post :
  postcode_shape m -> is_word_char p = false ->
  is_word_char (hd_error post) = false ->
  Matches true (pattern POSTCODE_REGEX) p m post.
Proof.
  intros (l1 & d1 & x & sp & d2 & l2 & -> & H1 & Hn1 & Hd1 & Hx & Hnx & Hsp
          & Hd2 & H2 & Hn2) Hp Hpost.
  unfold POSTCODE_REGEX, opt, star. cbn [pattern].
  apply (M_seq_eq _ _ _ _ _ [] (l1 ++ d1 :: x ++ sp ++ d2 :: l2));
    [reflexivity| |].
  { apply M_wordb. destruct l1 as [|c l1]; cbn [length] in Hn1; [lia|].
    inversion H1; subst. cbn [app hd_error]. rewrite Hp.
    now rewrite letter_word. }
  apply (M_seq_eq _ _ _ _ _ l1 (d1 :: x ++ sp ++ d2 :: l2));
    [reflexivity| |].
  { apply M_rep_letters; cbn [under_max]; auto; lia. }
  apply (M_seq_eq _ _ _ _ _ [d1] (x ++ sp ++ d2 :: l2)); [reflexivity| |].
  { now apply M_chr_digit. }
  apply (M_seq_eq _ _ _ _ _ x (sp ++ d2 :: l2)); [reflexivity| |].
  { apply M_rep; cbn [under_max]; auto with arith.
    exact (all_ext_rev _ _ _ icase_upper_digit Hx). }
  apply (M_seq_eq _ _ _ _ _ sp (d2 :: l2)); [reflexivity| |].
  { apply M_rep; cbn [under_max]; auto with arith.
    exact (all_ext_rev _ _ _ icase_space Hsp). }
  apply (M_seq_eq _ _ _ _ _ [d2] l2); [reflexivity| |].
  { now apply M_chr_digit. }
  apply (M_seq_eq _ _ _ _ _ l2 []); [now rewrite app_nil_r| |].
  { apply M_rep_letters; cbn [under_max]; auto; lia. }
  apply M_wordb.
  destruct l2 as [|a [|b [|? ?]]]; cbn [length] in Hn2; try lia.
  inversion H2 as [|? ? _ H2']; subst. inversion H2'; subst.
  unfold prev_after at 1. cbn [fold_left]. rewrite Hpost.
  now rewrite letter_word.
Qed.

(** A match of the postcode pattern depends on its context only through
    the two word boundaries. *)
Lemma POSTCODE_context p m post p' post' :
  Matches true (pattern POSTCODE_REGEX) p m post ->
  is_word_char p' = false -> is_word_char (hd_error post') = false ->
  Matches true (pattern POSTCODE_REGEX) p' m post'.
Proof.
  intros H Hp Hpost. apply POSTCODE_inv in H as (Hs & _ & _).
  now apply POSTCODE_intro.
Qed.

(** *** A postcode from a given start has one end *)

Lemma span_unique (f : N -> bool) l : forall l' d d' r r',
  all f l -> f d = false -> all f l' -> f d' = false ->
  l ++ d :: r = l' ++ d' :: r' -> l = l' /\ d = d' /\ r = r'.
Proof.
  induction l as [|c l IH]; intros l' d d' r r' Hl Hd Hl' Hd' E.
  - destruct l' as [|c' l']; simpl in E.
    + now injection E as -> ->.
    + injection E as -> _. inversion Hl'; subst. congruence.
  - inversion Hl; subst.
    destruct l' as [|c' l']; simpl in E.
    + injection E as -> _. congruence.
    + injection E as -> E. inversion Hl'; subst.
      destruct (IH _ _ _ _ _ H2 Hd H4 Hd' E) as (-> & -> & ->). auto.
Qed.

Lemma digit_not_letter c : is_digit c = true -> is_letter c = false.
Proof.
  intros H. destruct (is_letter c) eqn:E; auto.
  apply letter_not_digit in E. congruence.
Qed.

Lemma letter_or_digit_not_space c :
  is_letter_or_digit c = true -> is_space c = false.
Proof.
  unfold is_letter_or_digit. intros H. apply orb_true_iff in H as [H|H].
  - now apply letter_not_space.
  - now apply digit_not_space.
Qed.

Lemma two_letters_tail (l2 l2' post post' : jsstring) :
  length l2 = 2 -> length l2' = 2 -> l2 ++ post = l2' ++ post' -> l2 = l2'.
Proof.
  intros H H' E.
  destruct l2 as [|a [|b [|? ?]]]; try discriminate.
  destruct l2' as [|a' [|b' [|? ?]]]; try discriminate.
  now injection E as -> -> _.
Qed.

Lemma spaces_tail_unique sp d2 l2 post sp' d2' l2' post' :
  all is_space sp -> is_digit d2 = true -> length l2 = 2 ->
  all is_space sp' -> is_digit d2' = true -> length l2' = 2 ->
  sp ++ d2 :: l2 ++ post = sp' ++ d2' :: l2' ++ post' ->
  sp = sp' /\ d2 = d2' /\ l2 = l2'.
Proof.
  intros Hsp Hd2 Hn Hsp' Hd2' Hn' E.
  destruct (span_unique is_space _ _ _ _ _ _ Hsp (digit_not_space _ Hd2)
              Hsp' (digit_not_space _ Hd2') E) as (-> & -> & E').
  repeat split. eapply two_letters_tail; eauto.
Qed.

Lemma optional_absent sp d2 l2 post c sp' d2' l2' post' :
  all is_space sp -> is_digit d2 = true -> all is_letter l2 ->
  length l2 = 2 -> is_letter_or_digit c = true -> all is_space sp' ->
  is_digit d2' = true ->
  sp ++ d2 :: l2 ++ post = c :: sp' ++ d2' :: l2' ++ post' -> False.
Proof.
  intros Hsp Hd2 Hl2 Hn Hc Hsp' Hd2' E.
  destruct sp as [|s sp]; simpl in E.
  - injection E as <- E.
    destruct l2 as [|a [|b [|? ?]]]; try discriminate.
    inversion Hl2; subst.
    destruct sp' as [|s' sp']; simpl in E; injection E as -> _.
    + apply digit_not_letter in Hd2'. congruence.
    + inversion Hsp'; subst.
      match goal with
      | H : is_letter s' = true |- _ => apply letter_not_space in H
      end. congruence.
  - injection E as <- _. inversion Hsp; subst.
    apply letter_or_digit_not_space in Hc. congruence.
Qed.

Lemma postcode_shape_unique m m' post post' :
  postcode_shape m -> postcode_shape m' -> m ++ post = m' ++ post' ->
  m = m'.
Proof.
  intros (l1 & d1 & x & sp & d2 & l2 & -> & H1 & Hn1 & Hd1 & Hx & Hnx & Hsp
          & Hd2 & H2 & Hn2)
         (l1' & d1' & x' & sp' & d2' & l2' & -> & H1' & Hn1' & Hd1' & Hx'
          & Hnx' & Hsp' & Hd2' & H2' & Hn2') E.
  rewrite <- !app_assoc in E. cbn [app] in E.
  rewrite <- !app_assoc in E. cbn [app] in E.
  destruct (span_unique is_letter _ _ _ _ _ _ H1 (digit_not_letter _ Hd1)
              H1' (digit_not_letter _ Hd1') E) as (-> & -> & E').
  f_equal. f_equal.
  destruct x as [|c [|? ?]]; cbn [length] in Hnx; try lia;
    destruct x' as [|c' [|? ?]]; cbn [length] in Hnx'; try lia;
    cbn [app] in E'.
  - destruct (spaces_tail_unique _ _ _ _ _ _ _ _ Hsp Hd2 Hn2 Hsp' Hd2' Hn2'
                E') as (-> & -> & ->). reflexivity.
  - exfalso. inversion Hx'; subst.
    eapply (optional_absent sp d2 l2 post c' sp' d2' l2' post'); eauto.
  - exfalso. inversion Hx; subst. symmetry in E'.
    eapply (optional_absent sp' d2' l2' post' c sp d2 l2 post); eauto.
  - injection E' as -> E'.
    destruct (spaces_tail_unique _ _ _ _ _ _ _ _ Hsp Hd2 Hn2 Hsp' Hd2' Hn2'
                E') as (-> & -> & ->). reflexivity.
Qed.

(** ** The backward scan *)

Lemma subsequence_refl {A : Type} (l : list A) : subsequence l l.
Proof.
  induction l; [apply subsequence_nil|now apply subsequence_take].
Qed.

Lemma subsequence_filter {A : Type} (f : A -> bool) (l : list A) :
  subsequence (filter f l) l.
Proof.
  induction l as [|x l IH]; simpl; [apply subsequence_nil|].
  destruct (f x); [now apply subsequence_take|now apply subsequence_skip].
Qed.

Lemma subsequence_app_l {A : Type} (l0 l1 l2 : list A) :
  subsequence l1 l2 -> subsequence l1 (l0 ++ l2).
Proof.
  induction l0; simpl; auto. intros. apply subsequence_skip; auto.
Qed.

Lemma subsequence_trans {A : Type} (l1 l2 l3 : list A) :
  subsequence l1 l2 -> subsequence l2 l3 -> subsequence l1 l3.
Proof.
  intros H12 H23. revert l1 H12.
  induction H23 as [l|x l2 l3 _ IH|x l2 l3 _ IH]; intros l1 H12.
  - inversion H12; subst. apply subsequence_nil.
  - apply subsequence_skip; auto.
  - inversion H12; subst.
    + apply subsequence_nil.
    + apply subsequence_skip; auto.
    + apply subsequence_take; auto.
Qed.

Lemma window_S lines i k :
  k <= i -> window lines (S i) (S k) = window lines i k ++ [nth i lines []].
Proof.
  intros Hk. unfold window.
  replace (S i - S k) with (i - k) by lia.
  rewrite seq_S, map_app. simpl. do 3 f_equal. lia.
Qed.

Lemma window_firstn_skipn lines n k :
  k <= n -> n <= length lines ->
  window lines n k = firstn k (skipn (n - k) lines).
Proof.
  intros Hk Hn. unfold window.
  apply nth_ext with (d := []) (d' := []).
  - rewrite length_map, length_seq, length_firstn, length_skipn. lia.
  - intros j Hj. rewrite length_map, length_seq in Hj.
    rewrite (nth_indep _ [] (nth 0 lines [])) by
      (now rewrite length_map, length_seq).
    rewrite (map_nth (fun j => nth j lines [])), seq_nth by auto.
    rewrite nth_firstn.
    destruct (Nat.ltb_spec j k); [|lia].
    now rewrite nth_skipn.
Qed.

Section Scan.

Variable toUpperCase : jsstring -> jsstring.

Local Abbreviation accepted := (accepted toUpperCase).
Local Abbreviation kept := (kept toUpperCase).

Lemma kept_S lines i k :
  k <= i ->
  kept lines (S i) (S k) =
  kept lines i k
  ++ (if accepted (nth i lines []) then [nth i lines []] else []).
Proof.
  intros Hk. unfold kept. rewrite window_S by auto.
  now rewrite filter_app.
Qed.

Lemma kept_length_S lines n k :
  S k <= n -> length (kept lines n (S k)) <= S (length (kept lines n k)).
Proof.
  intros Hk. unfold kept, window.
  replace (n - k) with (S (n - S k)) by lia. cbn [seq map filter].
  destruct (accepted _); simpl; lia.
Qed.

(** What the loop has done when it is left: it has read the [k] lines
    before index [n], latest first, kept the accepted ones in the order of
    the array, and [k] is the first count at which the start of the array
    is reached, four lines are held or the budget is used up. *)
Lemma walk_spec lines n : forall st,
  exists k,
    k <= n /\
    inspected (walk toUpperCase lines n st) = seq (n - k) k ++ inspected st /\
    addressLines (walk toUpperCase lines n st) =
      kept lines n k ++ addressLines st /\
    linesToCheck (walk toUpperCase lines n st) = linesToCheck st - k /\
    (k = n \/ 4 <= length (kept lines n k ++ addressLines st)
     \/ linesToCheck st <= k) /\
    forall k', k' < k ->
      length (kept lines n k' ++ addressLines st) < 4 /\
      k' < linesToCheck st.
Proof.
  induction n as [|i IH]; intros st.
  - exists 0. simpl. repeat split; auto; lia.
  - cbn [walk].
    destruct (length (addressLines st) <? 4) eqn:Hlen;
      [destruct (0 <? linesToCheck st) eqn:Hbud|]; cbn [andb].
    2:{ apply Nat.ltb_ge in Hbud. exists 0.
        rewrite Nat.sub_0_r. simpl. repeat split; auto; lia. }
    2:{ apply Nat.ltb_ge in Hlen. exists 0.
        rewrite Nat.sub_0_r. simpl. repeat split; auto; lia. }
    apply Nat.ltb_lt in Hlen, Hbud.
    set (line := nth i lines []).
    assert (Hstep : forall acc',
      acc' = (if accepted line then [line] else []) ++ addressLines st ->
      exists k,
        k <= S i /\
        inspected (walk toUpperCase lines i
                     (mkScan acc' (pred (linesToCheck st))
                             (i :: inspected st))) =
          seq (S i - k) k ++ inspected st /\
        addressLines (walk toUpperCase lines i
                        (mkScan acc' (pred (linesToCheck st))
                                (i :: inspected st))) =
          kept lines (S i) k ++ addressLines st /\
        linesToCheck (walk toUpperCase lines i
                        (mkScan acc' (pred (linesToCheck st))
                                (i :: inspected st))) =
          linesToCheck st - k /\
        (k = S i \/ 4 <= length (kept lines (S i) k ++ addressLines st)
         \/ linesToCheck st <= k) /\
        forall k', k' < k ->
          length (kept lines (S i) k' ++ addressLines st) < 4 /\
          k' < linesToCheck st).
    { intros acc' Hacc.
      destruct (IH (mkScan acc' (pred (linesToCheck st)) (i :: inspected st)))
        as (k & Hk & Hins & Hadr & Hbudget & Hstop & Hmin).
      cbn [inspected addressLines linesToCheck] in *.
      assert (Hkept : kept lines i k ++ acc' =
                      kept lines (S i) (S k) ++ addressLines st).
      { rewrite kept_S by auto. fold line.
        now rewrite <- app_assoc, Hacc. }
      exists (S k). repeat split.
      - lia.
      - rewrite Hins. replace (S i - S k) with (i - k) by lia.
        rewrite seq_S, <- app_assoc. simpl. do 3 f_equal. lia.
      - now rewrite Hadr.
      - lia.
      - rewrite <- Hkept. lia.
      - destruct k' as [|k'].
        + unfold kept, window. simpl. lia.
        + assert (Hk' : k' < k) by lia.
          destruct (Hmin _ Hk') as [Hm _].
          rewrite kept_S by lia. fold line.
          rewrite <- app_assoc, <- Hacc. exact Hm.
      - destruct k' as [|k']; [lia|].
        assert (Hk' : k' < k) by lia.
        destruct (Hmin _ Hk') as [_ Hm]. lia. }
    unfold accepted in Hstep. fold line.
    destruct (isPackageMetadata toUpperCase line); cbn [negb andb] in Hstep.
    { apply Hstep. reflexivity. }
    destruct (isValidAddressLine line); cbn [negb] in *.
    2:{ apply Hstep. reflexivity. }
    cbn [addressLines linesToCheck inspected decrement].
    destruct (4 <=? length (addressLines st)) eqn:Hfour.
    { apply Nat.leb_le in Hfour. lia. }
    apply Hstep. reflexivity.
Qed.

Lemma walk_start lines n :
  exists k,
    k <= n /\ k <= 8 /\
    inspected (walk toUpperCase lines n (scan_start n)) = seq (n - k) k /\
    addressLines (walk toUpperCase lines n (scan_start n)) = kept lines n k /\
    (k = n \/ length (kept lines n k) = 4 \/ k = 8) /\
    length (kept lines n k) <= 4 /\
    forall k', k' < k -> length (kept lines n k') < 4.
Proof.
  destruct (walk_spec lines n (scan_start n))
    as (k & Hk & Hins & Hadr & _ & Hstop & Hmin).
  cbn [scan_start inspected addressLines linesToCheck] in *.
  rewrite app_nil_r in *.
  assert (Hk8 : k <= 8).
  { destruct k as [|k]; [lia|].
    destruct (Hmin k) as [_ H]; lia. }
  assert (Hlen : length (kept lines n k) <= 4).
  { destruct k as [|k]; [simpl; lia|].
    destruct (Hmin k) as [H _]; [lia|]. rewrite app_nil_r in H.
    pose proof (kept_length_S lines n k). lia. }
  exists k. repeat split; auto.
  - lia.
  - intros k' Hk'. destruct (Hmin _ Hk') as [H _].
    now rewrite app_nil_r in H.
Qed.

End Scan.

(** ** Lines *)

Lemma split_cons sep c s :
  split sep (c :: s) =
  if N.eqb c sep then [] :: split sep s
  else match split sep s with
       | piece :: pieces => (c :: piece) :: pieces
       | [] => [[c]]
       end.
Proof. reflexivity. Qed.

Lemma join_cons sep x y l :
  join sep (x :: y :: l) = x ++ sep ++ join sep (y :: l).
Proof. reflexivity. Qed.

Lemma split_not_nil sep s : split sep s <> [].
Proof.
  destruct s as [|c s]; [discriminate|]. rewrite split_cons.
  destruct (N.eqb c sep); [discriminate|].
  destruct (split sep s); discriminate.
Qed.

Lemma join_split sep s : join [sep] (split sep s) = s.
Proof.
  induction s as [|c s IH]; [reflexivity|]. rewrite split_cons.
  pose proof (split_not_nil sep s) as Hne.
  destruct (split sep s) as [|p ps]; [congruence|].
  destruct (N.eqb_spec c sep) as [->|Hc].
  - rewrite join_cons, IH. reflexivity.
  - destruct ps as [|q ps].
    + simpl in *. now rewrite IH.
    + rewrite join_cons. rewrite join_cons in IH. rewrite <- IH.
      reflexivity.
Qed.

Lemma split_no_sep sep s : Forall (fun p => ~ In sep p) (split sep s).
Proof.
  induction s as [|c s IH]; [repeat constructor; auto|]. rewrite split_cons.
  destruct (N.eqb_spec c sep) as [->|Hc].
  - constructor; auto.
  - destruct (split sep s) as [|p ps].
    + repeat constructor. simpl. intuition congruence.
    + inversion IH; subst. constructor; auto.
      simpl. intuition congruence.
Qed.

Lemma split_without sep s : ~ In sep s -> split sep s = [s].
Proof.
  induction s as [|c s IH]; intros H; [reflexivity|]. rewrite split_cons.
  destruct (N.eqb_spec c sep) as [->|Hc].
  - exfalso. apply H. now left.
  - rewrite IH; auto. intros Hin. apply H. now right.
Qed.

Lemma in_join (sep : jsstring) l x :
  In x l -> exists a b, join sep l = a ++ x ++ b.
Proof.
  induction l as [|y l IH]; intros H; [destruct H|].
  destruct l as [|z l].
  - destruct H as [->|[]]. exists [], []. simpl. now rewrite app_nil_r.
  - rewrite join_cons. destruct H as [->|H].
    + exists [], (sep ++ join sep (z :: l)). reflexivity.
    + destruct (IH H) as (a & b & ->).
      exists (y ++ sep ++ a), b. now rewrite <- !app_assoc.
Qed.

Lemma drop_space_suffix s : exists a, s = a ++ drop_space s.
Proof.
  induction s as [|c s [a IH]]; [now exists []|]. simpl.
  destruct (is_space c).
  - exists (c :: a). simpl. now rewrite <- IH.
  - now exists [].
Qed.

Lemma drop_space_first s : no_space_first (drop_space s).
Proof.
  induction s as [|c s IH]; intros d r H; [discriminate|]. simpl in H.
  destruct (is_space c) eqn:Hc.
  - eapply IH; eauto.
  - now injection H as <- _.
Qed.

Lemma drop_space_id s : no_space_first s -> drop_space s = s.
Proof.
  intros H. destruct s as [|c s]; [reflexivity|]. simpl.
  now rewrite (H c s eq_refl).
Qed.

Lemma trim_sub s : exists a b, s = a ++ trim s ++ b.
Proof.
  unfold trim. destruct (drop_space_suffix s) as [a Ha].
  destruct (drop_space_suffix (rev (drop_space s))) as [b Hb].
  exists a, (rev b). rewrite <- rev_app_distr, <- Hb, rev_involutive.
  exact Ha.
Qed.

Lemma trim_last s : no_space_last (trim s).
Proof.
  unfold trim. intros r c H.
  apply (f_equal (@rev N)) in H. rewrite rev_involutive, rev_app_distr in H.
  simpl in H. eapply drop_space_first; eauto.
Qed.

Lemma trim_first s : no_space_first (trim s).
Proof.
  unfold trim. intros c r H.
  destruct (drop_space_suffix (rev (drop_space s))) as [b Hb].
  apply (f_equal (@rev N)) in Hb.
  rewrite rev_involutive, rev_app_distr, H in Hb.
  simpl in Hb. eapply drop_space_first; eauto.
Qed.

Lemma no_space_last_rev s : no_space_last s -> no_space_first (rev s).
Proof.
  intros H c r E. apply (H (rev r) c).
  apply (f_equal (@rev N)) in E. rewrite rev_involutive in E.
  now rewrite E.
Qed.

Lemma trim_id s : no_space_first s -> no_space_last s -> trim s = s.
Proof.
  intros Hf Hl. unfold trim. rewrite (drop_space_id s Hf).
  rewrite (drop_space_id (rev s) (no_space_last_rev s Hl)).
  apply rev_involutive.
Qed.

Lemma in_sub_in (x : N) a s b : In x s -> In x (a ++ s ++ b).
Proof. intros H. apply in_or_app. right. apply in_or_app. now left. Qed.

(** What line 26 leaves: pieces of the text, without a line feed, not
    empty, with no white space at either end. *)
Lemma lines_of_spec text line :
  In line (lines_of text) ->
  line <> [] /\ ~ In newline line /\ no_space_first line /\
  no_space_last line /\ exists a b, text = a ++ line ++ b.
Proof.
  unfold lines_of. intros H. apply filter_In in H as [H Hlen].
  apply in_map_iff in H as (piece & <- & Hp).
  apply Nat.ltb_lt in Hlen.
  pose proof (split_no_sep newline text) as Hno.
  rewrite Forall_forall in Hno. specialize (Hno _ Hp).
  destruct (trim_sub piece) as (a & b & Ha).
  repeat split.
  - intros E. rewrite E in Hlen. simpl in Hlen. lia.
  - intros Hin. apply Hno. rewrite Ha. now apply in_sub_in.
  - apply trim_first.
  - apply trim_last.
  - destruct (in_join [newline] _ _ Hp) as (a' & b' & E).
    rewrite join_split in E. exists (a' ++ a), (b ++ b').
    rewrite E, Ha at 1. now rewrite <- !app_assoc.
Qed.

(** ** The postcode format and the pattern of line 18 *)

Lemma FORMAT_inv p m post :
  Matches true POSTCODE_FORMAT p m post -> postcode_shape m.
Proof.
  unfold POSTCODE_FORMAT, opt, star. intros H.
  apply Matches_seq_inv in H as (l1 & r1 & -> & H1 & H).
  apply Matches_rep_inv in H1 as (H1 & Hmin1 & Hmax1).
  apply Matches_seq_inv in H as (u1 & r2 & -> & Hd1 & H).
  apply Matches_chr_inv in Hd1 as (d1 & -> & Hd1).
  apply Matches_seq_inv in H as (x & r3 & -> & Hx & H).
  apply Matches_rep_inv in Hx as (Hx & _ & Hmaxx).
  apply Matches_seq_inv in H as (sp & r4 & -> & Hsp & H).
  apply Matches_rep_inv in Hsp as (Hsp & _ & _).
  apply Matches_seq_inv in H as (u2 & l2 & -> & Hd2 & H2).
  apply Matches_chr_inv in Hd2 as (d2 & -> & Hd2).
  apply Matches_rep_inv in H2 as (H2 & Hmin2 & Hmax2).
  apply (all_ext _ _ _ icase_upper) in H1, H2.
  apply (all_ext _ _ _ icase_upper_digit) in Hx.
  apply (all_ext _ _ _ icase_space) in Hsp.
  rewrite icase_digit in Hd1, Hd2.
  cbn [under_max] in *.
  exists l1, d1, x, sp, d2, l2. cbn [app]. repeat split; auto; lia.
Qed.

Lemma FORMAT_intro p m post :
  postcode_shape m -> Matches true POSTCODE_FORMAT p m post.
Proof.
  intros (l1 & d1 & x & sp & d2 & l2 & -> & H1 & Hn1 & Hd1 & Hx & Hnx & Hsp
          & Hd2 & H2 & Hn2).
  unfold POSTCODE_FORMAT, opt, star.
  apply (M_seq_eq _ _ _ _ _ l1 (d1 :: x ++ sp ++ d2 :: l2));
    [reflexivity| |].
  { apply M_rep_letters; cbn [under_max]; auto; lia. }
  apply (M_seq_eq _ _ _ _ _ [d1] (x ++ sp ++ d2 :: l2)); [reflexivity| |].
  { now apply M_chr_digit. }
  apply (M_seq_eq _ _ _ _ _ x (sp ++ d2 :: l2)); [reflexivity| |].
  { apply M_rep; cbn [under_max]; auto with arith.
    exact (all_ext_rev _ _ _ icase_upper_digit Hx). }
  apply (M_seq_eq _ _ _ _ _ sp (d2 :: l2)); [reflexivity| |].
  { apply M_rep; cbn [under_max]; auto with arith.
    exact (all_ext_rev _ _ _ icase_space Hsp). }
  apply (M_seq_eq _ _ _ _ _ [d2] l2); [reflexivity| |].
  { now apply M_chr_digit. }
  apply M_rep_letters; cbn [under_max]; auto; lia.
Qed.

Lemma prev_after_none pre : prev_after None pre = None -> pre = [].
Proof.
  destruct pre as [|c pre] using rev_ind; auto.
  rewrite prev_after_last. discriminate.
Qed.

Lemma has_postcode_format_iff w :
  has_postcode_format w = true <-> postcode_shape w.
Proof.
  unfold has_postcode_format. rewrite regex_test_true.
  2:{ simpl. unfold min_le_max. simpl. repeat split; auto with arith. }
  unfold match_in. cbn [pattern ignoreCase]. split.
  - intros (pre & m & post & -> & H).
    apply Matches_seq_inv in H as (m0 & r0 & -> & Hb & H).
    apply Matches_bol_inv in Hb as (-> & Hb).
    apply Matches_seq_inv in H as (m1 & r1 & -> & H & He).
    apply Matches_eol_inv in He as (-> & ->).
    apply prev_after_none in Hb as ->.
    apply FORMAT_inv in H. now rewrite !app_nil_r.
  - intros H. exists [], w, []. split; [now rewrite app_nil_r|].
    apply (M_seq_eq _ _ _ _ _ [] w); [reflexivity|apply M_bol|].
    apply (M_seq_eq _ _ _ _ _ w []); [now rewrite app_nil_r| |apply M_eol].
    now apply FORMAT_intro.
Qed.

(** *** Substrings *)

Lemma prev_unit_app pre rest :
  prev_unit (pre ++ rest) (length pre) = prev_after None pre.
Proof.
  destruct pre as [|c pre _] using rev_ind; [reflexivity|].
  rewrite prev_after_last.
  replace (length (pre ++ [c])) with (S (length pre))
    by (rewrite length_app; simpl; lia).
  cbn [prev_unit]. rewrite <- app_assoc, nth_error_app2 by lia.
  now rewrite Nat.sub_diag.
Qed.

Lemma nth_error_after (pre m post : jsstring) :
  nth_error (pre ++ m ++ post) (length pre + length m) = hd_error post.
Proof.
  rewrite app_assoc, <- length_app.
  rewrite nth_error_app2, Nat.sub_diag by auto. now destruct post.
Qed.

Lemma substring_split b e (s : jsstring) :
  b <= e -> e <= length s ->
  exists pre post,
    s = pre ++ substring b e s ++ post /\ length pre = b /\
    length pre + length (substring b e s) = e.
Proof.
  intros Hb He. exists (firstn b s), (skipn e s). unfold substring.
  assert (Hl : length (firstn b s) = b) by (rewrite length_firstn; lia).
  assert (Hm : length (firstn (e - b) (skipn b s)) = e - b).
  { rewrite length_firstn, length_skipn. lia. }
  repeat split; auto; [|lia].
  rewrite <- (firstn_skipn b s) at 1. f_equal.
  rewrite <- (firstn_skipn (e - b) (skipn b s)) at 1. f_equal.
  rewrite skipn_skipn. f_equal. lia.
Qed.

Lemma in_substrings pre m post : In m (substrings (pre ++ m ++ post)).
Proof.
  unfold substrings. apply in_flat_map. exists (length pre). split.
  - apply in_seq. rewrite !length_app. lia.
  - apply in_map_iff. exists (length pre + length m). split.
    + apply substring_app.
    + apply in_seq. rewrite !length_app. lia.
Qed.

Lemma in_bounded_postcodes line w :
  In w (bounded_postcodes line) <->
  exists pre post,
    line = pre ++ w ++ post /\ postcode_shape w /\
    is_word_char (prev_after None pre) = false /\
    is_word_char (hd_error post) = false.
Proof.
  unfold bounded_postcodes. rewrite in_flat_map. split.
  - intros (b & Hb & H). apply in_flat_map in H as (e & He & H).
    apply in_seq in Hb, He.
    destruct (has_postcode_format _) eqn:Hf; [|destruct H].
    destruct (word_bounded line b e) eqn:Hw; [|destruct H].
    destruct H as [<-|[]].
    destruct (substring_split b e line) as (pre & post & E & Hpre & Hlen);
      try lia.
    set (w := substring b e line) in *. clearbody w.
    exists pre, post. split; [exact E|].
    split; [now apply has_postcode_format_iff|].
    unfold word_bounded in Hw. apply andb_true_iff in Hw as [Hw1 Hw2].
    apply negb_true_iff in Hw1, Hw2.
    rewrite E, <- Hpre, prev_unit_app in Hw1.
    rewrite E, <- Hlen, nth_error_after in Hw2. auto.
  - intros (pre & post & -> & Hs & Hp & Hq).
    exists (length pre). split; [apply in_seq; rewrite !length_app; lia|].
    apply in_flat_map. exists (length pre + length w).
    split; [apply in_seq; rewrite !length_app; lia|].
    rewrite substring_app.
    apply has_postcode_format_iff in Hs. rewrite Hs.
    unfold word_bounded.
    rewrite prev_unit_app, nth_error_after, Hp, Hq. now left.
Qed.

(** A match of the pattern of line 18 is a substring with the postcode
    format between two word boundaries, and conversely. *)
Lemma POSTCODE_match_iff pre m post :
  match_in POSTCODE_REGEX pre m post <->
  postcode_shape m /\ is_word_char (prev_after None pre) = false /\
  is_word_char (hd_error post) = false.
Proof.
  unfold match_in. split.
  - apply POSTCODE_inv.
  - intros (H1 & H2 & H3). now apply POSTCODE_intro.
Qed.

Lemma POSTCODE_test_iff line :
  regex_test POSTCODE_REGEX line = true <-> bounded_postcodes line <> [].
Proof.
  rewrite (regex_test_true _ _ POSTCODE_well_formed). split.
  - intros (pre & m & post & E & H). apply POSTCODE_match_iff in H.
    assert (Hin : In m (bounded_postcodes line)).
    { apply in_bounded_postcodes. exists pre, post. tauto. }
    intros Hnil. rewrite Hnil in Hin. destruct Hin.
  - intros H. destruct (bounded_postcodes line) as [|w l] eqn:E;
      [congruence|].
    assert (Hin : In w (bounded_postcodes line)) by (rewrite E; now left).
    apply in_bounded_postcodes in Hin as (pre & post & El & Hs).
    exists pre, w, post. split; auto. now apply POSTCODE_match_iff.
Qed.

(** ** The postcode locator *)

Lemma find_postcode_some lines : forall j i,
  find_postcode lines j = Some i ->
  exists k,
    i = j + k /\ k < length lines /\
    regex_test POSTCODE_REGEX (nth k lines []) = true /\
    forall k', k' < k ->
      regex_test POSTCODE_REGEX (nth k' lines []) = false.
Proof.
  induction lines as [|line lines IH]; intros j i H; [discriminate|].
  simpl in H. destruct (regex_test POSTCODE_REGEX line) eqn:Ht.
  - injection H as <-. exists 0. simpl. repeat split; auto; lia.
  - destruct (IH _ _ H) as (k & -> & Hk & Hk1 & Hk2).
    exists (S k). simpl. repeat split; auto; try lia.
    intros [|k'] Hlt; auto. apply Hk2. lia.
Qed.

Lemma find_postcode_none lines j :
  find_postcode lines j = None <->
  forall line, In line lines -> regex_test POSTCODE_REGEX line = false.
Proof.
  revert j. induction lines as [|line lines IH]; intros j; simpl.
  - split; auto. intros _ ? [].
  - destruct (regex_test POSTCODE_REGEX line) eqn:Ht.
    + split; [discriminate|]. intros H.
      rewrite (H line (or_introl eq_refl)) in Ht. discriminate.
    + rewrite IH. split.
      * intros H l [<-|Hl]; auto.
      * intros H l Hl. apply H. now right.
Qed.

Lemma find_postcode_start lines i :
  find_postcode lines 0 = Some i ->
  i < length lines /\
  regex_test POSTCODE_REGEX (nth i lines []) = true /\
  forall k, k < i -> regex_test POSTCODE_REGEX (nth k lines []) = false.
Proof.
  intros H. destruct (find_postcode_some _ _ _ H) as (k & -> & H1 & H2 & H3).
  auto.
Qed.

(** What line 43 finds in a line that passed the test of line 31. *)
Lemma postcode_of_match line :
  regex_test POSTCODE_REGEX line = true ->
  exists b e pre post,
    regex_exec POSTCODE_REGEX line = Some (b, e) /\
    string_match line POSTCODE_REGEX = Some (substring b e line) /\
    postcode_of line = substring b e line /\
    line = pre ++ postcode_of line ++ post /\
    b = length pre /\ e = b + length (postcode_of line) /\
    match_in POSTCODE_REGEX pre (postcode_of line) post /\
    forall pre' m' post', line = pre' ++ m' ++ post' ->
      length pre' < length pre -> ~ match_in POSTCODE_REGEX pre' m' post'.
Proof.
  unfold regex_test, postcode_of, string_match.
  destruct (regex_exec POSTCODE_REGEX line) as [[b e]|] eqn:H;
    [intros _|discriminate].
  destruct (regex_exec_some _ _ _ _ POSTCODE_well_formed H)
    as (pre & m & post & E & Hb & He & Hsub & HM & Hfirst).
  exists b, e, pre, post. rewrite Hsub. repeat split; auto.
Qed.

(** ** Joined lines and their last component *)

Lemma join_snoc sep l x : join sep (l ++ [x]) = join_prefix sep l ++ x.
Proof.
  induction l as [|y l IH]; [reflexivity|].
  destruct l as [|z l].
  - unfold join_prefix. cbn [app map concat join].
    now rewrite app_nil_r, <- app_assoc.
  - change ((y :: z :: l) ++ [x]) with (y :: z :: (l ++ [x])).
    rewrite join_cons.
    change (z :: l ++ [x]) with ((z :: l) ++ [x]). rewrite IH.
    unfold join_prefix. simpl. now rewrite <- !app_assoc.
Qed.

Lemma join_prefix_snoc sep l x :
  join_prefix sep (l ++ [x]) = join_prefix sep l ++ x ++ sep.
Proof.
  unfold join_prefix. rewrite map_app, concat_app. simpl.
  now rewrite app_nil_r.
Qed.

Lemma until_space_comma_clean l :
  Forall (fun c => c <> comma) l -> until_space_comma l = l.
Proof.
  induction l as [|a l IH]; intros H; [reflexivity|].
  inversion H as [|? ? Ha Hl]; subst. cbn [until_space_comma].
  destruct l as [|b l]; [reflexivity|].
  inversion Hl; subst.
  destruct (N.eqb_spec b (ch ",")) as [E|E]; [now elim H2|].
  rewrite andb_false_r. f_equal. now apply IH.
Qed.

Lemma until_space_comma_stop l rest :
  Forall (fun c => c <> comma) l ->
  until_space_comma (l ++ ch " " :: ch "," :: rest) = l.
Proof.
  induction l as [|a l IH]; intros H; [reflexivity|].
  inversion H as [|? ? Ha Hl]; subst.
  change ((a :: l) ++ ch " " :: ch "," :: rest)
    with (a :: (l ++ ch " " :: ch "," :: rest)).
  cbn [until_space_comma].
  destruct (l ++ ch " " :: ch "," :: rest) as [|b t] eqn:E.
  - destruct l; discriminate.
  - assert (Hb : b <> comma).
    { destruct l as [|b' l]; simpl in E; injection E as <- _.
      - discriminate.
      - now inversion Hl. }
    destruct (N.eqb_spec b (ch ",")) as [Eb|Eb]; [now elim Hb|].
    rewrite andb_false_r. f_equal. now apply IH.
Qed.

Lemma last_component_join l x :
  Forall (fun c => c <> comma) x ->
  last_component (join comma_space (l ++ [x])) = x.
Proof.
  intros H. rewrite join_snoc. unfold last_component.
  rewrite rev_app_distr.
  assert (Hr : Forall (fun c => c <> comma) (rev x)).
  { apply Forall_forall. intros c Hc. apply in_rev in Hc.
    rewrite Forall_forall in H. auto. }
  destruct l as [|y l _] using rev_ind.
  - simpl. rewrite app_nil_r, until_space_comma_clean by auto.
    apply rev_involutive.
  - rewrite join_prefix_snoc, !rev_app_distr.
    change (rev comma_space) with [ch " "; ch ","].
    cbn [app]. rewrite until_space_comma_stop by auto.
    apply rev_involutive.
Qed.

Lemma postcode_shape_no_comma m :
  postcode_shape m -> Forall (fun c => c <> comma) m.
Proof.
  intros H. apply postcode_shape_units in H.
  eapply Forall_impl; [|exact H]. intros c Hc ->.
  vm_compute in Hc. discriminate.
Qed.

(** ** The claims *)

Lemma no_substring_no_line text :
  postcode_substrings text = [] -> find_postcode (lines_of text) 0 = None.
Proof.
  intros Hnone. apply find_postcode_none. intros line Hin.
  destruct (regex_test POSTCODE_REGEX line) eqn:Ht; auto. exfalso.
  apply (regex_test_true _ _ POSTCODE_well_formed) in Ht
    as (pre & m & post & -> & HM).
  apply POSTCODE_match_iff in HM as (Hs & _).
  apply lines_of_spec in Hin as (_ & _ & _ & _ & a & b & E).
  assert (Hm : In m (postcode_substrings text)).
  { unfold postcode_substrings. apply filter_In. split.
    - replace text with ((a ++ pre) ++ m ++ (post ++ b))
        by (rewrite E, <- !app_assoc; reflexivity).
      apply in_substrings.
    - now apply has_postcode_format_iff. }
  rewrite Hnone in Hm. destruct Hm.
Qed.

(** C1: when no substring of the input has the postcode format,
    [extractAddress] returns the input unchanged (in App.jsx and in the
    earlier version of part_000 alike). *)
Theorem C1_verbatim_fallback (toUpperCase : jsstring -> jsstring) text :
  postcode_substrings text = [] ->
  extractAddress toUpperCase text = text /\
  Part000.extractAddress text = text.
Proof.
  intros H. apply no_substring_no_line in H.
  unfold extractAddress, Part000.extractAddress. now rewrite H.
Qed.

Lemma C1_verbatim_fallback_witness :
  postcode_substrings (js "HELLO WORLD") = [] /\
  extractAddress ascii_upper (js "HELLO WORLD") = js "HELLO WORLD" /\
  Part000.extractAddress (js "HELLO WORLD") = js "HELLO WORLD".
Proof.
  split; [vm_compute; reflexivity|].
  apply (C1_verbatim_fallback ascii_upper (js "HELLO WORLD")).
  vm_compute; reflexivity.
Defined.

Lemma extractAddress_found toUpperCase text i :
  find_postcode (lines_of text) 0 = Some i ->
  extractAddress toUpperCase text =
  join comma_space
    (addressLines (walk toUpperCase (lines_of text) i (scan_start i))
     ++ [postcode_of (nth i (lines_of text) [])]).
Proof. intros H. unfold extractAddress. now rewrite H. Qed.

Lemma Part000_extractAddress_found text i :
  find_postcode (lines_of text) 0 = Some i ->
  Part000.extractAddress text =
  join comma_space
    (Part000.collect (lines_of text) (Part000.startIndex i)
       (i - Part000.startIndex i) []
     ++ [postcode_of (nth i (lines_of text) [])]).
Proof. intros H. unfold Part000.extractAddress. now rewrite H. Qed.

Lemma Part000_collect_length lines count : forall i acc,
  length (Part000.collect lines i count acc) <= length acc + count.
Proof.
  induction count as [|count IH]; intros i acc; simpl; [lia|].
  specialize (IH (S i)
    match Part000.keep_line (nth i lines []) with
    | Some line => acc ++ [line]
    | None => acc
    end).
  destruct (Part000.keep_line (nth i lines []));
    rewrite ?length_app in IH; simpl in IH; lia.
Qed.

(** C3: when a postcode is located, the returned string is the address
    lines the loop collected, then the postcode, joined by [", "], and the
    loop collected at most four lines (in App.jsx and in the earlier
    version of part_000 alike). *)
Theorem C3_at_most_four_lines (toUpperCase : jsstring -> jsstring) text i :
  find_postcode (lines_of text) 0 = Some i ->
  let postcode := postcode_of (nth i (lines_of text) []) in
  let collected :=
    addressLines (walk toUpperCase (lines_of text) i (scan_start i)) in
  let collected000 :=
    Part000.collect (lines_of text) (Part000.startIndex i)
      (i - Part000.startIndex i) [] in
  length collected <= 4 /\
  extractAddress toUpperCase text =
    join comma_space (collected ++ [postcode]) /\
  length collected000 <= 4 /\
  Part000.extractAddress text =
    join comma_space (collected000 ++ [postcode]).
Proof.
  intros H postcode collected collected000. repeat split.
  - destruct (walk_start toUpperCase (lines_of text) i)
      as (k & _ & _ & _ & Hadr & _ & Hlen & _).
    unfold collected. now rewrite Hadr.
  - now apply extractAddress_found.
  - unfold collected000.
    pose proof (Part000_collect_length (lines_of text)
                  (i - Part000.startIndex i) (Part000.startIndex i) []) as Hl.
    simpl in Hl. unfold Part000.startIndex in *. lia.
  - now apply Part000_extractAddress_found.
Qed.

Lemma C3_at_most_four_lines_witness :
  find_postcode (lines_of scenario_B) 0 = Some 5 /\
  length (addressLines (walk ascii_upper (lines_of scenario_B) 5
                          (scan_start 5))) <= 4.
Proof.
  split; [vm_compute; reflexivity|].
  apply (C3_at_most_four_lines ascii_upper scenario_B 5).
  vm_compute; reflexivity.
Defined.

(** C5: the loop reads [lines[i]] at the [k] indices just below the
    postcode index, latest first, with [k] at most 8; the lines it keeps
    are the accepted ones among these [k] lines; and [k] is the first count
    at which the start of the array is reached, four lines are held, or
    eight lines have been read. *)
Theorem C5_inspection_budget (toUpperCase : jsstring -> jsstring)
    (lines : list jsstring) (postcodeIndex : nat) :
  let st := walk toUpperCase lines postcodeIndex (scan_start postcodeIndex) in
  exists k,
    k <= 8 /\ k <= postcodeIndex /\
    length (inspected st) <= 8 /\
    inspected st = seq (postcodeIndex - k) k /\
    (forall j, In j (inspected st) ->
       postcodeIndex - 8 <= j < postcodeIndex) /\
    addressLines st = kept toUpperCase lines postcodeIndex k /\
    (forall line, In line (addressLines st) ->
       exists j, In j (inspected st) /\ line = nth j lines []) /\
    (k = postcodeIndex \/ length (addressLines st) = 4 \/ k = 8) /\
    forall k', k' < k ->
      k' < postcodeIndex /\ k' < 8 /\
      length (kept toUpperCase lines postcodeIndex k') < 4.
Proof.
  intros st. unfold st.
  destruct (walk_start toUpperCase lines postcodeIndex)
    as (k & Hk & Hk8 & Hins & Hadr & Hstop & Hlen & Hmin).
  exists k. rewrite Hins, Hadr, length_seq. repeat split; auto.
  - apply in_seq in H. lia.
  - apply in_seq in H. lia.
  - intros line Hin. unfold kept, window in Hin.
    apply filter_In in Hin as [Hin _].
    apply in_map_iff in Hin as (j & <- & Hj). eauto.
  - lia.
  - lia.
Qed.

Lemma window_subsequence lines n k :
  k <= n -> n <= length lines ->
  subsequence (window lines n k) (firstn n lines).
Proof.
  intros Hk Hn. rewrite window_firstn_skipn by auto.
  rewrite firstn_skipn_comm. replace (n - k + k) with n by lia.
  rewrite <- (firstn_skipn (n - k) (firstn n lines)) at 2.
  apply subsequence_app_l, subsequence_refl.
Qed.

(** C6: when a postcode is located, the address lines of the returned
    string, which come before the final postcode, are exactly the accepted
    lines among the [k] lines just before the postcode line, in the order
    these have in the input (the walk goes backward and prepends); so they
    are a subsequence of the lines before the postcode line.  [k] is the
    number of lines the walk reads. *)
Theorem C6_order_preserved (toUpperCase : jsstring -> jsstring) text i :
  find_postcode (lines_of text) 0 = Some i ->
  let lines := lines_of text in
  let collected :=
    addressLines (walk toUpperCase lines i (scan_start i)) in
  extractAddress toUpperCase text =
    join comma_space (collected ++ [postcode_of (nth i lines [])]) /\
  subsequence collected (firstn i lines) /\
  exists k,
    k <= i /\ k <= 8 /\
    collected =
      filter (accepted toUpperCase) (skipn (i - k) (firstn i lines)) /\
    (forall line,
       In line collected <->
       In line (skipn (i - k) (firstn i lines)) /\
       isPackageMetadata toUpperCase line = false /\
       isValidAddressLine line = true) /\
    (k = i \/ length collected = 4 \/ k = 8).
Proof.
  intros H lines collected. split; [now apply extractAddress_found|].
  destruct (find_postcode_start _ _ H) as (Hi & _).
  destruct (walk_start toUpperCase lines i)
    as (k & Hk & Hk8 & _ & Hadr & Hstop & _).
  assert (Hw : window lines i k = skipn (i - k) (firstn i lines)).
  { rewrite window_firstn_skipn by (unfold lines; lia).
    rewrite firstn_skipn_comm. f_equal. f_equal. lia. }
  assert (Hc : collected =
               filter (accepted toUpperCase) (skipn (i - k) (firstn i lines))).
  { unfold collected. rewrite Hadr. unfold kept. now rewrite Hw. }
  split.
  - rewrite Hc, <- Hw.
    eapply subsequence_trans; [apply subsequence_filter|].
    apply window_subsequence; [lia|unfold lines; lia].
  - exists k. split; [exact Hk|]. split; [exact Hk8|].
    split; [exact Hc|]. split.
    + intros line. rewrite Hc, filter_In. unfold accepted.
      rewrite andb_true_iff, negb_true_iff. tauto.
    + unfold collected. now rewrite Hadr.
Qed.

Lemma C6_order_preserved_witness :
  find_postcode (lines_of scenario_B) 0 = Some 5 /\
  exists k,
    k <= 5 /\ k <= 8 /\
    addressLines (walk ascii_upper (lines_of scenario_B) 5 (scan_start 5)) =
      filter (accepted ascii_upper)
        (skipn (5 - k) (firstn 5 (lines_of scenario_B))) /\
    (forall line,
       In line (addressLines
                  (walk ascii_upper (lines_of scenario_B) 5 (scan_start 5))) <->
       In line (skipn (5 - k) (firstn 5 (lines_of scenario_B))) /\
       isPackageMetadata ascii_upper line = false /\
       isValidAddressLine line = true) /\
    (k = 5 \/
     length (addressLines
               (walk ascii_upper (lines_of scenario_B) 5 (scan_start 5))) = 4 \/
     k = 8).
Proof.
  split; [vm_compute; reflexivity|].
  apply (C6_order_preserved ascii_upper scenario_B 5).
  vm_compute; reflexivity.
Defined.

(** C10: when the locator selects index [i], matching the line again
    succeeds, so the postcode is the matched substring and the branch that
    would take the whole line is never used. *)
Theorem C10_fallback_unreachable (lines : list jsstring) (i : nat) :
  find_postcode lines 0 = Some i ->
  exists b e,
    regex_exec POSTCODE_REGEX (nth i lines []) = Some (b, e) /\
    string_match (nth i lines []) POSTCODE_REGEX =
      Some (substring b e (nth i lines [])) /\
    postcode_of (nth i lines []) = substring b e (nth i lines []).
Proof.
  intros H. apply find_postcode_start in H as (_ & Ht & _).
  destruct (postcode_of_match _ Ht) as (b & e & _ & _ & H1 & H2 & H3 & _).
  eauto.
Qed.

Lemma C10_fallback_unreachable_witness :
  find_postcode (lines_of scenario_B) 0 = Some 5 /\
  exists b e,
    regex_exec POSTCODE_REGEX (nth 5 (lines_of scenario_B) []) =
      Some (b, e) /\
    string_match (nth 5 (lines_of scenario_B) []) POSTCODE_REGEX =
      Some (substring b e (nth 5 (lines_of scenario_B) [])) /\
    postcode_of (nth 5 (lines_of scenario_B) []) =
      substring b e (nth 5 (lines_of scenario_B) []).
Proof.
  split; [vm_compute; reflexivity|].
  apply (C10_fallback_unreachable (lines_of scenario_B) 5).
  vm_compute; reflexivity.
Defined.

(** *** Scenario B *)

Lemma isPackageMetadata_ascii (toUpperCase : jsstring -> jsstring) line :
  (forall s, is_ascii s = true -> toUpperCase s = ascii_upper s) ->
  is_ascii (trim line) = true ->
  isPackageMetadata toUpperCase line = isPackageMetadata ascii_upper line.
Proof.
  intros Hup Ha. unfold isPackageMetadata. now rewrite (Hup _ Ha).
Qed.

Lemma walk_ext (up up' : jsstring -> jsstring) (lines : list jsstring) n :
  forall st,
  (forall j, j < n ->
     isPackageMetadata up (nth j lines ([] : jsstring)) =
     isPackageMetadata up' (nth j lines ([] : jsstring))) ->
  walk up lines n st = walk up' lines n st.
Proof.
  induction n as [|i IH]; intros st H; [reflexivity|].
  cbn [walk]. cbv zeta. rewrite (H i) by lia.
  rewrite !IH by (intros; apply H; lia). reflexivity.
Qed.

Lemma scenario_B_metadata (toUpperCase : jsstring -> jsstring) j :
  (forall s, is_ascii s = true -> toUpperCase s = ascii_upper s) ->
  j < 5 ->
  isPackageMetadata toUpperCase (nth j (lines_of scenario_B) []) =
  isPackageMetadata ascii_upper (nth j (lines_of scenario_B) []).
Proof.
  intros Hup Hj.
  destruct j as [|[|[|[|[|j]]]]]; try lia;
    try (apply isPackageMetadata_ascii; [exact Hup|vm_compute; reflexivity]).
  vm_compute. reflexivity.
Qed.

(** C4: on the input of scenario B, the lines SHIP TO and 3£ are package
    metadata, the three lines after them are kept in order, and the result
    is JOHN SMITH, 42 HIGH STREET, BELFAST, BT1 1AA; for a [toUpperCase]
    that is the ASCII one on ASCII strings. *)
Theorem C4_scenario_B (toUpperCase : jsstring -> jsstring) :
  (forall s, is_ascii s = true -> toUpperCase s = ascii_upper s) ->
  isPackageMetadata toUpperCase (js "SHIP TO") = true /\
  isPackageMetadata toUpperCase (js "3" ++ [pound]) = true /\
  addressLines (walk toUpperCase (lines_of scenario_B) 5 (scan_start 5)) =
    [js "JOHN SMITH"; js "42 HIGH STREET"; js "BELFAST"] /\
  extractAddress toUpperCase scenario_B = scenario_B_address.
Proof.
  intros Hup.
  assert (Hwalk :
    walk toUpperCase (lines_of scenario_B) 5 (scan_start 5) =
    walk ascii_upper (lines_of scenario_B) 5 (scan_start 5)).
  { apply walk_ext. intros j Hj. now apply scenario_B_metadata. }
  split; [|split; [|split]].
  - rewrite isPackageMetadata_ascii by (auto; vm_compute; reflexivity).
    vm_compute. reflexivity.
  - vm_compute. reflexivity.
  - rewrite Hwalk. vm_compute. reflexivity.
  - rewrite (extractAddress_found toUpperCase scenario_B 5)
      by (vm_compute; reflexivity).
    rewrite Hwalk. vm_compute. reflexivity.
Qed.

Lemma C4_scenario_B_witness :
  (forall s, is_ascii s = true -> ascii_upper s = ascii_upper s) /\
  extractAddress ascii_upper scenario_B = scenario_B_address.
Proof.
  split; [reflexivity|].
  apply (C4_scenario_B ascii_upper). reflexivity.
Defined.

(** Scenarios A, D and E of the specification, with the ASCII
    [toUpperCase]. *)
Example scenario_A :
  extractAddress ascii_upper
    (text_lines [ js "JOHN SMITH"; js "42 HIGH STREET"; js "LONDON";
                  js "SW1A 1AA"; js "TRACKING123456789ABC" ]) =
  js "JOHN SMITH, 42 HIGH STREET, LONDON, SW1A 1AA".
Proof. vm_compute. reflexivity. Qed.

Example scenario_D :
  extractAddress ascii_upper
    (text_lines [js "AB1234567890123456789"; js "BT2 3XY"]) = js "BT2 3XY".
Proof. vm_compute. reflexivity. Qed.

Example scenario_E :
  extractAddress ascii_upper
    (text_lines [js "SW1A 1AA"; js "irrelevant line"]) = js "SW1A 1AA".
Proof. vm_compute. reflexivity. Qed.

(** The earlier version of part_000 keeps the line 3£ on this input. *)
Lemma Part000_scenario_B :
  Part000.extractAddress scenario_B =
  js "3" ++ [pound] ++ js ", JOHN SMITH, 42 HIGH STREET, BELFAST, BT1 1AA".
Proof. vm_compute. reflexivity. Qed.

(** *** Tests of one character class *)

Lemma class_test_iff cl ic s :
  regex_test (mkRegExp (Chr cl) ic) s = true <->
  exists c, In c s /\ in_class ic cl c = true.
Proof.
  rewrite regex_test_true by exact I. unfold match_in.
  cbn [pattern ignoreCase]. split.
  - intros (pre & m & post & -> & H).
    apply Matches_chr_inv in H as (c & -> & Hc).
    exists c. split; auto. apply in_or_app. right. now left.
  - intros (c & Hin & Hc). apply in_split in Hin as (l1 & l2 & ->).
    exists l1, [c], l2. split; auto. now apply M_chr.
Qed.

Lemma no_space_units line :
  existsb is_space line = false -> forall c, In c line -> is_space c = false.
Proof.
  intros H c Hc. destruct (is_space c) eqn:E; auto.
  assert (existsb is_space line = true) by (apply existsb_exists; eauto).
  congruence.
Qed.

Lemma no_space_trim line : existsb is_space line = false -> trim line = line.
Proof.
  intros H. pose proof (no_space_units _ H) as Hu. apply trim_id.
  - intros c r ->. apply Hu. now left.
  - intros r c ->. apply Hu. apply in_or_app. right. now left.
Qed.

Lemma line_terminator_space c :
  in_ranges line_terminator c = true -> is_space c = true.
Proof.
  unfold line_terminator. ranges_prop. lia.
Qed.

Lemma dot_matches c : is_space c = false -> in_class false dot c = true.
Proof.
  intros H. unfold in_class, dot. cbn [negated ranges andb xorb].
  rewrite orb_false_r.
  destruct (in_ranges line_terminator c) eqn:E; auto.
  apply line_terminator_space in E. congruence.
Qed.

Lemma garbled_symbol_short c :
  in_ranges garbled_symbols c = true ->
  in_class false
    (Class false
       [ unit pound; one "$"; unit euro; unit yen; one "#"; one "@"; one "%";
         one "&"; one "*"; one "+"; one "="; one "<"; one ">" ]) c = true.
Proof.
  intros H. unfold in_class. cbn [negated ranges andb xorb].
  rewrite orb_false_r.
  change [ unit pound; one "$"; unit euro; unit yen; one "#"; one "@";
           one "%"; one "&"; one "*"; one "+"; one "="; one "<"; one ">" ]
    with (garbled_symbols ++ [one "+"; one "="; one "<"; one ">"]).
  now rewrite in_ranges_app, H.
Qed.

Lemma GARBLED_test a L b D c S d :
  is_letter L = true -> is_digit D = true ->
  in_ranges garbled_symbols S = true ->
  (forall x, In x b -> is_space x = false) ->
  (forall x, In x c -> is_space x = false) ->
  regex_test GARBLED (a ++ L :: b ++ D :: c ++ S :: d) = true.
Proof.
  intros HL HD HS Hb Hc.
  apply regex_test_true; [simpl; unfold min_le_max; simpl; tauto|].
  exists a, (L :: b ++ D :: c ++ [S]), d. split.
  { f_equal. cbn [app]. f_equal. rewrite <- !app_assoc. cbn [app].
    do 2 f_equal. now rewrite <- app_assoc. }
  unfold match_in, GARBLED, star. cbn [pattern ignoreCase].
  apply (M_seq_eq _ _ _ _ _ [L] (b ++ D :: c ++ [S])); [reflexivity| |].
  { apply M_chr. unfold in_class. cbn [negated ranges andb xorb].
    now rewrite orb_false_r. }
  apply (M_seq_eq _ _ _ _ _ b (D :: c ++ [S])); [reflexivity| |].
  { apply M_rep; cbn [under_max]; auto with arith.
    apply Forall_forall. intros x Hx. now apply dot_matches, Hb. }
  apply (M_seq_eq _ _ _ _ _ [D] (c ++ [S])); [reflexivity| |].
  { apply M_chr. unfold in_class, esc_d. cbn [negated ranges andb xorb].
    now rewrite orb_false_r. }
  apply (M_seq_eq _ _ _ _ _ c [S]); [reflexivity| |].
  { apply M_rep; cbn [under_max]; auto with arith.
    apply Forall_forall. intros x Hx. now apply dot_matches, Hc. }
  apply M_chr. unfold in_class. cbn [negated ranges andb xorb].
  now rewrite orb_false_r.
Qed.

Lemma isPackageMetadata_no_header (up up' : jsstring -> jsstring) line :
  regex_test HEADER (trim line) = false ->
  isPackageMetadata up line = isPackageMetadata up' line.
Proof.
  intros H. unfold isPackageMetadata. cbv zeta.
  now rewrite H, !andb_false_r.
Qed.

(** C7: the line [#1ABCDEFG] has no white space and has a letter, a digit
    and a special character, one of the very class of line 58; yet
    [isPackageMetadata] returns false for it, since line 58 asks for the
    letter before the digit before the special character.  The line is
    accepted and appears in the assembled address. *)
Theorem C7_garbled_token_kept (toUpperCase : jsstring -> jsstring) :
  let line := js "#1ABCDEFG" in
  existsb is_space line = false /\
  existsb is_letter line = true /\
  existsb is_digit line = true /\
  existsb is_special line = true /\
  existsb (in_ranges garbled_symbols) line = true /\
  regex_test GARBLED (trim line) = false /\
  isPackageMetadata toUpperCase line = false /\
  accepted toUpperCase line = true /\
  extractAddress toUpperCase (text_lines [line; js "BT1 1AA"]) =
    js "#1ABCDEFG, BT1 1AA".
Proof.
  intros line.
  assert (Hm : forall l, In l [line; js "BT1 1AA"] ->
               isPackageMetadata toUpperCase l =
               isPackageMetadata ascii_upper l).
  { intros l [<-|[<-|[]]]; apply isPackageMetadata_no_header;
      vm_compute; reflexivity. }
  do 6 (split; [vm_compute; reflexivity|]).
  split; [|split].
  - rewrite Hm by (now left). vm_compute. reflexivity.
  - unfold accepted. rewrite Hm by (now left). vm_compute. reflexivity.
  - rewrite (extractAddress_found toUpperCase _ 1)
      by (vm_compute; reflexivity).
    rewrite (walk_ext toUpperCase ascii_upper).
    + vm_compute. reflexivity.
    + intros j Hj. apply Hm.
      destruct j as [|[|j]]; [now left|right; now left|lia].
Qed.

(** C2 as stated fails: [B1 1AAX] has one substring with the postcode
    format, [B1 1AA], which no word boundary follows; the input is returned
    as it is. *)
Lemma C2_counterexample :
  ~ (forall (toUpperCase : jsstring -> jsstring) (text w : jsstring),
       postcode_substrings text = [w] ->
       last_component (extractAddress toUpperCase text) = w).
Proof.
  intros H.
  specialize (H ascii_upper (js "B1 1AAX") (js "B1 1AA")).
  vm_compute in H. specialize (H eq_refl). discriminate.
Qed.

(** *** The loop of a [g] pattern needs no more rounds than it is given *)

Lemma exec_from_bounds re w : forall p idx b e,
  exec_from re p w idx = Some (b, e) -> idx <= b <= e.
Proof.
  induction w as [|c w IH]; intros p idx b e H; simpl in H;
    destruct (mtch _ _ _ _ _); try discriminate;
    try (injection H as <- <-; lia).
  apply IH in H. lia.
Qed.

Lemma exec_at_bounds re s i b e :
  exec_at re s i = Some (b, e) -> i <= b <= e /\ i <= length s.
Proof.
  unfold exec_at. destruct (Nat.ltb_spec (length s) i) as [Hl|Hl];
    [discriminate|].
  intros H. apply exec_from_bounds in H. lia.
Qed.

Lemma match_loop_enough re s extra : forall fuel i,
  length s < i + fuel ->
  match_loop re s (fuel + extra) i = match_loop re s fuel i.
Proof.
  induction fuel as [|fuel IH]; intros i H.
  - simpl. destruct extra; auto. simpl. unfold exec_at.
    destruct (Nat.ltb_spec (length s) i); [reflexivity|lia].
  - simpl. destruct (exec_at re s i) as [[b e]|] eqn:E; auto.
    apply exec_at_bounds in E. f_equal. apply IH.
    destruct (Nat.eqb_spec e b); lia.
Qed.

Lemma match_positions_total re s extra :
  match_loop re s (S (length s) + extra) 0 = match_positions re s.
Proof. apply match_loop_enough. lia. Qed.

(** *** The classifiers never throw *)

Lemma length_of_or_array x :
  Checked.length_of (Checked.or_array x) =
  Checked.Returns (length (or_empty x)).
Proof. now destruct x. Qed.

Ltac split_if :=
  repeat match goal with
         | |- context [if ?c then _ else _] => destruct c; try reflexivity
         end.

(** C9: evaluated with the failures of JavaScript (reading [length] of
    [null] throws; dividing by zero does not, it gives NaN, which compares
    false), both classifiers return a boolean on every string, the one the
    functions above compute; on the empty string both return [false], and
    on a line of symbols only [isPackageMetadata] returns [true] and
    [isValidAddressLine] returns [false]. *)
Theorem C9_classifiers_total (toUpperCase : jsstring -> jsstring)
    (line : jsstring) :
  Checked.isPackageMetadata toUpperCase line =
    Checked.Returns (isPackageMetadata toUpperCase line) /\
  Checked.isValidAddressLine line =
    Checked.Returns (isValidAddressLine line) /\
  isPackageMetadata toUpperCase [] = false /\
  isValidAddressLine [] = false /\
  isPackageMetadata toUpperCase (js "###") = true /\
  isValidAddressLine (js "###") = false /\
  js_div 0 0 = NaN /\
  (forall q, js_gt NaN q = false /\ js_lt NaN q = false).
Proof.
  split; [|split; [|split; [|split; [|split; [|split; [|split]]]]]].
  - unfold Checked.isPackageMetadata, isPackageMetadata. cbv zeta.
    rewrite !length_of_or_array. cbn [Checked.bind]. split_if.
  - unfold Checked.isValidAddressLine, isValidAddressLine. cbv zeta.
    rewrite !length_of_or_array. cbn [Checked.bind]. split_if.
  - unfold isPackageMetadata. cbv zeta.
    change (trim []) with ([] : jsstring).
    destruct (jsstring_eqb [] (toUpperCase [])); vm_compute; reflexivity.
  - vm_compute. reflexivity.
  - vm_compute. reflexivity.
  - vm_compute. reflexivity.
  - reflexivity.
  - intros q. split; reflexivity.
Qed.

(** *** The postcode at the end of the result *)

Lemma postcode_of_shape line :
  regex_test POSTCODE_REGEX line = true ->
  postcode_shape (postcode_of line) /\
  In (postcode_of line) (bounded_postcodes line).
Proof.
  intros Ht.
  destruct (postcode_of_match _ Ht)
    as (b & e & pre & post & _ & _ & _ & E & _ & _ & HM & _).
  apply POSTCODE_match_iff in HM as (Hs & Hp & Hq). split; auto.
  apply in_bounded_postcodes. exists pre, post. auto.
Qed.

(** C2, as the code has it: when exactly one substring of the lines of the
    input has the postcode format between two word boundaries, the
    returned string has that substring, as it is written, as its last
    component. *)
Theorem C2_trailing_postcode (toUpperCase : jsstring -> jsstring) text w :
  flat_map bounded_postcodes (lines_of text) = [w] ->
  last_component (extractAddress toUpperCase text) = w.
Proof.
  intros Hone.
  assert (Hw : In w (flat_map bounded_postcodes (lines_of text)))
    by (rewrite Hone; now left).
  apply in_flat_map in Hw as (line & Hline & Hw).
  destruct (find_postcode (lines_of text) 0) as [i|] eqn:Hfind.
  - destruct (find_postcode_start _ _ Hfind) as (Hi & Ht & _).
    destruct (postcode_of_shape _ Ht) as (Hs & Hin).
    assert (Hpc : In (postcode_of (nth i (lines_of text) []))
                     (flat_map bounded_postcodes (lines_of text))).
    { apply in_flat_map. exists (nth i (lines_of text) []). split; auto.
      now apply nth_In. }
    rewrite Hone in Hpc. destruct Hpc as [Hpc|[]].
    rewrite (extractAddress_found _ _ _ Hfind), <- Hpc.
    apply last_component_join. rewrite Hpc.
    now apply postcode_shape_no_comma.
  - exfalso. rewrite find_postcode_none in Hfind.
    specialize (Hfind _ Hline).
    assert (Ht : regex_test POSTCODE_REGEX line = true).
    { apply POSTCODE_test_iff. intros E. rewrite E in Hw. destruct Hw. }
    congruence.
Qed.

Lemma C2_trailing_postcode_witness :
  flat_map bounded_postcodes (lines_of scenario_B) = [js "BT1 1AA"] /\
  last_component (extractAddress ascii_upper scenario_B) = js "BT1 1AA".
Proof.
  split; [vm_compute; reflexivity|].
  apply (C2_trailing_postcode ascii_upper scenario_B (js "BT1 1AA")).
  vm_compute; reflexivity.
Defined.

(** *** Running the function on its own result *)

Lemma prev_after_nonempty p q l : l <> [] -> prev_after p l = prev_after q l.
Proof. destruct l; [congruence|reflexivity]. Qed.

Lemma word_before_suffix x l :
  is_word_char (prev_after None (x ++ l)) = false ->
  is_word_char (prev_after None l) = false.
Proof.
  destruct l as [|c l]; [reflexivity|].
  rewrite prev_after_app.
  now rewrite (prev_after_nonempty _ None (c :: l)) by discriminate.
Qed.

Lemma word_after_prefix (u v : jsstring) :
  is_word_char (hd_error (u ++ v)) = false ->
  is_word_char (hd_error u) = false.
Proof. destruct u; [reflexivity|auto]. Qed.

Lemma no_postcode_no_match line pre m post :
  no_postcode line -> line = pre ++ m ++ post ->
  ~ match_in POSTCODE_REGEX pre m post.
Proof.
  unfold no_postcode. intros Hn E HM.
  assert (regex_test POSTCODE_REGEX line = true).
  { apply (regex_test_true _ _ POSTCODE_well_formed). eauto. }
  congruence.
Qed.

(** A match in [L ++ ", " ++ rest], where [L] has no postcode, starts in
    [rest]. *)
Lemma match_after_line L rest pre m post :
  no_postcode L ->
  L ++ comma_space ++ rest = pre ++ m ++ post ->
  match_in POSTCODE_REGEX pre m post ->
  exists l, pre = L ++ comma_space ++ l /\ rest = l ++ m ++ post /\
            match_in POSTCODE_REGEX l m post.
Proof.
  intros HL E HM.
  pose proof HM as HM'. apply POSTCODE_match_iff in HM' as (Hs & Hp & Hq).
  destruct (postcode_shape_first _ Hs) as (c1 & m1 & Em & Hc1).
  pose proof (postcode_shape_no_comma _ Hs) as Hcomma.
  rewrite app_assoc in E. symmetry in E.
  apply app_eq_app in E as (l & [[E1 E2]|[E1 E2]]).
  - (* the match starts after [L ++ ", "] *)
    exists l. subst pre. rewrite <- app_assoc. repeat split; auto.
    apply POSTCODE_match_iff. repeat split; auto.
    now apply word_before_suffix in Hp.
  - (* the match starts in [L ++ ", "] *)
    destruct l as [|x l].
    + rewrite app_nil_r in E1. subst pre. cbn [app] in E2.
      exists []. rewrite app_nil_r. repeat split; auto.
      apply POSTCODE_match_iff. auto.
    + exfalso.
      apply app_eq_app in E1 as (t & [[E3 E4]|[E3 E4]]).
      * (* it starts in [L] *)
        rewrite E4 in E2. rewrite <- app_assoc in E2.
        apply app_eq_app in E2 as (u & [[E5 E6]|[E5 E6]]).
        -- destruct u as [|u0 u].
           ++ rewrite app_nil_r in E5.
              apply (no_postcode_no_match L pre m [] HL).
              ** now rewrite E3, E5, app_nil_r.
              ** apply POSTCODE_match_iff. repeat split; auto.
           ++ cbn [app] in E6. injection E6 as E6 _.
              rewrite Forall_forall in Hcomma.
              apply (Hcomma comma); auto. rewrite E5, <- E6.
              apply in_or_app. right. now left.
        -- (* and ends in [L] *)
           apply (no_postcode_no_match L pre m u HL).
           ++ now rewrite E3, E5.
           ++ apply POSTCODE_match_iff. repeat split; auto.
              rewrite E6 in Hq. now apply word_after_prefix in Hq.
      * (* it starts after [L] *)
        assert (Hx : x = comma \/ x = ch " ").
        { destruct t as [|t0 [|t1 t]]; cbn [app] in E4.
          - injection E4 as <- _. now left.
          - injection E4 as _ <- _. now right.
          - injection E4 as _ _ E4. destruct t; discriminate. }
        rewrite Em in E2. cbn [app] in E2. injection E2 as E2 _.
        rewrite E2 in Hc1.
        destruct Hx as [->| ->]; vm_compute in Hc1; discriminate.
Qed.

Lemma join_prefix_cons sep x l :
  join_prefix sep (x :: l) = x ++ sep ++ join_prefix sep l.
Proof. unfold join_prefix. simpl. now rewrite <- app_assoc. Qed.

Lemma match_after_prefix addr pc : forall pre m post,
  Forall no_postcode addr ->
  join_prefix comma_space addr ++ pc = pre ++ m ++ post ->
  match_in POSTCODE_REGEX pre m post ->
  exists l, pre = join_prefix comma_space addr ++ l /\
            pc = l ++ m ++ post /\ match_in POSTCODE_REGEX l m post.
Proof.
  induction addr as [|L addr IH]; intros pre m post Hno E HM.
  - exists pre. auto.
  - inversion Hno as [|? ? HL Hno']; subst.
    rewrite join_prefix_cons, <- !app_assoc in E.
    destruct (match_after_line _ _ _ _ _ HL E HM) as (l0 & -> & E0 & HM0).
    destruct (IH _ _ _ Hno' E0 HM0) as (l & -> & E1 & HM1).
    exists l. rewrite join_prefix_cons, <- !app_assoc. auto.
Qed.

Lemma in_join_prefix c sep l :
  In c (join_prefix sep l) -> In c sep \/ exists y, In y l /\ In c y.
Proof.
  induction l as [|x l IH]; [intros []|].
  rewrite join_prefix_cons. intros H.
  apply in_app_or in H as [H|H]; [right; exists x; simpl; auto|].
  apply in_app_or in H as [H|H]; auto.
  destruct (IH H) as [H'|(y & Hy & Hc)]; auto.
  right. exists y. simpl. auto.
Qed.

Lemma single_line s :
  ~ In newline s -> s <> [] -> no_space_first s -> no_space_last s ->
  lines_of s = [s].
Proof.
  intros Hnl Hne Hf Hl. unfold lines_of.
  rewrite split_without by auto. cbn [map]. rewrite trim_id by auto.
  destruct s; [congruence|reflexivity].
Qed.

Lemma join_prefix_word_before addr :
  is_word_char (prev_after None (join_prefix comma_space addr)) = false.
Proof.
  destruct addr as [|x addr _] using rev_ind; [reflexivity|].
  rewrite join_prefix_snoc, !app_assoc.
  change comma_space with ([comma] ++ [ch " "]).
  now rewrite app_assoc, prev_after_last.
Qed.

Section SecondRun.

Variable toUpperCase : jsstring -> jsstring.
Variable text : jsstring.
Variable i : nat.
Hypothesis found : find_postcode (lines_of text) 0 = Some i.

Local Abbreviation lines := (lines_of text).
Local Abbreviation postcode := (postcode_of (nth i lines [])).
Local Abbreviation collected :=
  (addressLines (walk toUpperCase lines i (scan_start i))).
Local Abbreviation result := (join comma_space (collected ++ [postcode])).

Lemma result_eq : extractAddress toUpperCase text = result.
Proof. now apply extractAddress_found. Qed.

Lemma postcode_shaped : postcode_shape postcode.
Proof.
  destruct (find_postcode_start _ _ found) as (_ & Ht & _).
  now apply postcode_of_shape.
Qed.

Lemma postcode_in_line c : In c postcode -> In c (nth i lines []).
Proof.
  destruct (find_postcode_start _ _ found) as (_ & Ht & _).
  destruct (postcode_of_match _ Ht)
    as (b & e & pre & post & _ & _ & _ & E & _).
  intros H. rewrite E. now apply in_sub_in.
Qed.

Lemma collected_lines line :
  In line collected -> In line lines /\ no_postcode line.
Proof.
  destruct (find_postcode_start _ _ found) as (Hi & _ & Hbefore).
  destruct (walk_start toUpperCase lines i)
    as (k & Hk & _ & _ & Hadr & _).
  rewrite Hadr. unfold kept, window. intros H.
  apply filter_In in H as [H _].
  apply in_map_iff in H as (j & <- & Hj). apply in_seq in Hj.
  split.
  - apply nth_In. lia.
  - apply Hbefore. lia.
Qed.

Lemma result_split : result = join_prefix comma_space collected ++ postcode.
Proof. apply join_snoc. Qed.

Lemma result_one_line : lines_of result = [result].
Proof.
  destruct (find_postcode_start _ _ found) as (Hi & _ & _).
  pose proof postcode_shaped as Hs.
  destruct (postcode_shape_first _ Hs) as (c1 & m1 & E1 & Hc1).
  destruct (postcode_shape_last _ Hs) as (m2 & c2 & E2 & Hc2).
  apply single_line.
  - rewrite result_split. intros H. apply in_app_or in H as [H|H].
    + apply in_join_prefix in H as [H|(y & Hy & H)].
      * vm_compute in H. intuition discriminate.
      * apply collected_lines in Hy as [Hy _].
        apply lines_of_spec in Hy as (_ & Hn & _). auto.
    + apply postcode_in_line in H.
      assert (Hl : In (nth i lines []) lines) by (apply nth_In; lia).
      apply lines_of_spec in Hl as (_ & Hn & _). auto.
  - rewrite result_split, E1. now destruct (join_prefix _ _).
  - rewrite result_split. intros c r E.
    destruct collected as [|L l] eqn:Ec.
    + cbn [join_prefix map concat app] in E. rewrite E1 in E.
      injection E as <- _. now apply letter_not_space.
    + assert (HL : In L collected) by (rewrite Ec; now left).
      apply collected_lines in HL as [HL _].
      apply lines_of_spec in HL as (Hne & _ & Hf & _).
      rewrite join_prefix_cons in E.
      destruct L as [|c0 L]; [congruence|].
      cbn [app] in E. injection E as <- _. now apply (Hf c0 L).
  - rewrite result_split, E2, app_assoc. intros r c E.
    apply app_inj_tail in E as [_ <-]. now apply letter_not_space.
Qed.

Lemma result_postcode : 
  regex_test POSTCODE_REGEX result = true /\ postcode_of result = postcode.
Proof.
  pose proof postcode_shaped as Hs.
  assert (HM : match_in POSTCODE_REGEX (join_prefix comma_space collected)
                        postcode []).
  { apply POSTCODE_match_iff. repeat split; auto.
    apply join_prefix_word_before. }
  assert (Ht : regex_test POSTCODE_REGEX result = true).
  { apply (regex_test_true _ _ POSTCODE_well_formed).
    exists (join_prefix comma_space collected), postcode, [].
    split; auto. now rewrite app_nil_r, result_split. }
  split; auto.
  destruct (postcode_of_match _ Ht)
    as (b & e & pre & post & _ & _ & _ & E & _ & _ & HM' & Hfirst).
  assert (Hno : Forall no_postcode collected).
  { apply Forall_forall. intros line Hl. now apply collected_lines. }
  rewrite result_split in E at 1.
  destruct (match_after_prefix _ _ _ _ _ Hno E HM') as (l & Epre & Epc & HMl).
  destruct l as [|x l].
  - cbn [app] in Epc.
    apply POSTCODE_match_iff in HMl as (Hs' & _).
    symmetry. apply (postcode_shape_unique _ _ [] post); auto.
    now rewrite app_nil_r.
  - exfalso.
    apply (Hfirst (join_prefix comma_space collected) postcode []); auto.
    + now rewrite app_nil_r, result_split.
    + rewrite Epre, length_app. simpl. lia.
Qed.

Lemma second_run : extractAddress toUpperCase result = postcode.
Proof.
  destruct result_postcode as [Ht Hpc].
  unfold extractAddress. rewrite result_one_line. cbn [find_postcode].
  rewrite Ht. cbn [walk scan_start addressLines nth app join].
  exact Hpc.
Qed.

End SecondRun.

(** C8: when a postcode is located, the last component of the result is
    that postcode, and running the function on the result returns that
    postcode alone, which is then its own last component. *)
Theorem C8_second_run_postcode (toUpperCase : jsstring -> jsstring) text i :
  find_postcode (lines_of text) 0 = Some i ->
  let postcode := postcode_of (nth i (lines_of text) []) in
  last_component (extractAddress toUpperCase text) = postcode /\
  extractAddress toUpperCase (extractAddress toUpperCase text) = postcode /\
  last_component
    (extractAddress toUpperCase (extractAddress toUpperCase text)) = postcode.
Proof.
  intros H postcode.
  pose proof (postcode_shaped text i H) as Hs.
  pose proof (postcode_shape_no_comma _ Hs) as Hc.
  assert (H2 : extractAddress toUpperCase (extractAddress toUpperCase text)
               = postcode).
  { rewrite (result_eq toUpperCase text i H).
    apply (second_run toUpperCase text i H). }
  split; [|split; [exact H2|]].
  - rewrite (extractAddress_found _ _ _ H).
    now apply last_component_join.
  - rewrite H2. apply (last_component_join [] postcode Hc).
Qed.

Lemma C8_second_run_postcode_witness :
  find_postcode (lines_of scenario_B) 0 = Some 5 /\
  last_component
    (extractAddress ascii_upper (extractAddress ascii_upper scenario_B)) =
  postcode_of (nth 5 (lines_of scenario_B) []).
Proof.
  split; [vm_compute; reflexivity|].
  apply (C8_second_run_postcode ascii_upper scenario_B 5).
  vm_compute; reflexivity.
Defined.

(** * Further properties of the code *)

(** ** The lines of a text (line 26) *)

Lemma drop_space_nil s : drop_space s = [] <-> all is_space s.
Proof.
  induction s as [|c s IH]; simpl.
  - split; [constructor|reflexivity].
  - destruct (is_space c) eqn:E.
    + rewrite IH. split; [now constructor|]. now inversion 1.
    + split; [discriminate|]. inversion 1; subst. congruence.
Qed.

Lemma all_rev (f : N -> bool) s : all f (rev s) <-> all f s.
Proof.
  unfold all. rewrite !Forall_forall.
  split; intros H c Hc; apply H; [now apply in_rev in Hc|].
  now apply in_rev.
Qed.

Lemma blank_iff s : blank s <-> all is_space s.
Proof.
  unfold blank, trim. split.
  - intros H. apply (f_equal (@rev N)) in H. rewrite rev_involutive in H.
    simpl in H. apply -> drop_space_nil in H. apply -> all_rev in H.
    destruct (drop_space s) as [|c r] eqn:E; [now apply drop_space_nil|].
    inversion H; subst.
    pose proof (drop_space_first s c r E). cbv beta in *. congruence.
  - intros H. apply drop_space_nil in H. now rewrite H.
Qed.

Lemma all_app (f : N -> bool) a b : all f (a ++ b) <-> all f a /\ all f b.
Proof. apply Forall_app. Qed.

Lemma join_all_space l :
  (forall p, In p l -> all is_space p) -> all is_space (join [newline] l).
Proof.
  induction l as [|x l IH]; intros H; [constructor|].
  destruct l as [|y l].
  - apply H. now left.
  - rewrite join_cons. apply all_app. split; [apply H; now left|].
    apply all_app. split; [repeat constructor|].
    apply IH. intros p Hp. apply H. now right.
Qed.

Lemma lines_of_nil text : lines_of text = [] <-> blank text.
Proof.
  rewrite blank_iff. unfold lines_of. split.
  - intros H. rewrite <- (join_split newline text).
    apply join_all_space. intros p Hp. apply blank_iff.
    destruct (trim p) as [|c r] eqn:E; [exact E|]. exfalso.
    assert (Hin : In (trim p)
              (filter (fun line => 0 <? length line)
                 (map trim (split newline text)))).
    { apply filter_In. split; [now apply in_map|]. now rewrite E. }
    rewrite H in Hin. destruct Hin.
  - intros H.
    destruct (filter _ _) as [|line l] eqn:E; [reflexivity|]. exfalso.
    assert (Hin : In line (lines_of text))
      by (unfold lines_of; rewrite E; now left).
    apply lines_of_spec in Hin as (Hne & _ & Hf & _ & a & b & Et).
    destruct line as [|c r]; [congruence|].
    rewrite Et in H. apply all_app in H as [_ H].
    apply all_app in H as [H _]. inversion H; subst.
    pose proof (Hf c r eq_refl). cbv beta in *. congruence.
Qed.

Lemma lines_of_trimmed text line : In line (lines_of text) -> trim line = line.
Proof.
  intros H. apply lines_of_spec in H as (_ & _ & H3 & H4 & _).
  now apply trim_id.
Qed.

(** X1: every line that line 26 leaves is a non-empty piece of the text
    without a line feed and without white space at either end, which [trim]
    leaves as it is. *)
Theorem X1_lines_invariant text line :
  In line (lines_of text) ->
  line <> [] /\ ~ In newline line /\ no_space_first line /\
  no_space_last line /\ trim line = line /\
  exists a b, text = a ++ line ++ b.
Proof.
  intros H. apply lines_of_spec in H as (H1 & H2 & H3 & H4 & H5).
  repeat split; auto. now apply trim_id.
Qed.

Lemma X1_lines_invariant_witness :
  In (js "BELFAST") (lines_of scenario_B) /\ trim (js "BELFAST") = js "BELFAST".
Proof.
  split; [vm_compute; tauto|].
  apply (X1_lines_invariant scenario_B (js "BELFAST")).
  vm_compute; tauto.
Defined.

(** X2: line 26 leaves no line exactly when the text is blank, that is
    empty or made of white space only. *)
Theorem X2_no_line_iff_blank text :
  lines_of text = [] <-> all is_space text.
Proof. rewrite lines_of_nil. apply blank_iff. Qed.

(** ** The locator (lines 29-44) *)

(** X3: the locator returns the first line that contains a postcode
    between word boundaries, and takes from it the leftmost such postcode:
    no earlier line contains one, and every postcode of that line starts at
    or after the one taken, which is the only one that starts there. *)
Theorem X3_first_line_leftmost_postcode (lines : list jsstring) (i : nat) :
  find_postcode lines 0 = Some i ->
  i < length lines /\
  (forall j, j < i -> bounded_postcodes (nth j lines []) = []) /\
  exists pre post,
    nth i lines [] = pre ++ postcode_of (nth i lines []) ++ post /\
    postcode_shape (postcode_of (nth i lines [])) /\
    is_word_char (prev_after None pre) = false /\
    is_word_char (hd_error post) = false /\
    forall pre' w post',
      nth i lines [] = pre' ++ w ++ post' -> postcode_shape w ->
      is_word_char (prev_after None pre') = false ->
      is_word_char (hd_error post') = false ->
      length pre <= length pre' /\
      (length pre' = length pre -> w = postcode_of (nth i lines [])).
Proof.
  intros H. destruct (find_postcode_start _ _ H) as (Hi & Ht & Hbefore).
  split; [exact Hi|]. split.
  - intros j Hj. specialize (Hbefore j Hj).
    destruct (bounded_postcodes (nth j lines [])) eqn:E; auto.
    assert (regex_test POSTCODE_REGEX (nth j lines []) = true).
    { apply POSTCODE_test_iff. rewrite E. discriminate. }
    congruence.
  - destruct (postcode_of_match _ Ht)
      as (b & e & pre & post & _ & _ & _ & E & _ & _ & HM & Hfirst).
    exists pre, post. apply POSTCODE_match_iff in HM as (Hs & Hp & Hq).
    repeat split; auto.
    + destruct (Nat.le_gt_cases (length pre) (length pre')); auto.
      exfalso. apply (Hfirst pre' w post'); auto.
      apply POSTCODE_match_iff. auto.
    + intros Hlen. rewrite E in H0 at 1.
      assert (Epre : pre' = pre).
      { apply (f_equal (firstn (length pre))) in H0.
        rewrite firstn_app, Nat.sub_diag, firstn_all, firstn_O, app_nil_r
          in H0.
        rewrite <- Hlen, firstn_app, Nat.sub_diag, firstn_all, firstn_O,
          app_nil_r in H0. auto. }
      subst pre'. apply app_inv_head in H0.
      symmetry. eapply postcode_shape_unique; eauto.
Qed.

Lemma X3_first_line_leftmost_postcode_witness :
  find_postcode (lines_of scenario_B) 0 = Some 5 /\
  5 < length (lines_of scenario_B).
Proof.
  split; [vm_compute; reflexivity|].
  apply (X3_first_line_leftmost_postcode (lines_of scenario_B) 5).
  vm_compute; reflexivity.
Defined.

(** ** The result (lines 128-131) *)

Lemma result_line (toUpperCase : jsstring -> jsstring) text i :
  find_postcode (lines_of text) 0 = Some i ->
  lines_of (extractAddress toUpperCase text) =
    [extractAddress toUpperCase text].
Proof.
  intros H. rewrite (result_eq toUpperCase text i H).
  apply (result_one_line toUpperCase text i H).
Qed.

(** X4: when a postcode is located, the result is one line: it is not
    empty, has no line feed and no white space at either end, and ends with
    the postcode, which follows a [", "] when an address line was kept. *)
Theorem X4_result_is_one_line (toUpperCase : jsstring -> jsstring) text i :
  find_postcode (lines_of text) 0 = Some i ->
  let result := extractAddress toUpperCase text in
  let postcode := postcode_of (nth i (lines_of text) []) in
  result <> [] /\ ~ In newline result /\
  no_space_first result /\ no_space_last result /\
  lines_of result = [result] /\
  (result = postcode \/
   exists before, result = before ++ comma_space ++ postcode).
Proof.
  intros H result postcode.
  assert (Hone : lines_of result = [result])
    by apply (result_line toUpperCase text i H).
  assert (Hin : In result (lines_of result)) by (rewrite Hone; now left).
  apply lines_of_spec in Hin as (H1 & H2 & H3 & H4 & _).
  repeat split; auto.
  unfold result. rewrite (extractAddress_found _ _ _ H), join_snoc.
  fold postcode.
  destruct (addressLines _) as [|x l _] using rev_ind; [now left|].
  right. rewrite join_prefix_snoc.
  exists (join_prefix comma_space l ++ x). now rewrite <- !app_assoc.
Qed.

Lemma X4_result_is_one_line_witness :
  find_postcode (lines_of scenario_B) 0 = Some 5 /\
  lines_of (extractAddress ascii_upper scenario_B) =
    [extractAddress ascii_upper scenario_B].
Proof.
  split; [vm_compute; reflexivity|].
  apply (X4_result_is_one_line ascii_upper scenario_B 5).
  vm_compute; reflexivity.
Defined.

(** ** What is kept (lines 47-126) *)

Lemma isValidAddressLine_true line :
  isValidAddressLine line = true ->
  regex_test LETTER (trim line) = true /\ 2 <= length (trim line) <= 50.
Proof.
  unfold isValidAddressLine. cbv zeta.
  destruct (regex_test LETTER (trim line)); cbn [negb]; [|discriminate].
  destruct (length (trim line) <? 2) eqn:H2; cbn [orb]; [discriminate|].
  destruct (50 <? length (trim line)) eqn:H50; [discriminate|].
  apply Nat.ltb_ge in H2, H50. intros _. split; auto.
Qed.

Lemma isPackageMetadata_false (toUpperCase : jsstring -> jsstring) line :
  isPackageMetadata toUpperCase line = false ->
  length (trim line) <= 40 /\
  length (or_empty (string_match_g (trim line) SPECIAL_CHAR)) <= 2 /\
  regex_test TRACKING (string_replace_g (trim line) SPACE []) = false.
Proof.
  unfold isPackageMetadata. cbv zeta.
  destruct (_ && regex_test SHORT_SYMBOL _); [discriminate|].
  destruct (2 <? _) eqn:H2; cbn [orb]; [discriminate|].
  destruct (_ && (_ <? 8)); [discriminate|].
  destruct (_ && regex_test GARBLED _); [discriminate|].
  destruct (40 <? _) eqn:H40; [discriminate|].
  destruct (regex_test TRACKING _); [discriminate|].
  apply Nat.ltb_ge in H2, H40. auto.
Qed.

Lemma letter_test_iff s :
  regex_test LETTER s = true <-> existsb is_letter s = true.
Proof.
  unfold LETTER. rewrite class_test_iff, existsb_exists.
  split; intros (c & Hc & H); exists c; split; auto;
    unfold in_class in *; cbn [negated ranges andb xorb] in *;
    rewrite orb_false_r in *; exact H.
Qed.

(** X5: every address line of the result passed both classifiers: it is not
    package metadata, it looks like an address line, it has between 2 and
    40 code units, at least one ASCII letter and at most two special
    characters. *)
Theorem X5_kept_lines_are_accepted (toUpperCase : jsstring -> jsstring)
    text i line :
  find_postcode (lines_of text) 0 = Some i ->
  In line (addressLines (walk toUpperCase (lines_of text) i (scan_start i))) ->
  In line (firstn i (lines_of text)) /\
  isPackageMetadata toUpperCase line = false /\
  isValidAddressLine line = true /\
  2 <= length line <= 40 /\
  existsb is_letter line = true /\
  length (or_empty (string_match_g line SPECIAL_CHAR)) <= 2.
Proof.
  intros Hfind Hin.
  destruct (find_postcode_start _ _ Hfind) as (Hi & _).
  destruct (walk_start toUpperCase (lines_of text) i)
    as (k & Hk & _ & _ & Hadr & _).
  rewrite Hadr in Hin. unfold kept in Hin.
  apply filter_In in Hin as [Hw Hacc].
  assert (Hfirst : In line (firstn i (lines_of text))).
  { rewrite window_firstn_skipn in Hw by lia.
    rewrite firstn_skipn_comm in Hw. replace (i - k + k) with i in Hw by lia.
    rewrite <- (firstn_skipn (i - k) (firstn i (lines_of text))).
    apply in_or_app. now right. }
  assert (Hline : In line (lines_of text)).
  { rewrite <- (firstn_skipn i (lines_of text)). apply in_or_app. now left. }
  apply lines_of_trimmed in Hline as Htrim.
  unfold accepted in Hacc. apply andb_true_iff in Hacc as [Hm Hv].
  apply negb_true_iff in Hm.
  apply isValidAddressLine_true in Hv as Hv'. destruct Hv' as (Hl & Hlen).
  apply isPackageMetadata_false in Hm as Hm'. destruct Hm' as (H40 & Hsp & _).
  rewrite Htrim in *. apply letter_test_iff in Hl.
  repeat split; auto; lia.
Qed.

Lemma X5_kept_lines_are_accepted_witness :
  find_postcode (lines_of scenario_B) 0 = Some 5 /\
  In (js "BELFAST")
     (addressLines (walk ascii_upper (lines_of scenario_B) 5 (scan_start 5)))
  /\ isPackageMetadata ascii_upper (js "BELFAST") = false.
Proof.
  split; [vm_compute; reflexivity|].
  split; [vm_compute; tauto|].
  apply (X5_kept_lines_are_accepted ascii_upper scenario_B 5 (js "BELFAST")).
  - vm_compute; reflexivity.
  - vm_compute; tauto.
Defined.

(** ** What the result depends on *)

Lemma split_app sep a b :
  split sep (a ++ sep :: b) = split sep a ++ split sep b.
Proof.
  induction a as [|c a IH].
  - simpl. now rewrite N.eqb_refl.
  - change ((c :: a) ++ sep :: b) with (c :: (a ++ sep :: b)).
    rewrite !split_cons, IH.
    destruct (N.eqb c sep); [reflexivity|].
    pose proof (split_not_nil sep a).
    destruct (split sep a); [congruence|reflexivity].
Qed.

Lemma lines_of_app text more :
  lines_of (text ++ newline :: more) = lines_of text ++ lines_of more.
Proof. unfold lines_of. now rewrite split_app, map_app, filter_app. Qed.

Lemma find_postcode_app l l' : forall j i,
  find_postcode l j = Some i -> find_postcode (l ++ l') j = Some i.
Proof.
  induction l as [|x l IH]; intros j i H; [discriminate|].
  simpl in *. destruct (regex_test POSTCODE_REGEX x); auto.
Qed.

Lemma find_postcode_skip l l' : forall j,
  find_postcode l j = None ->
  find_postcode (l ++ l') j = find_postcode l' (j + length l).
Proof.
  induction l as [|x l IH]; intros j H; simpl.
  - now rewrite Nat.add_0_r.
  - simpl in H. destruct (regex_test POSTCODE_REGEX x); [discriminate|].
    rewrite IH by auto. f_equal. lia.
Qed.

Lemma find_postcode_from l : forall j i,
  find_postcode l 0 = Some i -> find_postcode l j = Some (j + i).
Proof.
  intros j i H.
  destruct (find_postcode_some _ _ _ H) as (k & Ek & Hk & Ht & Hb).
  simpl in Ek. subst k.
  destruct (find_postcode l j) as [i'|] eqn:E.
  - destruct (find_postcode_some _ _ _ E) as (k' & -> & Hk' & Ht' & Hb').
    f_equal. f_equal.
    destruct (Nat.lt_trichotomy k' i) as [Hlt|[Heq|Hgt]]; auto.
    + rewrite (Hb _ Hlt) in Ht'. discriminate.
    + rewrite (Hb' _ Hgt) in Ht. discriminate.
  - rewrite find_postcode_none in E.
    rewrite (E (nth i l [])) in Ht by (now apply nth_In). discriminate.
Qed.

(** The loop with two arrays that agree on the lines it can reach: those
    at most [linesToCheck] below the start index, the second array having
    [d] more lines before them. *)
Lemma walk_shift (toUpperCase : jsstring -> jsstring)
    (l l' : list jsstring) d n : forall st st',
  addressLines st = addressLines st' ->
  linesToCheck st = linesToCheck st' ->
  linesToCheck st <= n ->
  (forall j, j < n -> n - linesToCheck st <= j ->
     nth j l ([] : jsstring) = nth (d + j) l' ([] : jsstring)) ->
  addressLines (walk toUpperCase l n st) =
  addressLines (walk toUpperCase l' (d + n) st').
Proof.
  induction n as [|m IH]; intros st st' Ha Hb Hle Hnth.
  - assert (Hz : linesToCheck st' = 0) by lia.
    cbn [walk]. destruct (d + 0) eqn:E; cbn [walk]; auto.
    rewrite Hz. cbn [Nat.ltb Nat.leb]. now rewrite andb_false_r.
  - replace (d + S m) with (S (d + m)) by lia. cbn [walk]. cbv zeta.
    rewrite <- Ha, <- Hb.
    destruct ((length (addressLines st) <? 4) && (0 <? linesToCheck st))
      eqn:Hc; [|exact Ha].
    apply andb_true_iff in Hc as [_ Hpos]. apply Nat.ltb_lt in Hpos.
    rewrite <- (Hnth m) by lia.
    cbn [addressLines linesToCheck inspected decrement].
    assert (Hnth' : forall j, j < m -> m - pred (linesToCheck st) <= j ->
              nth j l ([] : jsstring) = nth (d + j) l' ([] : jsstring)).
    { intros j Hj Hlow. apply Hnth; lia. }
    destruct (isPackageMetadata toUpperCase (nth m l [])).
    { apply IH; cbn [addressLines linesToCheck decrement]; auto; lia. }
    destruct (isValidAddressLine (nth m l [])); cbn [negb].
    2:{ apply IH; cbn [addressLines linesToCheck decrement]; auto; lia. }
    destruct (4 <=? length (addressLines st)); [reflexivity|].
    apply IH; cbn [addressLines linesToCheck decrement]; auto; lia.
Qed.

Lemma walk_same_prefix (toUpperCase : jsstring -> jsstring)
    (l l' : list jsstring) n st :
  (forall j, j < n -> nth j l ([] : jsstring) = nth j l' ([] : jsstring)) ->
  walk toUpperCase l n st = walk toUpperCase l' n st.
Proof.
  revert st. induction n as [|m IH]; intros st H; [reflexivity|].
  cbn [walk]. cbv zeta. rewrite <- (H m) by lia.
  rewrite !IH by (intros; apply H; lia). reflexivity.
Qed.

(** X6: what follows the postcode line does not matter: when a postcode is
    located in a text, appending a line feed and any further text leaves
    the result unchanged. *)
Theorem X6_later_lines_ignored (toUpperCase : jsstring -> jsstring)
    text more i :
  find_postcode (lines_of text) 0 = Some i ->
  extractAddress toUpperCase (text ++ newline :: more) =
  extractAddress toUpperCase text.
Proof.
  intros H. destruct (find_postcode_start _ _ H) as (Hi & _).
  assert (H' : find_postcode (lines_of (text ++ newline :: more)) 0 = Some i).
  { rewrite lines_of_app. now apply find_postcode_app. }
  rewrite (extractAddress_found _ _ _ H), (extractAddress_found _ _ _ H').
  rewrite lines_of_app, app_nth1 by auto. do 3 f_equal.
  apply walk_same_prefix. intros j Hj. rewrite app_nth1; auto. lia.
Qed.

Lemma X6_later_lines_ignored_witness :
  find_postcode (lines_of scenario_B) 0 = Some 5 /\
  extractAddress ascii_upper (scenario_B ++ newline :: js "TRACKING 123") =
  extractAddress ascii_upper scenario_B.
Proof.
  split; [vm_compute; reflexivity|].
  apply (X6_later_lines_ignored ascii_upper scenario_B (js "TRACKING 123") 5).
  vm_compute; reflexivity.
Defined.

(** X7: lines more than eight above the postcode line do not matter: when
    at least eight lines precede the postcode line of a text, putting any
    text without a postcode line, and a line feed, before it leaves the
    result unchanged. *)
Theorem X7_lines_beyond_eight_ignored (toUpperCase : jsstring -> jsstring)
    above text i :
  find_postcode (lines_of above) 0 = None ->
  find_postcode (lines_of text) 0 = Some i ->
  8 <= i ->
  extractAddress toUpperCase (above ++ newline :: text) =
  extractAddress toUpperCase text.
Proof.
  intros Hnone H H8. destruct (find_postcode_start _ _ H) as (Hi & _).
  set (d := length (lines_of above)).
  assert (H' : find_postcode (lines_of (above ++ newline :: text)) 0
               = Some (d + i)).
  { rewrite lines_of_app, find_postcode_skip by auto.
    now apply find_postcode_from. }
  rewrite (extractAddress_found _ _ _ H), (extractAddress_found _ _ _ H').
  rewrite lines_of_app, app_nth2 by (fold d; lia).
  replace (d + i - length (lines_of above)) with i by (fold d; lia).
  do 2 f_equal. symmetry.
  apply walk_shift; cbn [scan_start addressLines linesToCheck]; auto;
    try lia.
  intros j Hj _. rewrite app_nth2 by (fold d; lia).
  f_equal. fold d. lia.
Qed.

Lemma X7_lines_beyond_eight_ignored_witness :
  let text :=
    text_lines [ js "A B"; js "C D"; js "E F"; js "G H"; js "I J"; js "K L";
                 js "M N"; js "O P"; js "BT1 1AA" ] in
  find_postcode (lines_of (js "SHIP TO")) 0 = None /\
  find_postcode (lines_of text) 0 = Some 8 /\
  extractAddress ascii_upper (js "SHIP TO" ++ newline :: text) =
  extractAddress ascii_upper text.
Proof.
  intros text.
  split; [vm_compute; reflexivity|]. split; [vm_compute; reflexivity|].
  apply (X7_lines_beyond_eight_ignored ascii_upper (js "SHIP TO") text 8).
  - vm_compute; reflexivity.
  - vm_compute; reflexivity.
  - lia.
Defined.

Lemma result_blank_iff (toUpperCase : jsstring -> jsstring) text :
  (extractAddress toUpperCase text = [] <-> text = []) /\
  (blank (extractAddress toUpperCase text) <-> blank text).
Proof.
  destruct (find_postcode (lines_of text) 0) as [i|] eqn:H.
  - pose proof (result_line toUpperCase text i H) as Hone.
    assert (Hin : In (extractAddress toUpperCase text)
                     (lines_of (extractAddress toUpperCase text)))
      by (rewrite Hone; now left).
    apply lines_of_spec in Hin as (Hne & _ & Hf & Hl & _).
    assert (Hlines : lines_of text <> []).
    { destruct (find_postcode_start _ _ H) as (Hi & _).
      destruct (lines_of text); [simpl in Hi; lia|discriminate]. }
    assert (Hnb : ~ blank text) by (now rewrite <- lines_of_nil).
    split; split; intros E; exfalso.
    + now apply Hne.
    + subst text. apply Hnb. reflexivity.
    + unfold blank in E. rewrite trim_id in E by auto. now apply Hne.
    + now apply Hnb.
  - unfold extractAddress. rewrite H. tauto.
Qed.

(** X8: the result is empty only for the empty text, and blank (empty or
    white space only) only for a blank text, which is returned as it is. *)
Theorem X8_blank_result_iff_blank_text (toUpperCase : jsstring -> jsstring)
    text :
  (extractAddress toUpperCase text = [] <-> text = []) /\
  (all is_space (extractAddress toUpperCase text) <-> all is_space text) /\
  (all is_space text -> extractAddress toUpperCase text = text).
Proof.
  split; [apply result_blank_iff|]. split.
  - rewrite <- !blank_iff. apply result_blank_iff.
  - intros H. apply blank_iff, lines_of_nil in H.
    unfold extractAddress. now rewrite H.
Qed.

(** ** The earlier version (part_000, lines 46-64) *)

Lemma Part000_collect_spec lines count : forall i acc,
  Part000.collect lines i count acc =
  acc ++ kept000 (map (fun j => nth j lines []) (seq i count)).
Proof.
  induction count as [|count IH]; intros i acc.
  - simpl. now rewrite app_nil_r.
  - cbn [Part000.collect seq map]. rewrite IH. unfold kept000.
    cbn [flat_map].
    destruct (Part000.keep_line (nth i lines [])); cbn [app];
      now rewrite <- ?app_assoc.
Qed.

Lemma Part000_keep_line_some entry line :
  Part000.keep_line entry = Some line ->
  line = trim entry /\ 1 <= length line <= 50.
Proof.
  unfold Part000.keep_line. cbv zeta.
  destruct (length (trim entry) =? 0) eqn:H0; [discriminate|].
  destruct (50 <? length (trim entry)) eqn:H50; [discriminate|].
  destruct (_ && regex_test Part000.ALNUM _); [discriminate|].
  destruct (regex_test Part000.DIGITS _ && _); [discriminate|].
  intros E. injection E as <-.
  apply Nat.eqb_neq in H0. apply Nat.ltb_ge in H50. split; auto. lia.
Qed.

Lemma kept000_subsequence entries :
  subsequence (kept000 entries) (map trim entries).
Proof.
  induction entries as [|e entries IH]; [apply subsequence_nil|].
  unfold kept000 in *. cbn [flat_map map].
  destruct (Part000.keep_line e) as [line|] eqn:E.
  - apply Part000_keep_line_some in E as [-> _].
    now apply subsequence_take.
  - now apply subsequence_skip.
Qed.

Lemma map_trim_lines (l : list jsstring) :
  (forall line, In line l -> trim line = line) -> map trim l = l.
Proof.
  induction l as [|x l IH]; intros H; [reflexivity|]. simpl.
  rewrite (H x) by (now left). f_equal. apply IH. intros; apply H. now right.
Qed.

Lemma Part000_window i : i - Part000.startIndex i = Nat.min 4 i.
Proof. unfold Part000.startIndex. lia. Qed.

(** X9: in the earlier version, when a postcode is located, the address
    lines are those of the (at most) four lines just before the postcode
    line that pass the three tests of the loop, in the order of the
    input, and each has between 1 and 50 code units. *)
Theorem X9_part000_last_four_lines text i :
  find_postcode (lines_of text) 0 = Some i ->
  let collected :=
    Part000.collect (lines_of text) (Part000.startIndex i)
      (i - Part000.startIndex i) [] in
  collected = kept000 (window (lines_of text) i (Nat.min 4 i)) /\
  subsequence collected (window (lines_of text) i (Nat.min 4 i)) /\
  subsequence collected (firstn i (lines_of text)) /\
  forall line, In line collected -> 1 <= length line <= 50.
Proof.
  intros H collected. destruct (find_postcode_start _ _ H) as (Hi & _).
  assert (Hc : collected = kept000 (window (lines_of text) i (Nat.min 4 i))).
  { unfold collected. rewrite Part000_collect_spec. cbn [app].
    unfold window. rewrite Part000_window. do 3 f_equal.
    unfold Part000.startIndex. lia. }
  assert (Hsub : subsequence collected
                   (window (lines_of text) i (Nat.min 4 i))).
  { rewrite Hc.
    rewrite <- (map_trim_lines (window (lines_of text) i (Nat.min 4 i))) at 2.
    - apply kept000_subsequence.
    - intros line Hl. unfold window in Hl.
      apply in_map_iff in Hl as (j & <- & Hj). apply in_seq in Hj.
      assert (Hin : In (nth j (lines_of text) []) (lines_of text))
        by (apply nth_In; lia).
      now apply lines_of_trimmed in Hin. }
  split; [exact Hc|]. split; [exact Hsub|]. split.
  - eapply subsequence_trans; [exact Hsub|].
    apply window_subsequence; lia.
  - intros line Hl. rewrite Hc in Hl. unfold kept000 in Hl.
    apply in_flat_map in Hl as (e & _ & Hl).
    destruct (Part000.keep_line e) eqn:E; [|destruct Hl].
    destruct Hl as [<-|[]].
    now apply Part000_keep_line_some in E as [_ E].
Qed.

Lemma X9_part000_last_four_lines_witness :
  find_postcode (lines_of scenario_B) 0 = Some 5 /\
  subsequence
    (Part000.collect (lines_of scenario_B) (Part000.startIndex 5)
       (5 - Part000.startIndex 5) [])
    (firstn 5 (lines_of scenario_B)).
Proof.
  split; [vm_compute; reflexivity|].
  apply (X9_part000_last_four_lines scenario_B 5).
  vm_compute; reflexivity.
Defined.

(** X10: the two versions end their results alike: on every text, the last
    component of the result of App.jsx is that of the result of the
    earlier version (the postcode when one is located, the last component
    of the text when none is). *)
Theorem X10_versions_same_last_component
    (toUpperCase : jsstring -> jsstring) text :
  last_component (extractAddress toUpperCase text) =
  last_component (Part000.extractAddress text).
Proof.
  destruct (find_postcode (lines_of text) 0) as [i|] eqn:H.
  - rewrite (extractAddress_found _ _ _ H),
      (Part000_extractAddress_found _ _ H).
    pose proof (postcode_shape_no_comma _ (postcode_shaped text i H)) as Hc.
    now rewrite !last_component_join.
  - unfold extractAddress, Part000.extractAddress. now rewrite H.
Qed.

(** ** Counting and removing the units of a class (lines 54, 64, 70, 74) *)

Lemma exec_from_class cl ic w : forall p idx,
  exec_from (mkRegExp (Chr cl) ic) p w idx = first_class (in_class ic cl) w idx.
Proof.
  induction w as [|c w IH]; intros p idx; [reflexivity|].
  cbn [exec_from first_class mtch pattern ignoreCase].
  destruct (in_class ic cl c).
  - unfold accept. f_equal. f_equal. cbn [length]. lia.
  - apply IH.
Qed.

Lemma class_positions_first f w : forall idx,
  class_positions f w idx =
  match first_class f w idx with
  | None => []
  | Some (b, e) => (b, e) :: class_positions f (skipn (e - idx) w) e
  end.
Proof.
  induction w as [|c w IH]; intros idx; [reflexivity|].
  cbn [class_positions first_class]. destruct (f c).
  - replace (S idx - idx) with 1 by lia. reflexivity.
  - rewrite IH. destruct (first_class f w (S idx)) as [[b e]|] eqn:E; auto.
    f_equal. f_equal.
    assert (S idx < e).
    { clear IH. revert idx E. induction w as [|d w IHw]; intros idx E;
        [discriminate|].
      cbn [first_class] in E. destruct (f d).
      - injection E as <- <-. lia.
      - apply IHw in E. lia. }
    replace (e - idx) with (S (e - S idx)) by lia. reflexivity.
Qed.

Lemma first_class_bounds f w : forall idx b e,
  first_class f w idx = Some (b, e) -> idx < e /\ e <= idx + length w.
Proof.
  induction w as [|c w IH]; intros idx b e H; [discriminate|].
  cbn [first_class] in H. destruct (f c).
  - injection H as <- <-. simpl. lia.
  - apply IH in H. simpl. lia.
Qed.

Lemma first_class_step f w idx b e :
  first_class f w idx = Some (b, e) -> e = S b.
Proof.
  revert idx. induction w as [|c w IH]; intros idx H; [discriminate|].
  cbn [first_class] in H. destruct (f c).
  - now injection H as <- <-.
  - eauto.
Qed.

Lemma match_loop_class cl ic s : forall fuel i,
  i <= length s -> length s - i < fuel ->
  match_loop (mkRegExp (Chr cl) ic) s fuel i =
  class_positions (in_class ic cl) (skipn i s) i.
Proof.
  induction fuel as [|fuel IH]; intros i Hi Hfuel; [lia|].
  cbn [match_loop]. unfold exec_at.
  destruct (Nat.ltb_spec (length s) i) as [Hlt|_]; [lia|].
  rewrite exec_from_class, class_positions_first.
  destruct (first_class _ _ _) as [[b e]|] eqn:E; [|reflexivity].
  pose proof (first_class_bounds _ _ _ _ _ E) as [Hlo Hhi].
  pose proof (first_class_step _ _ _ _ _ E) as He.
  rewrite length_skipn in Hhi.
  destruct (Nat.eqb_spec e b); [lia|].
  f_equal. rewrite skipn_skipn.
  replace (e - i + i) with e by lia. apply IH; lia.
Qed.

Lemma match_positions_class cl ic s :
  match_positions (mkRegExp (Chr cl) ic) s =
  class_positions (in_class ic cl) s 0.
Proof. unfold match_positions. rewrite match_loop_class; auto; lia. Qed.

Lemma class_positions_length f w idx :
  length (class_positions f w idx) = length (filter f w).
Proof.
  revert idx. induction w as [|c w IH]; intros idx; [reflexivity|].
  simpl. destruct (f c); simpl; now rewrite IH.
Qed.

(** The number of matches that [match] returns for a pattern of one class
    with the [g] flag, [|| []] applied, is the number of units of the
    string in the class. *)
Lemma match_g_count cl ic s :
  length (or_empty (string_match_g s (mkRegExp (Chr cl) ic))) =
  length (filter (in_class ic cl) s).
Proof.
  unfold string_match_g. rewrite match_positions_class.
  rewrite <- (class_positions_length _ s 0).
  destruct (class_positions _ s 0); [reflexivity|].
  cbn [or_empty]. now rewrite length_map.
Qed.

Lemma substring_snoc (s : jsstring) pos q c w :
  pos <= q -> skipn q s = c :: w ->
  substring pos (S q) s = substring pos q s ++ [c].
Proof.
  intros Hpq Hs. unfold substring.
  replace (S q - pos) with (q - pos + 1) by lia.
  rewrite <- (firstn_skipn (q - pos) (skipn pos s)) at 1.
  assert (Hlen : q < length s).
  { apply Nat.nle_gt. intros Hle. rewrite skipn_all2 in Hs by lia.
    discriminate. }
  rewrite firstn_app, firstn_firstn, Nat.min_r by lia.
  rewrite length_firstn, length_skipn.
  replace (q - pos + 1 - Nat.min (q - pos) (length s - pos)) with 1 by lia.
  rewrite skipn_skipn. replace (q - pos + pos) with q by lia.
  rewrite Hs. reflexivity.
Qed.

Lemma replace_loop_class f (s : jsstring) w : forall q pos,
  pos <= q -> skipn q s = w ->
  replace_loop s [] (class_positions f w q) pos =
  substring pos q s ++ filter (fun c => negb (f c)) w.
Proof.
  induction w as [|c w IH]; intros q pos Hpq Hs.
  - cbn [class_positions replace_loop filter]. rewrite app_nil_r.
    unfold substring. rewrite firstn_all2; auto.
    rewrite length_skipn.
    assert (length s <= q).
    { apply Nat.nlt_ge. intros Hlt.
      apply (f_equal (@length N)) in Hs. rewrite length_skipn in Hs.
      simpl in Hs. lia. }
    lia.
  - assert (Hs' : skipn (S q) s = w).
    { replace (S q) with (1 + q) by lia. rewrite <- skipn_skipn, Hs.
      reflexivity. }
    cbn [class_positions filter]. destruct (f c); cbn [negb].
    + cbn [replace_loop app]. rewrite (IH (S q) (S q)) by auto.
      unfold substring at 2. rewrite Nat.sub_diag. reflexivity.
    + rewrite (IH (S q) pos) by (auto; lia).
      rewrite (substring_snoc s pos q c w) by auto.
      now rewrite <- app_assoc.
Qed.

(** Replacing the matches of a pattern of one class with the [g] flag by
    the empty string leaves the units that are not in the class. *)
Lemma replace_g_filter cl ic s :
  string_replace_g s (mkRegExp (Chr cl) ic) [] =
  filter (fun c => negb (in_class ic cl c)) s.
Proof.
  unfold string_replace_g. rewrite match_positions_class.
  rewrite (replace_loop_class _ s s 0 0) by auto.
  unfold substring. reflexivity.
Qed.

(** ** The rules of the classifiers, read on counts (lines 51-75, 85-93) *)

Lemma special_count s :
  length (or_empty (string_match_g s SPECIAL_CHAR)) =
  length (filter is_special s).
Proof. apply match_g_count. Qed.

Lemma digit_count s :
  length (or_empty (string_match_g s DIGIT)) = length (filter is_digit s).
Proof.
  unfold DIGIT. rewrite match_g_count. f_equal. apply filter_ext.
  intros c. unfold in_class, esc_d. cbn [negated ranges andb xorb].
  now rewrite orb_false_r.
Qed.

Lemma letter_count s :
  length (or_empty (string_match_g s LETTER)) = length (filter is_letter s).
Proof.
  unfold LETTER. rewrite match_g_count. f_equal. apply filter_ext.
  intros c. unfold in_class. cbn [negated ranges andb xorb].
  now rewrite orb_false_r.
Qed.

Lemma letter_or_space_count s :
  length (or_empty (string_match_g s LETTER_OR_SPACE)) =
  length (filter (fun c => is_letter c || is_space c) s).
Proof.
  unfold LETTER_OR_SPACE. rewrite match_g_count. f_equal. apply filter_ext.
  intros c. unfold in_class. cbn [negated ranges andb xorb].
  now rewrite orb_false_r, in_ranges_app.
Qed.

Lemma strip_spaces s :
  string_replace_g s SPACE [] = filter (fun c => negb (is_space c)) s.
Proof.
  unfold SPACE. rewrite replace_g_filter. apply filter_ext.
  intros c. unfold in_class, esc_s. cbn [negated ranges andb xorb].
  now rewrite orb_false_r.
Qed.

Lemma ratio_gt a b :
  js_gt (js_div a b) (4 # 5) = (4 * b <? 5 * a).
Proof.
  destruct b as [|b].
  - destruct a as [|a]; cbn [js_div js_gt]; symmetry;
      [reflexivity|apply Nat.ltb_lt; lia].
  - cbn [js_div js_gt]. unfold Qle_bool. cbn [Qnum Qden].
    rewrite <- Z.ltb_antisym, <- Pos.of_nat_succ, Znat.Zpos_P_of_succ_nat.
    destruct (Z.ltb_spec (4 * Z.succ (Z.of_nat b)) (Z.of_nat a * 5));
      destruct (Nat.ltb_spec (4 * S b) (5 * a)); auto; lia.
Qed.

Lemma ratio_lt a b :
  js_lt (js_div a b) (2 # 5) = (0 <? b) && (5 * a <? 2 * b).
Proof.
  destruct b as [|b]; [destruct a; reflexivity|].
  cbn [js_div js_lt]. unfold Qle_bool. cbn [Qnum Qden].
  rewrite <- Z.ltb_antisym, <- Pos.of_nat_succ, Znat.Zpos_P_of_succ_nat.
  change (0 <? S b) with true. cbn [andb].
  destruct (Z.ltb_spec (Z.of_nat a * 5) (2 * Z.succ (Z.of_nat b)));
    destruct (Nat.ltb_spec (5 * a) (2 * S b)); auto; lia.
Qed.

(** X11: a line with three or more special characters, or with a special
    character and fewer than 8 code units (after trimming), is package
    metadata, whatever else it contains. *)
Theorem X11_symbol_dense_line (toUpperCase : jsstring -> jsstring) line :
  3 <= length (filter is_special (trim line)) \/
  (1 <= length (filter is_special (trim line)) /\ length (trim line) < 8) ->
  isPackageMetadata toUpperCase line = true.
Proof.
  intros H. unfold isPackageMetadata. cbv zeta. rewrite special_count.
  destruct (_ && regex_test SHORT_SYMBOL _); [reflexivity|].
  assert (Hc : (2 <? length (filter is_special (trim line)))
               || ((0 <? length (filter is_special (trim line)))
                   && (length (trim line) <? 8)) = true).
  { apply orb_true_iff. destruct H as [H|[H1 H2]].
    - left. apply Nat.ltb_lt. lia.
    - right. apply andb_true_iff. split; apply Nat.ltb_lt; lia. }
  now rewrite Hc.
Qed.

Lemma X11_symbol_dense_line_witness :
  (3 <= length (filter is_special (trim (js "12 [A] = {B}"))) \/
   (1 <= length (filter is_special (trim (js "12 [A] = {B}"))) /\
    length (trim (js "12 [A] = {B}")) < 8)) /\
  isPackageMetadata ascii_upper (js "12 [A] = {B}") = true.
Proof.
  split; [left; vm_compute; lia|].
  apply (X11_symbol_dense_line ascii_upper (js "12 [A] = {B}")).
  left. vm_compute. lia.
Defined.

Lemma swap_case_dash c :
  in_ranges [one "-"; one "_"] (swap_case c) = in_ranges [one "-"; one "_"] c.
Proof.
  apply eq_iff_eq_true. unfold in_ranges.
  change (one "-") with (45, 45)%N. change (one "_") with (95, 95)%N.
  cbn [existsb fst snd].
  rewrite !orb_false_r, !orb_true_iff, !andb_true_iff, !N.leb_le.
  destruct (swap_case_cases c) as [[H ->]|[[H ->]|(H1 & H2 & ->)]]; lia.
Qed.

Lemma dash_units c :
  in_ranges [one "-"; one "_"] c = N.eqb c (ch "-") || N.eqb c (ch "_").
Proof.
  apply eq_iff_eq_true. unfold in_ranges.
  change (one "-") with (45, 45)%N. change (one "_") with (95, 95)%N.
  change (ch "-") with 45%N. change (ch "_") with 95%N.
  cbn [existsb fst snd].
  rewrite !orb_false_r, !orb_true_iff, !andb_true_iff, !N.leb_le, !N.eqb_eq.
  lia.
Qed.

Lemma icase_tracking c :
  in_class true (Class false [upper; digit; one "-"; one "_"]) c =
  is_tracking_unit c.
Proof.
  pose proof (icase_upper_digit c) as H. unfold in_class in *.
  cbn [negated ranges xorb andb] in *.
  rewrite !(in_ranges_app [upper; digit] [one "-"; one "_"]).
  rewrite swap_case_dash, dash_units. unfold is_tracking_unit.
  rewrite <- H.
  destruct (in_ranges [upper; digit] c),
    (in_ranges [upper; digit] (swap_case c)), (N.eqb c (ch "-")),
    (N.eqb c (ch "_")); reflexivity.
Qed.

Lemma TRACKING_test s :
  15 <= length s -> all is_tracking_unit s -> regex_test TRACKING s = true.
Proof.
  intros Hlen Hall.
  apply regex_test_true; [simpl; unfold min_le_max; simpl; tauto|].
  exists [], s, []. split; [now rewrite app_nil_r|].
  unfold match_in, TRACKING. cbn [pattern ignoreCase].
  apply (M_seq_eq _ _ _ _ _ [] s); [reflexivity|apply M_bol|].
  apply (M_seq_eq _ _ _ _ _ s []); [now rewrite app_nil_r| |apply M_eol].
  apply M_rep; cbn [under_max]; auto.
  exact (all_ext_rev _ _ _ icase_tracking Hall).
Qed.

(** X12: a line that, once its white space is removed, is 15 or more
    letters, digits, hyphens and underscores is package metadata: a
    tracking number is rejected also when it is written in groups. *)
Theorem X12_spaced_tracking_number (toUpperCase : jsstring -> jsstring) line :
  15 <= length (filter (fun c => negb (is_space c)) (trim line)) ->
  all is_tracking_unit (filter (fun c => negb (is_space c)) (trim line)) ->
  isPackageMetadata toUpperCase line = true.
Proof.
  intros Hlen Hall. unfold isPackageMetadata. cbv zeta.
  rewrite strip_spaces, (TRACKING_test _ Hlen Hall).
  destruct (_ && regex_test SHORT_SYMBOL _); [reflexivity|].
  destruct (_ || _); [reflexivity|].
  destruct (_ && regex_test GARBLED _); [reflexivity|].
  destruct (40 <? _); reflexivity.
Qed.

Lemma X12_spaced_tracking_number_witness :
  15 <= length (filter (fun c => negb (is_space c))
                  (trim (js "1Z 999 AA1 01 2345 6784"))) /\
  isPackageMetadata ascii_upper (js "1Z 999 AA1 01 2345 6784") = true.
Proof.
  split; [vm_compute; lia|].
  apply (X12_spaced_tracking_number ascii_upper
           (js "1Z 999 AA1 01 2345 6784")).
  - vm_compute. lia.
  - vm_compute. repeat constructor.
Defined.

Lemma jsstring_eqb_refl s : jsstring_eqb s s = true.
Proof. induction s as [|c s IH]; simpl; auto. now rewrite N.eqb_refl. Qed.

Lemma unit_icase k c :
  (if N.leb 97 c && N.leb c 122 then (c - 32)%N else c) = k ->
  in_class true (Class false [unit k]) c = true.
Proof.
  intros H. unfold in_class, in_ranges, unit.
  cbn [negated ranges xorb andb existsb fst snd].
  rewrite !orb_false_r. apply orb_true_iff.
  rewrite !andb_true_iff, !N.leb_le.
  destruct (swap_case_cases c) as [[Hc ->]|[[Hc ->]|(H1 & H2 & ->)]];
    destruct (N.leb_spec 97 c), (N.leb_spec c 122); cbn [andb] in H; lia.
Qed.

Lemma lit_units_icase kw : forall m p post,
  kw <> [] -> ascii_upper m = kw -> Matches true (lit_units kw) p m post.
Proof.
  induction kw as [|k kw IH]; intros m p post Hne E; [congruence|].
  destruct m as [|c m]; [discriminate|].
  unfold ascii_upper in E. cbn [map] in E. injection E as Ek Em.
  destruct kw as [|k' kw].
  - destruct m; [|discriminate]. cbn [lit_units].
    apply M_chr. now apply unit_icase.
  - cbn [lit_units].
    apply (M_seq_eq _ _ _ _ _ [c] m); [reflexivity| |].
    + apply M_chr. now apply unit_icase.
    + apply IH; [discriminate|exact Em].
Qed.

Lemma HEADER_test kw s :
  In kw header_keywords ->
  ascii_upper (firstn (length kw) s) = kw ->
  regex_test HEADER s = true.
Proof.
  intros Hin E.
  apply regex_test_true.
  { unfold HEADER, lit. cbn. tauto. }
  exists [], (firstn (length kw) s), (skipn (length kw) s).
  split; [now rewrite firstn_skipn|].
  unfold match_in, HEADER. cbn [pattern ignoreCase].
  apply (M_seq_eq _ _ _ _ _ [] (firstn (length kw) s)); [reflexivity| |].
  { apply M_bol. }
  unfold header_keywords in Hin. cbn [map In] in Hin. unfold lit.
  assert (Hm : forall k, k = kw -> k <> [] ->
            Matches true (lit_units k) (prev_after None [])
              (firstn (length kw) s) (skipn (length kw) s)).
  { intros k -> Hne. now apply lit_units_icase. }
  destruct Hin as [H|[H|[H|[H|[H|[H|[H|[H|[H|[]]]]]]]]]].
  - apply M_alt_l. apply Hm; [exact H|discriminate].
  - apply M_alt_r, M_alt_l. apply Hm; [exact H|discriminate].
  - do 2 apply M_alt_r. apply M_alt_l. apply Hm; [exact H|discriminate].
  - do 3 apply M_alt_r. apply M_alt_l. apply Hm; [exact H|discriminate].
  - do 4 apply M_alt_r. apply M_alt_l. apply Hm; [exact H|discriminate].
  - do 5 apply M_alt_r. apply M_alt_l. apply Hm; [exact H|discriminate].
  - do 6 apply M_alt_r. apply M_alt_l. apply Hm; [exact H|discriminate].
  - do 7 apply M_alt_r. apply M_alt_l. apply Hm; [exact H|discriminate].
  - do 8 apply M_alt_r. apply Hm; [exact H|discriminate].
Qed.

(** X13: a line that [toUpperCase] leaves as it is and that begins with
    one of the keywords of line 67, in either case and also as the start of
    a longer word, is package metadata: the town line TORQUAY is rejected
    like the header TO. *)
Theorem X13_upper_case_keyword_prefix (toUpperCase : jsstring -> jsstring)
    line kw :
  In kw header_keywords ->
  ascii_upper (firstn (length kw) (trim line)) = kw ->
  toUpperCase (trim line) = trim line ->
  isPackageMetadata toUpperCase line = true.
Proof.
  intros Hin Hkw Hup. unfold isPackageMetadata. cbv zeta.
  rewrite Hup, jsstring_eqb_refl, (HEADER_test kw _ Hin Hkw).
  destruct (_ && regex_test SHORT_SYMBOL _); [reflexivity|].
  destruct (_ || _); [reflexivity|].
  destruct (_ && regex_test GARBLED _); [reflexivity|].
  destruct (40 <? _); [reflexivity|].
  destruct (regex_test TRACKING _); reflexivity.
Qed.

Lemma X13_upper_case_keyword_prefix_witness :
  In (js "TO") header_keywords /\
  isPackageMetadata ascii_upper (js "TORQUAY") = true.
Proof.
  split; [vm_compute; tauto|].
  apply (X13_upper_case_keyword_prefix ascii_upper (js "TORQUAY") (js "TO")).
  - vm_compute; tauto.
  - reflexivity.
  - reflexivity.
Defined.

(** X14: [isValidAddressLine] accepts exactly the lines that, trimmed,
    contain an ASCII letter, have between 2 and 50 code units and, when
    longer than 5, have at least two fifths of letters and white space. *)
Theorem X14_valid_line_iff (line : jsstring) :
  isValidAddressLine line = true <->
  existsb is_letter (trim line) = true /\
  2 <= length (trim line) <= 50 /\
  (length (trim line) <= 5 \/
   2 * length (trim line) <=
   5 * length (filter (fun c => is_letter c || is_space c) (trim line))).
Proof.
  unfold isValidAddressLine. cbv zeta.
  rewrite letter_or_space_count, ratio_lt, <- letter_test_iff.
  destruct (regex_test LETTER (trim line)); cbn [negb];
    [|split; [discriminate|intros [H _]; discriminate]].
  destruct (Nat.ltb_spec (length (trim line)) 2); cbn [orb];
    [split; [discriminate|lia]|].
  destruct (Nat.ltb_spec 50 (length (trim line)));
    [split; [discriminate|lia]|].
  destruct (Nat.ltb_spec 0 (length (trim line))); [|lia]. cbn [andb].
  destruct (Nat.ltb_spec
              (5 * length (filter (fun c => is_letter c || is_space c)
                             (trim line)))
              (2 * length (trim line)));
    destruct (Nat.ltb_spec 5 (length (trim line))); cbn [andb];
    split; try discriminate; try lia; auto.
Qed.

(** X15: a line of more than 10 code units of which more than four fifths
    are digits, or of more than 5 code units with fewer than two ASCII
    letters, is package metadata. *)
Theorem X15_digit_heavy_or_letterless (toUpperCase : jsstring -> jsstring)
    line :
  (10 < length (trim line) /\
   4 * length (trim line) < 5 * length (filter is_digit (trim line))) \/
  (5 < length (trim line) /\ length (filter is_letter (trim line)) < 2) ->
  isPackageMetadata toUpperCase line = true.
Proof.
  intros H. unfold isPackageMetadata. cbv zeta.
  rewrite digit_count, letter_count, ratio_gt.
  destruct (_ && regex_test SHORT_SYMBOL _); [reflexivity|].
  destruct (_ || _); [reflexivity|].
  destruct (_ && regex_test GARBLED _); [reflexivity|].
  destruct (40 <? _); [reflexivity|].
  destruct (regex_test TRACKING _); [reflexivity|].
  destruct (_ && regex_test HEADER _); [reflexivity|].
  destruct H as [[H1 H2]|[H1 H2]].
  - apply Nat.ltb_lt in H1, H2. now rewrite H1, H2.
  - apply Nat.ltb_lt in H1, H2. rewrite H1, H2.
    now destruct (_ && _).
Qed.

Lemma X15_digit_heavy_or_letterless_witness :
  ((10 < length (trim (js "0044 7700 900123")) /\
    4 * length (trim (js "0044 7700 900123")) <
    5 * length (filter is_digit (trim (js "0044 7700 900123")))) \/
   (5 < length (trim (js "0044 7700 900123")) /\
    length (filter is_letter (trim (js "0044 7700 900123"))) < 2)) /\
  isPackageMetadata ascii_upper (js "0044 7700 900123") = true.
Proof.
  split; [left; vm_compute; lia|].
  apply (X15_digit_heavy_or_letterless ascii_upper (js "0044 7700 900123")).
  left. vm_compute. lia.
Defined.

(** ** The links of [openInMaps] (lines 189-225) *)

Lemma two_step_ind (P : jsstring -> Prop) :
  P [] ->
  (forall c s, P s -> (forall d s', s = d :: s' -> P s') -> P (c :: s)) ->
  forall s, P s.
Proof.
  intros Hnil Hcons s.
  assert (H : P s /\ forall d s', s = d :: s' -> P s').
  { induction s as [|c s [IH1 IH2]].
    - split; [exact Hnil|discriminate].
    - split; [now apply Hcons|]. intros d s' E. now injection E as _ <-. }
  apply H.
Qed.

Lemma unreserved_iff c :
  in_ranges uri_unreserved c = true <->
  (65 <= c <= 90 \/ 97 <= c <= 122 \/ 48 <= c <= 57 \/ c = 45 \/ c = 95
   \/ c = 46 \/ c = 33 \/ c = 126 \/ c = 42 \/ c = 39 \/ c = 40 \/ c = 41)%N.
Proof.
  unfold uri_unreserved, in_ranges. rewrite upper_val, lower_val, digit_val.
  change (one "-") with (45, 45)%N. change (one "_") with (95, 95)%N.
  change (one ".") with (46, 46)%N. change (one "!") with (33, 33)%N.
  change (one "~") with (126, 126)%N. change (one "*") with (42, 42)%N.
  change (one "'") with (39, 39)%N. change (one "(") with (40, 40)%N.
  change (one ")") with (41, 41)%N.
  cbn [existsb fst snd].
  rewrite !orb_false_r, !orb_true_iff, !andb_true_iff, !N.leb_le. lia.
Qed.

Lemma hex_digit_safe n : (n < 16)%N -> is_uri_safe (hex_digit n) = true.
Proof.
  intros H. unfold is_uri_safe. apply orb_true_iff. left.
  apply unreserved_iff. unfold hex_digit.
  change (ch "0") with 48%N. change (ch "A") with 65%N.
  destruct (N.ltb_spec n 10); lia.
Qed.

Lemma percent_octet_safe o :
  (o < 256)%N -> Forall (fun c => is_uri_safe c = true) (percent_octet o).
Proof.
  intros H. unfold percent_octet. repeat constructor.
  - apply hex_digit_safe. apply N.Div0.div_lt_upper_bound. lia.
  - apply hex_digit_safe. apply N.mod_upper_bound. lia.
Qed.

Lemma utf8_octets cp : Forall (fun o => (o < 256)%N) (utf8 cp).
Proof.
  unfold utf8.
  pose proof (N.mod_upper_bound (cp / 64) 32).
  pose proof (N.mod_upper_bound cp 64).
  pose proof (N.mod_upper_bound (cp / 4096) 16).
  pose proof (N.mod_upper_bound (cp / 64) 64).
  pose proof (N.mod_upper_bound (cp / 262144) 8).
  pose proof (N.mod_upper_bound (cp / 4096) 64).
  destruct (N.ltb_spec cp 128); [repeat constructor; lia|].
  destruct (N.ltb_spec cp 2048); [repeat constructor; lia|].
  destruct (N.ltb_spec cp 65536); repeat constructor; lia.
Qed.

Lemma percent_encode_safe cp :
  Forall (fun c => is_uri_safe c = true) (percent_encode cp).
Proof.
  unfold percent_encode. apply Forall_flat_map.
  eapply Forall_impl; [|apply utf8_octets].
  intros o Ho. now apply percent_octet_safe.
Qed.

Lemma prepend_normal r x e :
  prepend r x = Normal e -> exists e', x = Normal e' /\ e = r ++ e'.
Proof. destruct x; [|discriminate]. intros H. injection H as <-. eauto. Qed.

Lemma encodeURIComponent_safe s : forall e,
  encodeURIComponent s = Normal e -> Forall (fun c => is_uri_safe c = true) e.
Proof.
  induction s as [|c s IH1 IH2] using two_step_ind; intros e H.
  - injection H as <-. constructor.
  - cbn [encodeURIComponent] in H.
    destruct (in_ranges uri_unreserved c) eqn:Hu.
    { apply prepend_normal in H as (e' & H & ->).
      constructor; [|now apply IH1].
      unfold is_uri_safe. now rewrite Hu. }
    destruct (is_trailing_surrogate c); [discriminate|].
    destruct (is_leading_surrogate c).
    + destruct s as [|d s']; [discriminate|].
      destruct (is_trailing_surrogate d); [|discriminate].
      apply prepend_normal in H as (e' & H & ->).
      apply Forall_app. split; [apply percent_encode_safe|].
      now apply (IH2 d s' eq_refl).
    + apply prepend_normal in H as (e' & H & ->).
      apply Forall_app. split; [apply percent_encode_safe|now apply IH1].
Qed.

Lemma unreserved_not_surrogate c :
  in_ranges uri_unreserved c = true ->
  is_trailing_surrogate c = false /\ is_leading_surrogate c = false.
Proof.
  intros H. apply unreserved_iff in H.
  unfold is_trailing_surrogate, is_leading_surrogate.
  split; apply andb_false_iff; rewrite !N.leb_gt; lia.
Qed.

Lemma prepend_error r x : prepend r x = URIError <-> x = URIError.
Proof. destruct x; simpl; split; auto; discriminate. Qed.

Lemma encodeURIComponent_throws s :
  encodeURIComponent s = URIError <-> isWellFormed s = false.
Proof.
  induction s as [|c s IH1 IH2] using two_step_ind.
  - simpl. split; discriminate.
  - cbn [encodeURIComponent isWellFormed].
    destruct (in_ranges uri_unreserved c) eqn:Hu.
    { destruct (unreserved_not_surrogate c Hu) as [-> ->].
      now rewrite prepend_error. }
    destruct (is_trailing_surrogate c); [tauto|].
    destruct (is_leading_surrogate c).
    + destruct s as [|d s']; [tauto|].
      destruct (is_trailing_surrogate d); cbn [andb]; [|tauto].
      rewrite prepend_error. now apply (IH2 d s' eq_refl).
    + now rewrite prepend_error.
Qed.

Lemma encodeURIComponent_normal s :
  isWellFormed s = true -> exists e, encodeURIComponent s = Normal e.
Proof.
  intros H. destruct (encodeURIComponent s) as [e|] eqn:E; eauto.
  apply encodeURIComponent_throws in E. congruence.
Qed.

(** The encoder on the usual test strings: punctuation, a two-octet and a
    three-octet code point, a surrogate pair, and the two lone surrogates. *)
Example encodeURIComponent_punctuation :
  encodeURIComponent (js "JOHN SMITH, 42 (a)*'!~._-/?&=#+") =
  Normal (js "JOHN%20SMITH%2C%2042%20(a)*'!~._-%2F%3F%26%3D%23%2B").
Proof. reflexivity. Qed.

Example encodeURIComponent_pound_euro :
  encodeURIComponent [163%N; 8364%N] = Normal (js "%C2%A3%E2%82%AC").
Proof. reflexivity. Qed.

Example encodeURIComponent_pair :
  encodeURIComponent [55357%N; 56832%N] = Normal (js "%F0%9F%98%80").
Proof. reflexivity. Qed.

Example encodeURIComponent_lone_surrogates :
  encodeURIComponent [55357%N] = URIError /\
  encodeURIComponent [56832%N; 65%N] = URIError.
Proof. split; reflexivity. Qed.

Lemma openInMaps_cases st service :
  (is_empty (trim (shown_address st)) = true /\
   openInMaps st service = Normal [no_address_toast]) \/
  (is_empty (trim (shown_address st)) = false /\
   encodeURIComponent (shown_address st) = URIError /\
   openInMaps st service = URIError) \/
  (exists e,
     is_empty (trim (shown_address st)) = false /\
     encodeURIComponent (shown_address st) = Normal e /\
     (openInMaps st service =
        Normal [WindowOpen (google_prefix ++ e) (js "_blank")] \/
      openInMaps st service =
        Normal [WindowOpen (waze_prefix ++ e) (js "_blank")] \/
      openInMaps st service = Normal [AssignLocationHref (here_prefix ++ e)] \/
      openInMaps st service =
        Normal [WindowOpen (apple_prefix ++ e) (js "_blank")] \/
      openInMaps st service = Normal [])).
Proof.
  unfold openInMaps. cbv zeta.
  destruct (is_empty (trim (shown_address st))); [left; auto|right].
  destruct (encodeURIComponent (shown_address st)) as [e|]; [right|left; auto].
  exists e. repeat split.
  destruct (jsstring_eqb service (js "google")); [tauto|].
  destruct (jsstring_eqb service (js "waze")); [tauto|].
  destruct (jsstring_eqb service (js "here")); [tauto|].
  destruct (jsstring_eqb service (js "apple")); tauto.
Qed.

(** X16: whatever the address and the service, [openInMaps] does at most
    one thing, and a link it opens is one of the four fixed prefixes
    followed by units that are unreserved ([A-Za-z0-9-_.!~*'()]) or ["%"]:
    the address never puts a space, ["&"], ["#"], ["?"], ["/"] or a
    non-ASCII unit in the link. *)
Theorem X16_links_are_safe (st : app_state) (service : jsstring)
    (effects : list effect) :
  openInMaps st service = Normal effects ->
  length effects <= 1 /\
  forall eff, In eff effects ->
    eff = no_address_toast \/
    exists prefix encoded,
      link_of eff = Some (prefix ++ encoded) /\
      In prefix link_prefixes /\
      encodeURIComponent (shown_address st) = Normal encoded /\
      Forall (fun c => is_uri_safe c = true) encoded.
Proof.
  intros H.
  destruct (openInMaps_cases st service)
    as [[_ E]|[(_ & _ & E)|(e & _ & He & E)]].
  - rewrite E in H. injection H as <-. split; [simpl; lia|].
    intros eff [<-|[]]. now left.
  - rewrite E in H. discriminate.
  - pose proof (encodeURIComponent_safe _ _ He) as Hsafe.
    unfold link_prefixes.
    destruct E as [E|[E|[E|[E|E]]]]; rewrite E in H; injection H as <-;
      (split; [simpl; lia|]); intros eff Hin; simpl in Hin;
      try (destruct Hin as [<-|[]]; right);
      try (exfalso; exact Hin).
    + exists google_prefix, e.
      split; [reflexivity|split; [simpl; tauto|auto]].
    + exists waze_prefix, e.
      split; [reflexivity|split; [simpl; tauto|auto]].
    + exists here_prefix, e.
      split; [reflexivity|split; [simpl; tauto|auto]].
    + exists apple_prefix, e.
      split; [reflexivity|split; [simpl; tauto|auto]].
Qed.

Lemma X16_links_are_safe_witness :
  openInMaps (mkState false [] (js "A B")) (js "google") =
    Normal [WindowOpen (google_prefix ++ js "A%20B") (js "_blank")] /\
  length [WindowOpen (google_prefix ++ js "A%20B") (js "_blank")] <= 1.
Proof.
  split; [reflexivity|].
  apply (X16_links_are_safe (mkState false [] (js "A B")) (js "google")).
  reflexivity.
Defined.

(** X17: [openInMaps] throws, [encodeURIComponent]'s URIError, exactly
    when the address is not blank and has an unpaired surrogate; it then
    shows no message and opens no link, for every service, known or
    not. *)
Theorem X17_unpaired_surrogate_throws (st : app_state) (service : jsstring) :
  openInMaps st service = URIError <->
  is_empty (trim (shown_address st)) = false /\
  isWellFormed (shown_address st) = false.
Proof.
  rewrite <- encodeURIComponent_throws.
  destruct (openInMaps_cases st service)
    as [[Hb E]|[(Hb & He & E)|(e & Hb & He & E)]].
  - rewrite E, Hb. split; [discriminate|]. intros [H _]. discriminate.
  - rewrite E. tauto.
  - rewrite He. split; [|intros [_ H]; discriminate].
    destruct E as [E|[E|[E|[E|E]]]]; rewrite E; discriminate.
Qed.

(** ** After a scan (lines 134-159 with the handlers) *)

Lemma trim_nil_iff s : is_empty (trim s) = true <-> blank s.
Proof. unfold blank. destruct (trim s); simpl; split; congruence. Qed.

Lemma is_empty_trim_result (toUpperCase : jsstring -> jsstring) text :
  is_empty (trim (extractAddress toUpperCase text)) = is_empty (trim text).
Proof.
  apply eq_iff_eq_true. rewrite !trim_nil_iff.
  apply result_blank_iff.
Qed.

Lemma or_string_nil a b : or_string a b = [] <-> a = [] /\ b = [].
Proof. destruct a; simpl; split; intuition congruence. Qed.

(** X18: once a scan has recognized [text], the scanning flag is off and
    the address that the field shows, that [openInMaps] encodes and that
    [copyAddress] copies is [extractAddress(text)] (the raw text is never
    substituted for it); both handlers refuse, with their message, exactly
    when the text is blank. *)
Theorem X18_after_a_scan (toUpperCase : jsstring -> jsstring)
    (text : jsstring) (st : app_state) (service : jsstring) (written : bool) :
  let st' := processImageWithOCR toUpperCase (Some text) st in
  isScanning st' = false /\
  detectedText st' = text /\
  shown_address st' = extractAddress toUpperCase text /\
  (openInMaps st' service = Normal [no_address_toast] <->
   all is_space text) /\
  (copyAddress st' written = [ShowToastMessage (js "No address to copy.")] <->
   all is_space text) /\
  (all is_space text \/
   copyAddress st' written =
     [ ClipboardWriteText (extractAddress toUpperCase text);
       ShowToastMessage
         (if written then js "Address copied to clipboard!"
          else js "Failed to copy address.") ]).
Proof.
  intros st'.
  assert (Hshown : shown_address st' = extractAddress toUpperCase text).
  { unfold st', processImageWithOCR, shown_address. cbn.
    destruct (extractAddress toUpperCase text) eqn:E; [|reflexivity].
    apply (result_blank_iff toUpperCase text) in E. now subst text. }
  assert (Hblank : is_empty (trim (shown_address st')) = true <->
                   all is_space text).
  { rewrite Hshown, is_empty_trim_result, trim_nil_iff. apply blank_iff. }
  split; [reflexivity|]. split; [reflexivity|]. split; [exact Hshown|].
  split; [|split].
  - rewrite <- Hblank.
    destruct (openInMaps_cases st' service)
      as [[Hb E]|[(Hb & _ & E)|(e & Hb & _ & E)]]; rewrite Hb.
    + rewrite E. tauto.
    + rewrite E. split; discriminate.
    + split; [|discriminate].
      destruct E as [E|[E|[E|[E|E]]]]; rewrite E; discriminate.
  - rewrite <- Hblank. unfold copyAddress. cbv zeta.
    destruct (is_empty (trim (shown_address st'))); [tauto|].
    split; discriminate.
  - unfold copyAddress. cbv zeta.
    destruct (is_empty (trim (shown_address st'))) eqn:Hb.
    + left. now apply Hblank.
    + right. now rewrite Hshown.
Qed.

(** X19: when the OCR worker throws, nothing of an earlier scan is left:
    the state is the initial one, the failure is reported by one message,
    and [openInMaps] and [copyAddress] then refuse with their message
    whatever the state was before. *)
Theorem X19_after_a_failed_scan (toUpperCase : jsstring -> jsstring)
    (st : app_state) (service : jsstring) (written : bool) :
  let st' := processImageWithOCR toUpperCase None st in
  st' = initial_state /\
  processImageWithOCR_effects None =
    [ConsoleError;
     ShowToastMessage (js "Failed to scan image. Please try again.")] /\
  openInMaps st' service = Normal [no_address_toast] /\
  copyAddress st' written = [ShowToastMessage (js "No address to copy.")].
Proof. repeat split. Qed.

(** X20: after a scan the address field cannot be emptied unless the
    recognized text was empty: when the user clears it, the raw text is
    shown again, and it is the raw text that the handlers then use. *)
Theorem X20_field_cannot_be_emptied (toUpperCase : jsstring -> jsstring)
    (text value : jsstring) (st : app_state) :
  let st' :=
    edit_address value (processImageWithOCR toUpperCase (Some text) st) in
  (shown_address st' = [] <-> value = [] /\ text = []) /\
  shown_address
    (edit_address [] (processImageWithOCR toUpperCase (Some text) st)) = text.
Proof.
  intros st'. split; [|reflexivity].
  unfold st', shown_address. cbn. apply or_string_nil.
Qed.

(** ** The device test (line 250) *)

Lemma lit_units_exact kw : forall m p post,
  kw <> [] -> (Matches false (lit_units kw) p m post <-> m = kw).
Proof.
  assert (Hunit : forall k c,
            in_class false (Class false [unit k]) c = true <-> c = k).
  { intros k c. unfold in_class, in_ranges, unit.
    cbn [negated ranges xorb andb existsb fst snd].
    rewrite !orb_false_r, andb_true_iff, !N.leb_le. lia. }
  induction kw as [|k kw IH]; intros m p post Hne; [congruence|].
  destruct kw as [|k' kw].
  - cbn [lit_units]. split.
    + intros H. apply Matches_chr_inv in H as (c & -> & Hc).
      apply Hunit in Hc. now subst.
    + intros ->. apply M_chr. now apply Hunit.
  - cbn [lit_units]. split.
    + intros H. apply Matches_seq_inv in H as (m1 & m2 & -> & H1 & H2).
      apply Matches_chr_inv in H1 as (c & -> & Hc). apply Hunit in Hc.
      apply IH in H2; [|discriminate]. now subst.
    + intros ->. apply (M_seq_eq _ _ _ _ _ [k] (k' :: kw)); [reflexivity| |].
      * apply M_chr. now apply Hunit.
      * apply IH; [discriminate|reflexivity].
Qed.

(** X21: the Apple Maps button is offered exactly when the user agent
    contains [iPad], [iPhone] or [iPod], in this very case. *)
Theorem X21_ios_user_agents (userAgent : jsstring) :
  isIOS userAgent = true <->
  occurs_in (js "iPad") userAgent \/ occurs_in (js "iPhone") userAgent \/
  occurs_in (js "iPod") userAgent.
Proof.
  unfold isIOS. rewrite regex_test_true by (unfold IOS_DEVICE, lit; cbn; tauto).
  unfold match_in, IOS_DEVICE, lit, occurs_in. cbn [pattern ignoreCase].
  split.
  - intros (pre & m & post & -> & H).
    apply Matches_alt_inv in H as [H|H];
      [|apply Matches_alt_inv in H as [H|H]];
      apply lit_units_exact in H; try discriminate; subst m; eauto.
  - intros [(a & b & ->)|[(a & b & ->)|(a & b & ->)]].
    + exists a, (js "iPad"), b. split; auto.
      apply M_alt_l. now apply lit_units_exact.
    + exists a, (js "iPhone"), b. split; auto.
      apply M_alt_r, M_alt_l. now apply lit_units_exact.
    + exists a, (js "iPod"), b. split; auto.
      do 2 apply M_alt_r. now apply lit_units_exact.
Qed.

(** ** The garbled-token rule (lines 57-58) *)

(** X22: a line without white space in which an ASCII letter is followed,
    anywhere later, by a digit that is followed, anywhere later, by one of
    [£$€¥#@%&*] is package metadata. *)
Theorem X22_letter_digit_symbol_token (toUpperCase : jsstring -> jsstring)
    (line a b c d : jsstring) (L D S : N) :
  line = a ++ L :: b ++ D :: c ++ S :: d ->
  existsb is_space line = false ->
  is_letter L = true -> is_digit D = true ->
  in_ranges garbled_symbols S = true ->
  isPackageMetadata toUpperCase line = true.
Proof.
  intros E Hsp HL HD HS.
  pose proof (no_space_units _ Hsp) as Hu.
  unfold isPackageMetadata. cbv zeta. rewrite (no_space_trim _ Hsp).
  assert (Hshort : regex_test SHORT_SYMBOL line = true).
  { apply class_test_iff. exists S. split.
    - rewrite E. apply in_or_app. right. right.
      apply in_or_app. right. right. apply in_or_app. right. now left.
    - now apply garbled_symbol_short. }
  assert (Hspace : regex_test SPACE line = false).
  { destruct (regex_test SPACE line) eqn:Ht; auto.
    apply class_test_iff in Ht as (x & Hx & Hc).
    unfold in_class, esc_s in Hc. cbn [negated ranges andb xorb] in Hc.
    rewrite orb_false_r in Hc. fold (is_space x) in Hc.
    rewrite (Hu x Hx) in Hc. discriminate. }
  assert (Hgarbled : regex_test GARBLED line = true).
  { rewrite E. apply GARBLED_test; auto; intros x Hx; apply Hu; rewrite E.
    - apply in_or_app. right. right. apply in_or_app. now left.
    - apply in_or_app. right. right. apply in_or_app. right. right.
      apply in_or_app. now left. }
  rewrite Hshort, Hspace, Hgarbled, andb_true_r. cbn [negb andb].
  destruct (length line <? 4) eqn:Hlen; [reflexivity|].
  apply Nat.ltb_ge in Hlen.
  match goal with
  | |- (if ?c then _ else _) = _ => destruct c; [reflexivity|]
  end.
  destruct (3 <? length line) eqn:H3; [reflexivity|].
  apply Nat.ltb_ge in H3. lia.
Qed.

Lemma X22_letter_digit_symbol_token_witness :
  js "AB12CD34#" =
    js "A" ++ ch "B" :: js "1" ++ ch "2" :: js "CD34" ++ ch "#" :: [] /\
  length (filter is_special (js "AB12CD34#")) = 1 /\
  isPackageMetadata ascii_upper (js "AB12CD34#") = true.
Proof.
  split; [reflexivity|]. split; [reflexivity|].
  apply (X22_letter_digit_symbol_token ascii_upper (js "AB12CD34#")
           (js "A") (js "1") (js "CD34") [] (ch "B") (ch "2") (ch "#"));
    reflexivity.
Defined.
